(** * nvc_cli: device selection, requirement checks and the configure workflow

    A shallow embedding of [src/nvc_cli.c] (libnvidia-container's command line
    tool) and the proofs of its specification.

    Conventions of the embedding.
    - A [char *] is either [None] (the NULL pointer) or [Some s], where [s]
      holds the characters before the terminating NUL.
    - [long] is the 64-bit integer of the LP64 platforms the tool is built
      for; [size_t] indices are [nat].
    - A pointer [&available[i]] into the device array is the offset [i].
    - Calls into libnvidia-container (nvc.h), the requirement evaluator
      (dsl.h) and the helpers of utils.h are answered by an environment that
      may depend on everything that happened before; every call is recorded
      in a log of events. *)

From Stdlib Require Import ZArith String Ascii List Lia Bool.
From stdpp Require Import base tactics option list sorting strings.
Import ListNotations.

Local Open Scope string_scope.
Local Open Scope list_scope.
Local Open Scope Z_scope.

(** ** The C library functions the tool calls *)

Module libc.

(** [tolower], [isspace] and [isdigit] in the "C" locale. *)
Definition tolower (c : ascii) : ascii :=
  let n := N_of_ascii c in
  if ((65 <=? n) && (n <=? 90))%N then ascii_of_N (n + 32) else c.

Definition isspace (c : ascii) : bool :=
  let n := N_of_ascii c in
  ((n =? 32) || ((9 <=? n) && (n <=? 13)))%N.

Definition isdigit (c : ascii) : bool :=
  let n := N_of_ascii c in
  ((48 <=? n) && (n <=? 57))%N.

Definition char_code (c : ascii) : Z := Z.of_N (N_of_ascii c).

Definition strlen (s : string) : nat := String.length s.

(** [strcasecmp s1 s2]: the difference of the first two characters that
    differ after case folding; the end of a string reads as NUL. *)
Fixpoint strcasecmp (s1 s2 : string) : Z :=
  match s1, s2 with
  | EmptyString, EmptyString => 0
  | EmptyString, String c2 _ => 0 - char_code (tolower c2)
  | String c1 _, EmptyString => char_code (tolower c1)
  | String c1 r1, String c2 r2 =>
      let d := char_code (tolower c1) - char_code (tolower c2) in
      if d =? 0 then strcasecmp r1 r2 else d
  end.

(** [strncasecmp s1 s2 n]: the same over at most [n] characters. *)
Fixpoint strncasecmp (s1 s2 : string) (n : nat) : Z :=
  match n with
  | O => 0
  | S n' =>
      match s1, s2 with
      | EmptyString, EmptyString => 0
      | EmptyString, String c2 _ => 0 - char_code (tolower c2)
      | String c1 _, EmptyString => char_code (tolower c1)
      | String c1 r1, String c2 r2 =>
          let d := char_code (tolower c1) - char_code (tolower c2) in
          if d =? 0 then strncasecmp r1 r2 n' else d
      end
  end.

(** [strsep(&s, delim)] on a non-NULL [s]: the token before the first
    delimiter, and the new value of [s] ([None] when no delimiter was
    found). On [s = NULL] strsep returns NULL: see [fields_opt]. *)
Definition is_delim (delim : string) (c : ascii) : bool :=
  existsb (Ascii.eqb c) (list_ascii_of_string delim).

Fixpoint strsep (s delim : string) : string * option string :=
  match s with
  | EmptyString => (EmptyString, None)
  | String c r =>
      if is_delim delim c then (EmptyString, Some r)
      else let '(tok, s') := strsep r delim in (String c tok, s')
  end.

(** The tokens that successive calls [strsep(&s, delim)] return until the
    call that returns NULL. *)
Fixpoint fields (s delim : string) : list string :=
  match s with
  | EmptyString => [EmptyString]
  | String c r =>
      if is_delim delim c then EmptyString :: fields r delim
      else match fields r delim with
           | tok :: toks => String c tok :: toks
           | [] => [String c EmptyString]
           end
  end.

Definition fields_opt (s : option string) (delim : string) : list string :=
  match s with
  | None => []
  | Some s => fields s delim
  end.

Definition LONG_MAX : Z := 9223372036854775807.
Definition LONG_MIN : Z := -9223372036854775808.

Definition clamp_long (v : Z) : Z :=
  if v >? LONG_MAX then LONG_MAX
  else if v <? LONG_MIN then LONG_MIN
  else v.

Fixpoint skip_space (s : string) : string :=
  match s with
  | String c r => if isspace c then skip_space r else s
  | EmptyString => s
  end.

(** The decimal digits at the head of [s], accumulated onto [acc], and
    what follows them. *)
Fixpoint scan_digits (s : string) (acc : Z) : Z * string :=
  match s with
  | String c r =>
      if isdigit c then scan_digits r (10 * acc + (char_code c - 48))
      else (acc, s)
  | EmptyString => (acc, s)
  end.

Definition starts_with_digit (s : string) : bool :=
  match s with
  | String c _ => isdigit c
  | EmptyString => false
  end.

(** An optional sign: whether it is a minus, and what follows it. *)
Definition read_sign (s : string) : bool * string :=
  match s with
  | String "-"%char r => (true, r)
  | String "+"%char r => (false, r)
  | _ => (false, s)
  end.

(** [strtol(nptr, &endptr, 10)]: the value and the string at [endptr].
    White space is skipped, one sign is read, then the decimal digits;
    with no digit the value is 0 and [endptr = nptr]; a value that does
    not fit a [long] is clamped. *)
Definition strtol (nptr : string) : Z * string :=
  let '(neg, s2) := read_sign (skip_space nptr) in
  if starts_with_digit s2 then
    let '(v, endptr) := scan_digits s2 0 in
    (clamp_long (if neg then - v else v), endptr)
  else (0, nptr).

End libc.

(** ** Data of nvc.h, dsl.h and error_generic.h that the tool reads *)

(** Modelled from the spec: [struct nvc_device] is declared in nvc.h, which
    is not among the sources; the tool reads its [uuid] only, and a device's
    ordinal is its position in the discovered array. *)
Record nvc_device := { uuid : string }.

(** [struct nvc_device_info]: [ngpus] is the length of [gpus]. *)
Record nvc_device_info := { gpus : list nvc_device }.

Definition ngpus (dev : nvc_device_info) : nat := length (gpus dev).

Record nvc_driver_info := { kmod_version : string; cuda_version : string }.

(** [struct error]: its message, NULL after [struct error err = {0}]. *)
Definition struct_error := option string.

(** [error_setx(err, fmt, ...)] stores the formatted message. *)
Definition error_setx (m : string) : struct_error := Some m.

(** A pointer into the [available] array, as its offset. *)
Abbreviation device_ptr := nat (only parsing).

(** The [selected] array: one pointer per device, NULL when not selected. *)
Abbreviation selection := (list (option device_ptr)) (only parsing).

(** ** select_gpu_devices (nvc_cli.c, lines 266-301) *)

Module selector.
Import libc.

(** [for (i = 0; i < size; ++i) selected[i] = &available[i];] *)
Definition select_all (size : nat) (selected : selection) : selection :=
  fold_left (fun sel i => <[i := Some i]> sel) (seq 0 size) selected.

(** The loop over [available] of the UUID branch, from index [i]: the
    first index whose uuid compares equal to [gpu] over [strlen(gpu)]
    characters, when there is one. *)
Fixpoint find_uuid (gpu : string) (available : list nvc_device) (i : nat)
  : option nat :=
  match available with
  | [] => None
  | d :: rest =>
      if strncasecmp (uuid d) gpu (strlen gpu) =? 0 then Some i
      else find_uuid gpu rest (S i)
  end.

(** How one turn of the [while] loop ends. *)
Inductive flow :=
| go_next (selected : selection)
| go_break (selected : selection)
| go_return (rv : Z) (err : struct_error).

(** The body of the [while] loop for the token [gpu]. *)
Definition select_token (gpu : string) (selected : selection)
    (available : list nvc_device) : flow :=
  let size := length available in
  match gpu with
  | EmptyString => go_next selected
  | _ =>
      if strcasecmp gpu "all" =? 0 then go_break (select_all size selected)
      else if strncasecmp gpu "GPU-" (strlen "GPU-") =? 0 then
        match find_uuid gpu available 0 with
        | Some i => go_next (<[i := Some i]> selected)
        | None => go_return (-1) (error_setx ("unknown device id: " +:+ gpu))
        end
      else
        let '(n, ptr) := strtol gpu in
        if String.eqb ptr EmptyString && (n >=? 0) && (n <? Z.of_nat size)
        then go_next (<[Z.to_nat n := Some (Z.to_nat n)]> selected)
        else go_return (-1) (error_setx ("unknown device id: " +:+ gpu))
  end.

(** The [while] loop over the tokens [strsep] yields. The result is the
    return value, the [selected] array as the call leaves it, and [*err]. *)
Fixpoint select_tokens (toks : list string) (err : struct_error)
    (selected : selection) (available : list nvc_device)
  : Z * selection * struct_error :=
  match toks with
  | [] => (0, selected, err)
  | gpu :: toks' =>
      match select_token gpu selected available with
      | go_next selected' => select_tokens toks' err selected' available
      | go_break selected' => (0, selected', err)
      | go_return rv err' => (rv, selected, err')
      end
  end.

Definition select_gpu_devices (err : struct_error) (devs : option string)
    (selected : selection) (available : list nvc_device)
  : Z * selection * struct_error :=
  select_tokens (fields_opt devs ",") err selected available.

End selector.


(** ** The requirement evaluator's interface (dsl.h) *)

(** Modelled from the spec: [enum dsl_comparator] of dsl.h, which is not
    among the sources; the comparators =, !=, <, <=, >, >=. *)
Inductive dsl_comparator := EQUAL | NEQUAL | LESS | LEQUAL | GREATER | GEQUAL.

(** [struct dsl_rule]: a predicate's name and its function; the [void *]
    data the tool passes is the driver information. *)
Record dsl_rule := {
  rule_name : string;
  rule_func : nvc_driver_info -> dsl_comparator -> string -> Z
}.

(** ** The environment: libnvidia-container, the evaluator, utils.h *)

Definition nvc_context := nat.
Definition nvc_container_config := nat.
Definition nvc_container := nat.

(** A call the tool makes, with its arguments and what it returned. *)
Inductive event :=
| ev_setenv (name value : string)
| ev_errx (status : Z) (message : string)
| ev_argp_usage
| ev_nvc_context_new (ret : option nvc_context)
| ev_nvc_container_config_new (pid : Z) (rootfs : option string)
    (ret : option nvc_container_config)
| ev_nvc_init (nvc : nvc_context) (flags : option string) (ret : Z)
| ev_nvc_container_new (nvc : nvc_context) (cfg : nvc_container_config)
    (flags : option string) (ret : option nvc_container)
| ev_nvc_driver_info_new (nvc : nvc_context) (flags : option string)
    (ret : option nvc_driver_info)
| ev_nvc_device_info_new (nvc : nvc_context) (flags : option string)
    (ret : option nvc_device_info)
| ev_dsl_evaluate (expr : option string) (drv : nvc_driver_info) (ret : Z)
| ev_nvc_driver_mount (nvc : nvc_context) (cnt : nvc_container)
    (drv : nvc_driver_info) (ret : Z)
| ev_nvc_device_mount (nvc : nvc_context) (cnt : nvc_container)
    (gpu : device_ptr) (ret : Z)
| ev_nvc_ldcache_update (nvc : nvc_context) (cnt : nvc_container) (ret : Z)
| ev_nvc_shutdown (nvc : option nvc_context)
| ev_nvc_container_free (cnt : option nvc_container)
| ev_nvc_device_info_free (dev : option nvc_device_info)
| ev_nvc_driver_info_free (drv : option nvc_driver_info)
| ev_nvc_container_config_free (cfg : option nvc_container_config)
| ev_nvc_context_free (nvc : option nvc_context)
| ev_error_reset
| ev_warn (message : string)
| ev_warnx (message : string).

(** The events so far, oldest first. *)
Definition log := list event.

(** What the functions declared in nvc.h, dsl.h and utils.h answer. Each
    answer may depend on the whole history of the run. *)
Record library := {
  nvc_context_new : log -> option nvc_context;
  nvc_container_config_new :
    log -> Z -> option string -> option nvc_container_config;
  nvc_init : log -> nvc_context -> option string -> Z;
  nvc_container_new :
    log -> nvc_context -> nvc_container_config -> option string ->
    option nvc_container;
  nvc_driver_info_new :
    log -> nvc_context -> option string -> option nvc_driver_info;
  nvc_device_info_new :
    log -> nvc_context -> option string -> option nvc_device_info;
  nvc_driver_mount :
    log -> nvc_context -> nvc_container -> nvc_driver_info -> Z;
  nvc_device_mount :
    log -> nvc_context -> nvc_container -> device_ptr -> Z;
  nvc_ldcache_update : log -> nvc_context -> nvc_container -> Z;
  nvc_error : log -> nvc_context -> string;
  dsl_evaluate :
    log -> option string -> nvc_driver_info -> list dsl_rule ->
    Z * struct_error;
  dsl_compare_version : string -> dsl_comparator -> string -> Z;
  (* utils.h: the joined string, or the error message *)
  strjoin : log -> option string -> string -> string -> option string + string;
  strtopid : log -> option string -> Z + string;
  getpid : log -> Z
}.

(** ** A state monad over the log *)

Definition M (A : Type) : Type := log -> A * log.

Definition ret {A} (a : A) : M A := fun l => (a, l).

Definition bind {A B} (m : M A) (k : A -> M B) : M B :=
  fun l => let '(a, l') := m l in k a l'.

Notation "x <- m ;; k" := (bind m (fun x => k))
  (at level 90, m at level 80, right associativity).
Notation "m ;;; k" := (bind m (fun _ => k))
  (at level 90, right associativity).

(** Ask the environment with the history so far, then record the call. *)
Definition call {A} (answer : log -> A) (record : A -> event) : M A :=
  fun l => let a := answer l in (a, l ++ [record a]).

Definition emit (e : event) : M unit := fun l => (tt, l ++ [e]).

Definition ask {A} (answer : log -> A) : M A := fun l => (answer l, l).

Definition EXIT_SUCCESS : Z := 0.
Definition EXIT_FAILURE : Z := 1.

(** ** The tool's own data (nvc_cli.c, lines 34-52 and 103-110) *)

(** The one entry of [commands]: a [const struct command *] is its index. *)
Inductive command := cmd_configure.

Definition command_name (c : command) : string :=
  match c with cmd_configure => "configure" end.

Definition commands : list command := [cmd_configure].

(** [nitems(ctx->reqs)] for [char *reqs[16]]. *)
Definition nitems_reqs : nat := 16.

Record context := {
  pid : Z;
  rootfs : option string;
  devices : option string;
  reqs : list (option string);
  nreqs : nat;
  init_flags : option string;
  driver_flags : option string;
  device_flags : option string;
  container_flags : option string;
  command_ : option command
}.

(** [struct context ctx = {0}]. *)
Definition context_zero : context :=
  {| pid := 0; rootfs := None; devices := None;
     reqs := replicate nitems_reqs None; nreqs := 0;
     init_flags := None; driver_flags := None; device_flags := None;
     container_flags := None; command_ := None |}.

(** What [printf]'s [%s] shows for a message pointer. *)
Definition show_msg (err : struct_error) : string :=
  match err with Some m => m | None => "(null)" end.

(** ** configure_command (nvc_cli.c, lines 252-264 and 303-384) *)

Section workflow.
Variable lib : library.

Definition check_cuda_version (data : nvc_driver_info)
    (cmp : dsl_comparator) (version : string) : Z :=
  dsl_compare_version lib (cuda_version data) cmp version.

Definition check_driver_version (data : nvc_driver_info)
    (cmp : dsl_comparator) (version : string) : Z :=
  dsl_compare_version lib (kmod_version data) cmp version.

Definition rules : list dsl_rule :=
  [ {| rule_name := "cuda"; rule_func := check_cuda_version |};
    {| rule_name := "driver"; rule_func := check_driver_version |} ].

(** [warnx(fmt, nvc_error(nvc))] *)
Definition warnx_nvc_error (prefix : string) (nvc : nvc_context) : M unit :=
  e <- ask (fun l => nvc_error lib l nvc) ;;
  emit (ev_warnx (prefix +:+ e)).

(** The statements from the label [fail] on, for the values the local
    variables hold when control gets there. *)
Definition fail (nvc : option nvc_context) (cnt : option nvc_container)
    (dev : option nvc_device_info) (drv : option nvc_driver_info)
    (cfg : option nvc_container_config) (rv : Z) : M Z :=
  emit (ev_nvc_shutdown nvc) ;;;
  emit (ev_nvc_container_free cnt) ;;;
  emit (ev_nvc_device_info_free dev) ;;;
  emit (ev_nvc_driver_info_free drv) ;;;
  emit (ev_nvc_container_config_free cfg) ;;;
  emit (ev_nvc_context_free nvc) ;;;
  emit ev_error_reset ;;;
  ret rv.

(** The loop over [ctx->reqs[0 .. nreqs-1]]: [inl err] when it ran to its
    end, [inr err] when a requirement failed (after the warning). *)
Fixpoint check_requirements (exprs : list (option string))
    (drv : nvc_driver_info) (err : struct_error)
  : M (struct_error + struct_error) :=
  match exprs with
  | [] => ret (inl err)
  | expr :: rest =>
      r <- call (fun l => dsl_evaluate lib l expr drv rules)
                (fun r => ev_dsl_evaluate expr drv (fst r)) ;;
      if fst r <? 0 then
        emit (ev_warnx ("requirement error: " +:+ show_msg (snd r))) ;;;
        ret (inr (snd r))
      else check_requirements rest drv err
  end.

(** The loop over [gpus[0 .. ngpus-1]]: [true] when it ran to its end,
    [false] when a mount failed (after the warning). *)
Fixpoint mount_devices (nvc : nvc_context) (cnt : nvc_container)
    (gpus : selection) : M bool :=
  match gpus with
  | [] => ret true
  | None :: rest => mount_devices nvc cnt rest
  | Some gpu :: rest =>
      r <- call (fun l => nvc_device_mount lib l nvc cnt gpu)
                (ev_nvc_device_mount nvc cnt gpu) ;;
      if r <? 0 then warnx_nvc_error "mount error: " nvc ;;; ret false
      else mount_devices nvc cnt rest
  end.

(** The part of [configure_command] after the device query succeeded. The
    requirement loop reads [reqs[0 .. nreqs-1]]; the parser keeps [nreqs]
    within the array (see [reqs_bounded]), and a larger [nreqs], which would
    read outside it, is not followed here. *)
Definition configure_mounts (ctx : context) (nvc : nvc_context)
    (cfg : nvc_container_config) (cnt : nvc_container)
    (drv : nvc_driver_info) (dev : nvc_device_info) : M Z :=
  let fail_here := fail (Some nvc) (Some cnt) (Some dev) (Some drv) (Some cfg) in
  checked <- check_requirements (firstn (nreqs ctx) (reqs ctx)) drv None ;;
  match checked with
  | inr _ => fail_here EXIT_FAILURE
  | inl err =>
      (* gpus = alloca(...); memset(gpus, 0, ...) *)
      let gpus0 : selection := replicate (ngpus dev) None in
      let '(rv, selected, err') :=
        selector.select_gpu_devices err (devices ctx) gpus0 (gpus dev) in
      if rv <? 0 then
        emit (ev_warnx ("device error: " +:+ show_msg err')) ;;;
        fail_here EXIT_FAILURE
      else
        r <- call (fun l => nvc_driver_mount lib l nvc cnt drv)
                  (ev_nvc_driver_mount nvc cnt drv) ;;
        if r <? 0 then
          warnx_nvc_error "mount error: " nvc ;;; fail_here EXIT_FAILURE
        else
          mounted <- mount_devices nvc cnt selected ;;
          if negb mounted then fail_here EXIT_FAILURE
          else
            r <- call (fun l => nvc_ldcache_update lib l nvc cnt)
                      (ev_nvc_ldcache_update nvc cnt) ;;
            if r <? 0 then
              warnx_nvc_error "mount error: " nvc ;;; fail_here EXIT_FAILURE
            else fail_here EXIT_SUCCESS
  end.

Definition configure_command (ctx : context) : M Z :=
  nvc <- call (nvc_context_new lib) ev_nvc_context_new ;;
  cfg <- call (fun l => nvc_container_config_new lib l (pid ctx) (rootfs ctx))
              (ev_nvc_container_config_new (pid ctx) (rootfs ctx)) ;;
  match nvc, cfg with
  | Some nvc', Some cfg' =>
      r <- call (fun l => nvc_init lib l nvc' (init_flags ctx))
                (ev_nvc_init nvc' (init_flags ctx)) ;;
      if r <? 0 then
        warnx_nvc_error "initialization error: " nvc' ;;;
        fail nvc None None None cfg EXIT_FAILURE
      else
        cnt <- call (fun l => nvc_container_new lib l nvc' cfg' (container_flags ctx))
                    (ev_nvc_container_new nvc' cfg' (container_flags ctx)) ;;
        match cnt with
        | None =>
            warnx_nvc_error "initialization error: " nvc' ;;;
            fail nvc None None None cfg EXIT_FAILURE
        | Some cnt' =>
            drv <- call (fun l => nvc_driver_info_new lib l nvc' (driver_flags ctx))
                        (ev_nvc_driver_info_new nvc' (driver_flags ctx)) ;;
            match drv with
            | None =>
                warnx_nvc_error "detection error: " nvc' ;;;
                fail nvc cnt None None cfg EXIT_FAILURE
            | Some drv' =>
                dev <- call (fun l => nvc_device_info_new lib l nvc' (device_flags ctx))
                            (ev_nvc_device_info_new nvc' (device_flags ctx)) ;;
                match dev with
                | None =>
                    warnx_nvc_error "detection error: " nvc' ;;;
                    fail nvc cnt None drv cfg EXIT_FAILURE
                | Some dev' => configure_mounts ctx nvc' cfg' cnt' drv' dev'
                end
            end
        end
  | _, _ =>
      emit (ev_warn "memory allocation failed") ;;;
      fail nvc None None None cfg EXIT_FAILURE
  end.

End workflow.

(** ** The option parsers and main (nvc_cli.c, lines 121-250, 386-401) *)

Definition set_pid (v : Z) (c : context) : context :=
  {| pid := v; rootfs := rootfs c; devices := devices c; reqs := reqs c;
     nreqs := nreqs c; init_flags := init_flags c;
     driver_flags := driver_flags c; device_flags := device_flags c;
     container_flags := container_flags c; command_ := command_ c |}.

Definition set_rootfs (v : option string) (c : context) : context :=
  {| pid := pid c; rootfs := v; devices := devices c; reqs := reqs c;
     nreqs := nreqs c; init_flags := init_flags c;
     driver_flags := driver_flags c; device_flags := device_flags c;
     container_flags := container_flags c; command_ := command_ c |}.

Definition set_devices (v : option string) (c : context) : context :=
  {| pid := pid c; rootfs := rootfs c; devices := v; reqs := reqs c;
     nreqs := nreqs c; init_flags := init_flags c;
     driver_flags := driver_flags c; device_flags := device_flags c;
     container_flags := container_flags c; command_ := command_ c |}.

Definition set_reqs (v : list (option string)) (n : nat) (c : context)
  : context :=
  {| pid := pid c; rootfs := rootfs c; devices := devices c; reqs := v;
     nreqs := n; init_flags := init_flags c;
     driver_flags := driver_flags c; device_flags := device_flags c;
     container_flags := container_flags c; command_ := command_ c |}.

Definition set_init_flags (v : option string) (c : context) : context :=
  {| pid := pid c; rootfs := rootfs c; devices := devices c; reqs := reqs c;
     nreqs := nreqs c; init_flags := v;
     driver_flags := driver_flags c; device_flags := device_flags c;
     container_flags := container_flags c; command_ := command_ c |}.

Definition set_driver_flags (v : option string) (c : context) : context :=
  {| pid := pid c; rootfs := rootfs c; devices := devices c; reqs := reqs c;
     nreqs := nreqs c; init_flags := init_flags c;
     driver_flags := v; device_flags := device_flags c;
     container_flags := container_flags c; command_ := command_ c |}.

Definition set_device_flags (v : option string) (c : context) : context :=
  {| pid := pid c; rootfs := rootfs c; devices := devices c; reqs := reqs c;
     nreqs := nreqs c; init_flags := init_flags c;
     driver_flags := driver_flags c; device_flags := v;
     container_flags := container_flags c; command_ := command_ c |}.

Definition set_container_flags (v : option string) (c : context) : context :=
  {| pid := pid c; rootfs := rootfs c; devices := devices c; reqs := reqs c;
     nreqs := nreqs c; init_flags := init_flags c;
     driver_flags := driver_flags c; device_flags := device_flags c;
     container_flags := v; command_ := command_ c |}.

Definition set_command (v : option command) (c : context) : context :=
  {| pid := pid c; rootfs := rootfs c; devices := devices c; reqs := reqs c;
     nreqs := nreqs c; init_flags := init_flags c;
     driver_flags := driver_flags c; device_flags := device_flags c;
     container_flags := container_flags c; command_ := v |}.

(** [a[i] = v] on an array of [length a] entries: [None] is a write
    outside the array, which C leaves undefined. *)
Definition array_store {A} (a : list A) (i : nat) (v : A) : option (list A) :=
  if (i <? length a)%nat then Some (<[i := v]> a) else None.

(** Keys of argp.h and of the option tables. *)
Definition ARGP_KEY_ARG : Z := 0.
Definition ARGP_KEY_ARGS : Z := 16777222.    (* 0x1000006 *)
Definition ARGP_KEY_END : Z := 16777217.     (* 0x1000001 *)
Definition ARGP_KEY_SUCCESS : Z := 16777220. (* 0x1000004 *)
Definition ARGP_ERR_UNKNOWN : Z := 7.        (* E2BIG *)
Definition key (c : ascii) : Z := libc.char_code c.

(** How a call of a parser ends. *)
Inductive parse_result :=
| p_return (ret : Z) (ctx : context)
| p_exit (status : Z)
| p_undefined.

(** One call glibc's [argp_parse] makes to a parser: the key, the argument
    and [state->arg_num]. *)
Record callback := { cb_key : Z; cb_arg : option string; cb_arg_num : nat }.

(** The command line as [argp_parse] presents it: the calls to
    [main_parser]; [state->argv[0]] at [ARGP_KEY_ARGS]; and the calls to the
    command's parser that the nested [argp_parse] of [parse_command] makes. *)
Record command_line := {
  main_calls : list callback;
  argv0 : string;
  command_calls : list callback
}.

Section parsers.
Variable lib : library.

(** The label [fatal]: [errx(EXIT_FAILURE, "input error: %s", err.msg)]. *)
Definition fatal (err : struct_error) : M parse_result :=
  emit (ev_errx EXIT_FAILURE ("input error: " +:+ show_msg err)) ;;;
  ret (p_exit EXIT_FAILURE).

(** [argp_usage(state)] prints the usage and exits with
    [argp_err_exit_status], which the tool sets to [EXIT_FAILURE]. *)
Definition argp_usage : M parse_result :=
  emit ev_argp_usage ;;; ret (p_exit EXIT_FAILURE).

(** [if (strjoin(&err, &s, s2, sep) < 0) goto fatal;] then [k] on the new
    value of [s]. *)
Definition join (s : option string) (s2 sep : string)
    (k : option string -> M parse_result) : M parse_result :=
  r <- ask (fun l => strjoin lib l s s2 sep) ;;
  match r with
  | inl s' => k s'
  | inr m => fatal (Some m)
  end.

Definition arg_text (arg : option string) : string :=
  match arg with Some a => a | None => EmptyString end.

Definition configure_parser (k : Z) (arg : option string) (arg_num : nat)
    (ctx : context) : M parse_result :=
  if k =? key "p" then
    r <- ask (fun l => strtopid lib l arg) ;;
    match r with
    | inl p => ret (p_return 0 (set_pid p ctx))
    | inr m => fatal (Some m)
    end
  else if k =? key "d" then
    join (devices ctx) (arg_text arg) ","
      (fun s => ret (p_return 0 (set_devices s ctx)))
  else if k =? key "r" then
    if (nitems_reqs <=? nreqs ctx)%nat then
      fatal (error_setx "too many requirements")
    else
      match array_store (reqs ctx) (nreqs ctx) arg with
      | Some reqs' => ret (p_return 0 (set_reqs reqs' (S (nreqs ctx)) ctx))
      | None => ret p_undefined
      end
  else if k =? key "c" then
    join (driver_flags ctx) "compute" " " (fun s =>
    join (device_flags ctx) "compute" " " (fun s' =>
    ret (p_return 0 (set_device_flags s' (set_driver_flags s ctx)))))
  else if k =? key "u" then
    join (driver_flags ctx) "utility" " " (fun s =>
    join (device_flags ctx) "utility" " " (fun s' =>
    ret (p_return 0 (set_device_flags s' (set_driver_flags s ctx)))))
  else if k =? key "v" then
    join (driver_flags ctx) "video" " " (fun s =>
    join (device_flags ctx) "video" " " (fun s' =>
    ret (p_return 0 (set_device_flags s' (set_driver_flags s ctx)))))
  else if k =? key "g" then
    join (driver_flags ctx) "graphic" " " (fun s =>
    join (device_flags ctx) "graphic" " " (fun s' =>
    ret (p_return 0 (set_device_flags s' (set_driver_flags s ctx)))))
  else if k =? 128 then
    join (driver_flags ctx) "compat32" " "
      (fun s => ret (p_return 0 (set_driver_flags s ctx)))
  else if k =? 129 then
    join (container_flags ctx) "no-cgroups" " "
      (fun s => ret (p_return 0 (set_container_flags s ctx)))
  else if k =? 130 then
    join (container_flags ctx) "no-devbind" " "
      (fun s => ret (p_return 0 (set_container_flags s ctx)))
  else if k =? ARGP_KEY_ARG then
    if (0 <? arg_num)%nat then argp_usage
    else ret (p_return 0 (set_rootfs arg ctx))
  else if k =? ARGP_KEY_SUCCESS then
    if pid ctx >? 0 then
      join (container_flags ctx) "supervised" " "
        (fun s => ret (p_return 0 (set_container_flags s ctx)))
    else
      p <- ask (getpid lib) ;;
      join (container_flags ctx) "standalone" " "
        (fun s => ret (p_return 0 (set_container_flags s (set_pid p ctx))))
  else if k =? ARGP_KEY_END then
    if (arg_num <? 1)%nat then argp_usage else ret (p_return 0 ctx)
  else ret (p_return ARGP_ERR_UNKNOWN ctx).

(** glibc's [argp_parse], as the calls it makes to the parser, in order,
    until one of them ends the process. This is the part of a parse in
    which the tool's own code runs; the exits glibc makes by itself are
    added by [argp_parse_glibc]. *)
Fixpoint argp_parse
    (parser : Z -> option string -> nat -> context -> M parse_result)
    (calls : list callback) (ctx : context) : M parse_result :=
  match calls with
  | [] => ret (p_return 0 ctx)
  | c :: rest =>
      r <- parser (cb_key c) (cb_arg c) (cb_arg_num c) ctx ;;
      match r with
      | p_return _ ctx' => argp_parse parser rest ctx'
      | _ => ret r
      end
  end.

(** The parser of a command ([commands[i].argp]). *)
Definition command_parser (c : command)
  : Z -> option string -> nat -> context -> M parse_result :=
  match c with cmd_configure => configure_parser end.

(** [parse_command]: the loop over [commands] from entry [cs] on. The
    context the nested parse leaves, with the command found. *)
Fixpoint parse_command (cs : list command) (cl : command_line)
    (ctx : context) : M parse_result :=
  match cs with
  | [] => argp_usage
  | c :: cs' =>
      if String.eqb (argv0 cl) (command_name c) then
        r <- argp_parse (command_parser c) (command_calls cl) ctx ;;
        match r with
        | p_return _ ctx' => ret (p_return 0 (set_command (Some c) ctx'))
        | _ => ret r
        end
      else parse_command cs' cl ctx
  end.

Definition main_parser (cl : command_line) (k : Z) (arg : option string)
    (arg_num : nat) (ctx : context) : M parse_result :=
  if k =? key "d" then
    emit (ev_setenv "NVC_DEBUG_FILE" (arg_text arg)) ;;;
    ret (p_return 0 ctx)
  else if k =? key "k" then
    join (init_flags ctx) "load-kmods" " "
      (fun s => ret (p_return 0 (set_init_flags s ctx)))
  else if k =? ARGP_KEY_ARGS then parse_command commands cl ctx
  else if k =? ARGP_KEY_END then
    match command_ ctx with
    | None => argp_usage
    | Some _ => ret (p_return 0 ctx)
    end
  else ret (p_return ARGP_ERR_UNKNOWN ctx).

(** [ctx.command->func(&ctx)] *)
Definition command_func (c : command) : context -> M Z :=
  match c with cmd_configure => configure_command lib end.

(** [main]: the exit status, or [None] where C leaves the behaviour
    undefined (a write outside [reqs], a call through a NULL command).
    The five [free] calls before the return are left out. Here both
    calls of [argp_parse] return when the parsers let them; [main_glibc]
    is [main] with the exits glibc makes by itself. *)
Definition main (cl : command_line) : M (option Z) :=
  r <- argp_parse (main_parser cl) (main_calls cl) context_zero ;;
  match r with
  | p_return _ ctx =>
      match command_ ctx with
      | Some c => rv <- command_func c ctx ;; ret (Some rv)
      | None => ret None
      end
  | p_exit status => ret (Some status)
  | p_undefined => ret None
  end.

End parsers.

(** ** glibc's own exits from argp_parse *)

(** How a call of glibc's [argp_parse] ends when no call to the parser
    ended the process. The tool passes neither [ARGP_NO_HELP] nor
    [ARGP_NO_EXIT] (lines 128 and 392) and sets the version hook (line
    56): glibc itself answers "--help", "--usage" and "--version" and
    calls [exit(0)], and on an option or an argument it cannot parse it
    calls [exit(argp_err_exit_status)]. What glibc prints before it exits
    (the version through [print_version]) is not followed. *)
Inductive argp_end :=
| argp_returns
| argp_exits_ok
| argp_exits_error.

(** [error_t argp_err_exit_status = EXIT_FAILURE;] (line 55) *)
Definition argp_err_exit_status : Z := EXIT_FAILURE.

(** A run of the tool: the command line as the calls to the parsers, and
    how glibc ends the parse of [main] (line 392) and the nested parse of
    [parse_command] (line 128). *)
Record invocation := {
  cmdline : command_line;
  main_end : argp_end;
  command_end : argp_end
}.

(** [argp_parse]: the calls to the parser, then the end [e] when none of
    the calls ended the process. *)
Definition argp_parse_glibc
    (parser : Z -> option string -> nat -> context -> M parse_result)
    (calls : list callback) (e : argp_end) (ctx : context) : M parse_result :=
  r <- argp_parse parser calls ctx ;;
  match r, e with
  | p_return _ _, argp_exits_ok => ret (p_exit EXIT_SUCCESS)
  | p_return _ _, argp_exits_error => ret (p_exit argp_err_exit_status)
  | _, _ => ret r
  end.

Section glibc.
Variable lib : library.

(** [parse_command], its nested parse ended as [command_end] says. *)
Fixpoint parse_command_glibc (cs : list command) (inv : invocation)
    (ctx : context) : M parse_result :=
  match cs with
  | [] => argp_usage
  | c :: cs' =>
      if String.eqb (argv0 (cmdline inv)) (command_name c) then
        r <- argp_parse_glibc (command_parser lib c)
               (command_calls (cmdline inv)) (command_end inv) ctx ;;
        match r with
        | p_return _ ctx' => ret (p_return 0 (set_command (Some c) ctx'))
        | _ => ret r
        end
      else parse_command_glibc cs' inv ctx
  end.

Definition main_parser_glibc (inv : invocation) (k : Z)
    (arg : option string) (arg_num : nat) (ctx : context) : M parse_result :=
  if k =? key "d" then
    emit (ev_setenv "NVC_DEBUG_FILE" (arg_text arg)) ;;;
    ret (p_return 0 ctx)
  else if k =? key "k" then
    join lib (init_flags ctx) "load-kmods" " "
      (fun s => ret (p_return 0 (set_init_flags s ctx)))
  else if k =? ARGP_KEY_ARGS then parse_command_glibc commands inv ctx
  else if k =? ARGP_KEY_END then
    match command_ ctx with
    | None => argp_usage
    | Some _ => ret (p_return 0 ctx)
    end
  else ret (p_return ARGP_ERR_UNKNOWN ctx).

(** [main] with glibc's own exits: the exit status of the process, or
    [None] where C leaves the behaviour undefined. *)
Definition main_glibc (inv : invocation) : M (option Z) :=
  r <- argp_parse_glibc (main_parser_glibc inv) (main_calls (cmdline inv))
         (main_end inv) context_zero ;;
  match r with
  | p_return _ ctx =>
      match command_ ctx with
      | Some c => rv <- command_func lib c ctx ;; ret (Some rv)
      | None => ret None
      end
  | p_exit status => ret (Some status)
  | p_undefined => ret None
  end.

End glibc.

(** The requirement array has its 16 entries and at most 16 are in use. *)
Definition reqs_bounded (ctx : context) : Prop :=
  length (reqs ctx) = nitems_reqs /\ (nreqs ctx <= nitems_reqs)%nat.

(** The number of "--require" options among the calls to a parser. *)
Definition count_require (calls : list callback) : nat :=
  length (List.filter (fun c => cb_key c =? key "r") calls).

(** ** The requirement evaluator, from the specification *)

Module dsl_spec.
Import libc.

(** Modelled from the spec: dsl.c ([dsl_compare_version], [dsl_evaluate])
    is not among the sources. A version is dotted-numeric and compared
    component by component from the left, a missing trailing component
    counting as zero. *)
Definition components (v : string) : list Z :=
  map (fun f => fst (scan_digits f 0)) (fields v ".").

Definition pad (n : nat) (l : list Z) : list Z :=
  l ++ replicate (n - length l)%nat 0.

Fixpoint lex (a b : list Z) : comparison :=
  match a, b with
  | x :: a', y :: b' =>
      match x ?= y with
      | Eq => lex a' b'
      | c => c
      end
  | _, _ => Eq
  end.

Definition compare_versions (v1 v2 : string) : comparison :=
  let a := components v1 in
  let b := components v2 in
  let n := Nat.max (length a) (length b) in
  lex (pad n a) (pad n b).

Definition holds (cmp : dsl_comparator) (c : comparison) : bool :=
  match cmp, c with
  | EQUAL, Eq => true
  | NEQUAL, (Lt | Gt) => true
  | LESS, Lt => true
  | LEQUAL, (Lt | Eq) => true
  | GREATER, Gt => true
  | GEQUAL, (Gt | Eq) => true
  | _, _ => false
  end.

(** Modelled from the spec: a predicate answers 1 when the comparison
    holds and 0 when it does not. *)
Definition dsl_compare_version (v1 : string) (cmp : dsl_comparator)
    (v2 : string) : Z :=
  if holds cmp (compare_versions v1 v2) then 1 else 0.

Definition is_cmp_char (c : ascii) : bool :=
  is_delim "=!<>" c.

(** The longest prefix of [s] whose characters satisfy [p], and the rest. *)
Fixpoint span (p : ascii -> bool) (s : string) : string * string :=
  match s with
  | String c r =>
      if p c then let '(a, b) := span p r in (String c a, b)
      else (EmptyString, s)
  | EmptyString => (EmptyString, EmptyString)
  end.

Definition comparator_of (s : string) : option dsl_comparator :=
  if String.eqb s "=" then Some EQUAL
  else if String.eqb s "!=" then Some NEQUAL
  else if String.eqb s "<" then Some LESS
  else if String.eqb s "<=" then Some LEQUAL
  else if String.eqb s ">" then Some GREATER
  else if String.eqb s ">=" then Some GEQUAL
  else None.

Fixpoint find_rule (name : string) (rules : list dsl_rule)
  : option dsl_rule :=
  match rules with
  | [] => None
  | r :: rest =>
      if String.eqb (rule_name r) name then Some r else find_rule name rest
  end.

Fixpoint digits_only (s : string) : bool :=
  match s with
  | EmptyString => true
  | String c r => isdigit c && digits_only r
  end.

(** A dotted version literal: components separated by dots, each of one
    or more decimal digits. *)
Definition is_version (v : string) : bool :=
  forallb (fun f => starts_with_digit f && digits_only f) (fields v ".").

(** Modelled from the spec: [dsl_evaluate] reads a requirement, which is
    a subject, a comparator and a dotted version literal and nothing
    else, dispatches to the predicate of that name, and fails (a negative
    value, with a message holding the requirement's text) on malformed
    syntax, an unknown name or a false result. *)
Definition dsl_evaluate (expr : option string) (data : nvc_driver_info)
    (rules : list dsl_rule) : Z * struct_error :=
  match expr with
  | None => (-1, Some "(null)")
  | Some e =>
      let '(name, rest) := span (fun c => negb (is_cmp_char c)) e in
      let '(op, version) := span is_cmp_char rest in
      match comparator_of op, find_rule name rules with
      | Some cmp, Some r =>
          if is_version version then
            if rule_func r data cmp version =? 0 then (-1, Some e)
            else (0, None)
          else (-1, Some e)
      | _, _ => (-1, Some e)
      end
  end.

End dsl_spec.

(** ** The ledger of library resources, from the specification *)

Inductive resource :=
| r_context (nvc : nvc_context)
| r_config (cfg : nvc_container_config)
| r_library_state (nvc : nvc_context)
| r_container (cnt : nvc_container)
| r_driver_info (drv : nvc_driver_info)
| r_device_info (dev : nvc_device_info).

#[global] Instance nvc_device_eq_dec : EqDecision nvc_device.
Proof. solve_decision. Defined.

#[global] Instance nvc_device_info_eq_dec : EqDecision nvc_device_info.
Proof. solve_decision. Defined.

#[global] Instance nvc_driver_info_eq_dec : EqDecision nvc_driver_info.
Proof. solve_decision. Defined.

#[global] Instance resource_eq_dec : EqDecision resource.
Proof. solve_decision. Defined.

(** What was acquired and what was released, each in order. *)
Record ledger := {
  acquired : list resource;
  released : list resource
}.

Definition ledger_empty : ledger := {| acquired := []; released := [] |}.

Definition acquire (r : resource) (L : ledger) : ledger :=
  {| acquired := acquired L ++ [r]; released := released L |}.

(** Modelled from the spec: the release functions of nvc.h, which is not
    among the sources: releasing a null or absent resource is a no-op. A
    release of a resource that was acquired is recorded, also when it was
    released before. *)
Definition release (r : resource) (L : ledger) : ledger :=
  if decide (r ∈ acquired L) then
    {| acquired := acquired L; released := released L ++ [r] |}
  else L.

(** The resources acquired and not released. *)
Definition held (L : ledger) : list resource :=
  filter (fun r => r ∉ released L) (acquired L).

Definition release_opt {A} (mk : A -> resource) (p : option A) (L : ledger)
  : ledger :=
  match p with
  | Some h => release (mk h) L
  | None => L
  end.

Definition acquire_opt {A} (mk : A -> resource) (p : option A) (L : ledger)
  : ledger :=
  match p with
  | Some h => acquire (mk h) L
  | None => L
  end.

Definition ledger_step (L : ledger) (e : event) : ledger :=
  match e with
  | ev_nvc_context_new ret => acquire_opt r_context ret L
  | ev_nvc_container_config_new _ _ ret => acquire_opt r_config ret L
  | ev_nvc_init nvc _ ret =>
      if ret <? 0 then L else acquire (r_library_state nvc) L
  | ev_nvc_container_new _ _ _ ret => acquire_opt r_container ret L
  | ev_nvc_driver_info_new _ _ ret => acquire_opt r_driver_info ret L
  | ev_nvc_device_info_new _ _ ret => acquire_opt r_device_info ret L
  | ev_nvc_shutdown nvc => release_opt r_library_state nvc L
  | ev_nvc_container_free cnt => release_opt r_container cnt L
  | ev_nvc_device_info_free dev => release_opt r_device_info dev L
  | ev_nvc_driver_info_free drv => release_opt r_driver_info drv L
  | ev_nvc_container_config_free cfg => release_opt r_config cfg L
  | ev_nvc_context_free nvc => release_opt r_context nvc L
  | _ => L
  end.

Definition ledger_of (l : log) : ledger := fold_left ledger_step l ledger_empty.

(** The order in which the block at [fail] releases the kinds of resource. *)
Definition release_rank (r : resource) : nat :=
  match r with
  | r_library_state _ => 0
  | r_container _ => 1
  | r_device_info _ => 2
  | r_driver_info _ => 3
  | r_config _ => 4
  | r_context _ => 5
  end.

Definition of_rank (k : nat) (l : list resource) : list resource :=
  filter (fun r => release_rank r = k) l.

(** The resources of [l], in the order of the block at [fail]. *)
Definition in_release_order (l : list resource) : list resource :=
  flat_map (fun k => of_rank k l) (seq 0 6).

(** The claim that resources are released in reverse acquisition order. *)
Definition released_in_reverse_order (l : log) : Prop :=
  released (ledger_of l) = rev (acquired (ledger_of l)).

(** ** Reading a log *)

(** The requirements evaluated, in order, each with [dsl_evaluate]'s value. *)
Fixpoint evaluated (l : log) : list (option string * Z) :=
  match l with
  | [] => []
  | ev_dsl_evaluate expr _ ret :: rest => (expr, ret) :: evaluated rest
  | _ :: rest => evaluated rest
  end.

(** The devices mounted, in order, each with [nvc_device_mount]'s value. *)
Fixpoint device_mounts (l : log) : list (device_ptr * Z) :=
  match l with
  | [] => []
  | ev_nvc_device_mount _ _ gpu ret :: rest => (gpu, ret) :: device_mounts rest
  | _ :: rest => device_mounts rest
  end.

(** The device list the run discovered, when the device query succeeded. *)
Definition discovered (l : log) : option nvc_device_info :=
  head (omap (fun e => match e with
                       | ev_nvc_device_info_new _ _ ret => ret
                       | _ => None
                       end) l).

(** The calls of the release functions, in order. *)
Definition is_release_call (e : event) : bool :=
  match e with
  | ev_nvc_shutdown _ | ev_nvc_container_free _ | ev_nvc_device_info_free _
  | ev_nvc_driver_info_free _ | ev_nvc_container_config_free _
  | ev_nvc_context_free _ => true
  | _ => false
  end.

Definition release_calls (l : log) : list event := List.filter is_release_call l.

(** The events after the first device mount that failed, when one did. *)
Fixpoint after_failed_mount (l : log) : option (list event) :=
  match l with
  | [] => None
  | ev_nvc_device_mount _ _ _ ret :: rest =>
      if ret <? 0 then Some rest else after_failed_mount rest
  | _ :: rest => after_failed_mount rest
  end.

(** The events of the requirement loop and of the device loop. *)
Definition is_requirement_event (e : event) : bool :=
  match e with
  | ev_dsl_evaluate _ _ _ | ev_warnx _ => true
  | _ => false
  end.

Definition is_device_loop_event (e : event) : bool :=
  match e with
  | ev_nvc_device_mount _ _ _ _ | ev_warnx _ => true
  | _ => false
  end.

(** A mount of the driver or of a device, or the refresh of the cache. *)
Definition is_mount_call (e : event) : bool :=
  match e with
  | ev_nvc_driver_mount _ _ _ _ | ev_nvc_device_mount _ _ _ _
  | ev_nvc_ldcache_update _ _ _ => true
  | _ => false
  end.

(** The events between the device query and the block at [fail]. *)
Definition is_mount_phase_event (e : event) : bool :=
  match e with
  | ev_dsl_evaluate _ _ _ | ev_warnx _ | ev_nvc_driver_mount _ _ _ _
  | ev_nvc_device_mount _ _ _ _ | ev_nvc_ldcache_update _ _ _ => true
  | _ => false
  end.

(** A call into libnvidia-container or the requirement evaluator. *)
Definition is_workflow_event (e : event) : bool :=
  match e with
  | ev_setenv _ _ | ev_errx _ _ | ev_argp_usage => false
  | _ => true
  end.

(** The ordinals a selection marks, ascending. *)
Definition marked (selected : selection) : list nat :=
  omap id selected.

Definition run {A} (m : M A) : A * log := m [].

(** ** An environment to run the tool on examples *)

Module example.

Definition devices3 : list nvc_device :=
  [ {| uuid := "GPU-1234abcd" |}; {| uuid := "GPU-5678ef01" |};
    {| uuid := "GPU-9abc2345" |} ].

(** DriverInfo{cuda=9.0, driver=384} *)
Definition driver : nvc_driver_info :=
  {| kmod_version := "384"; cuda_version := "9.0" |}.

(** A library whose call number [failing] fails (1 context, 2 config,
    3 init, 4 container, 5 driver query, 6 device query, 7 driver mount,
    8 cache update; 0 for none) and whose device mount fails for the
    device [bad_gpu]. Requirements go to the evaluator of [dsl_spec]. *)
Definition lib (failing : nat) (bad_gpu : option device_ptr) : library :=
  {| nvc_context_new := fun _ => if (failing =? 1)%nat then None else Some 1%nat;
     nvc_container_config_new := fun _ _ _ =>
       if (failing =? 2)%nat then None else Some 2%nat;
     nvc_init := fun _ _ _ => if (failing =? 3)%nat then -1 else 0;
     nvc_container_new := fun _ _ _ _ =>
       if (failing =? 4)%nat then None else Some 3%nat;
     nvc_driver_info_new := fun _ _ _ =>
       if (failing =? 5)%nat then None else Some driver;
     nvc_device_info_new := fun _ _ _ =>
       if (failing =? 6)%nat then None else Some {| gpus := devices3 |};
     nvc_driver_mount := fun _ _ _ _ => if (failing =? 7)%nat then -1 else 0;
     nvc_device_mount := fun _ _ _ gpu =>
       if decide (bad_gpu = Some gpu) then -1 else 0;
     nvc_ldcache_update := fun _ _ _ => if (failing =? 8)%nat then -1 else 0;
     nvc_error := fun _ _ => "failed";
     dsl_evaluate := fun _ => dsl_spec.dsl_evaluate;
     dsl_compare_version := dsl_spec.dsl_compare_version;
     strjoin := fun _ s s2 sep =>
       match s with
       | Some (String c r) => inl (Some (String c r +:+ sep +:+ s2))
       | _ => inl (Some s2)
       end;
     strtopid := fun _ arg =>
       match arg with
       | Some a => inl (fst (libc.strtol a))
       | None => inr "invalid pid"
       end;
     getpid := fun _ => 4242 |}.

Definition ctx (devs : option string) (rs : list string) : context :=
  {| pid := 77; rootfs := Some "/rootfs"; devices := devs;
     reqs := map Some rs ++ replicate (nitems_reqs - length rs) None;
     nreqs := length rs;
     init_flags := None; driver_flags := Some "compute utility";
     device_flags := Some "compute utility";
     container_flags := Some "supervised"; command_ := Some cmd_configure |}.

Definition opt (c : ascii) (arg : string) : callback :=
  {| cb_key := key c; cb_arg := Some arg; cb_arg_num := 0 |}.

Definition special (k : Z) (n : nat) : callback :=
  {| cb_key := k; cb_arg := None; cb_arg_num := n |}.

(** nvidia-container-cli configure -d [devs] -r r1 ... -r rk /rootfs *)
Definition configure_line (devs : string) (rs : list string) : command_line :=
  {| main_calls := [special ARGP_KEY_ARGS 0; special ARGP_KEY_END 1;
                    special ARGP_KEY_SUCCESS 1];
     argv0 := "configure";
     command_calls :=
       opt "d" devs :: map (opt "r") rs ++
       [ {| cb_key := ARGP_KEY_ARG; cb_arg := Some "/rootfs"; cb_arg_num := 0 |};
         special ARGP_KEY_END 1; special ARGP_KEY_SUCCESS 1 ] |}.

(** The command line [cl], both parses left to return by glibc. *)
Definition returning (cl : command_line) : invocation :=
  {| cmdline := cl; main_end := argp_returns; command_end := argp_returns |}.

(** nvidia-container-cli configure --help *)
Definition configure_help : invocation :=
  {| cmdline := {| main_calls := [special ARGP_KEY_ARGS 0];
                   argv0 := "configure"; command_calls := [] |};
     main_end := argp_returns; command_end := argp_exits_ok |}.

(** nvidia-container-cli list *)
Definition unknown_command : invocation :=
  returning {| main_calls := [special ARGP_KEY_ARGS 0];
               argv0 := "list"; command_calls := [] |}.

End example.


(** ** The specification's vocabulary for tokens *)

Module token.
Import libc.

(** A string holds no NUL: it is the text of a C string. *)
Fixpoint no_nul (s : string) : bool :=
  match s with
  | EmptyString => true
  | String c r => negb (Ascii.eqb c zero) && no_nul r
  end.

(** Case folding, character by character. *)
Fixpoint lower (s : string) : string :=
  match s with
  | EmptyString => EmptyString
  | String c r => String (tolower c) (lower r)
  end.

(** The token is "all", in any case. *)
Definition is_all (tok : string) : Prop := lower tok = "all".

(** The token starts with "GPU-", in any case. *)
Definition is_uuid_prefix (tok : string) : Prop :=
  String.prefix "gpu-" (lower tok) = true.

(** The device's UUID starts with the whole token, in any case. *)
Definition uuid_starts_with (tok : string) (d : nvc_device) : Prop :=
  String.prefix (lower tok) (lower (uuid d)) = true.

#[global] Instance uuid_starts_with_dec tok d : Decision (uuid_starts_with tok d).
Proof. unfold uuid_starts_with. apply _. Defined.

Fixpoint all_digits (s : string) : bool :=
  match s with
  | EmptyString => true
  | String c r => isdigit c && all_digits r
  end.

Fixpoint all_space (s : string) : bool :=
  match s with
  | EmptyString => true
  | String c r => isspace c && all_space r
  end.

(** The number a string of decimal digits writes. *)
Definition decimal (ds : string) : Z := fst (scan_digits ds 0).

(** The integer the whole token writes in base 10: white space, one
    optional sign, and at least one digit up to the end of the token. *)
Definition int_literal (tok : string) : option Z :=
  let '(neg, ds) := read_sign (skip_space tok) in
  if starts_with_digit ds && all_digits ds
  then Some (if neg then - decimal ds else decimal ds)
  else None.

(** The ordinal an index token names among [size] devices. *)
Definition index_of (size : nat) (tok : string) : option nat :=
  match int_literal tok with
  | Some v =>
      if (0 <=? v) && (v <? Z.of_nat size) then Some (Z.to_nat v) else None
  | None => None
  end.

(** A character an index token may start with and that neither "all" nor
    "GPU-" starts with: white space, a digit or a plus sign. *)
Definition index_start (c : ascii) : bool :=
  isspace c || isdigit c || Ascii.eqb c "+".

(** The selection with every one of [size] devices marked. *)
Definition everything (size : nat) : selection := map Some (seq 0 size).

(** [after] differs from [before] only in entries that now point to
    their own device, one of the [size] discovered. *)
Definition marks_only (size : nat) (before after : selection) : Prop :=
  length after = length before /\
  forall i : nat,
    after !! i = before !! i \/
    (after !! i = Some (Some i) /\ (i < size)%nat).

(** The loop reaches the token after [toks]: every token of [toks] ends
    its turn at [next] (or was empty); the selection at that point. *)
Fixpoint reaches (toks : list string) (selected : selection)
    (available : list nvc_device) : option selection :=
  match toks with
  | [] => Some selected
  | gpu :: toks' =>
      match selector.select_token gpu selected available with
      | selector.go_next selected' => reaches toks' selected' available
      | _ => None
      end
  end.

End token.

(** ** The shape of a run of configure_command *)

(** The calls of the block at [fail]. *)
Definition cleanup (nvc : option nvc_context) (cnt : option nvc_container)
    (dev : option nvc_device_info) (drv : option nvc_driver_info)
    (cfg : option nvc_container_config) : list event :=
  [ ev_nvc_shutdown nvc; ev_nvc_container_free cnt;
    ev_nvc_device_info_free dev; ev_nvc_driver_info_free drv;
    ev_nvc_container_config_free cfg; ev_nvc_context_free nvc;
    ev_error_reset ].

(** The events of the requirement loop over [exprs], and whether it ran to
    its end. *)
Inductive reqs_trace (drv : nvc_driver_info)
  : list (option string) -> list event -> bool -> Prop :=
| reqs_done : reqs_trace drv [] [] true
| reqs_failed expr rest v m :
    v < 0 ->
    reqs_trace drv (expr :: rest) [ev_dsl_evaluate expr drv v; ev_warnx m] false
| reqs_passed expr rest v evs ok :
    0 <= v ->
    reqs_trace drv rest evs ok ->
    reqs_trace drv (expr :: rest) (ev_dsl_evaluate expr drv v :: evs) ok.

(** The events of the device loop over [selected], and whether it ran to
    its end. *)
Inductive mount_trace (nvc : nvc_context) (cnt : nvc_container)
  : selection -> list event -> bool -> Prop :=
| mount_done : mount_trace nvc cnt [] [] true
| mount_skipped rest evs ok :
    mount_trace nvc cnt rest evs ok ->
    mount_trace nvc cnt (None :: rest) evs ok
| mount_failed gpu rest v m :
    v < 0 ->
    mount_trace nvc cnt (Some gpu :: rest)
      [ev_nvc_device_mount nvc cnt gpu v; ev_warnx m] false
| mount_passed gpu rest v evs ok :
    0 <= v ->
    mount_trace nvc cnt rest evs ok ->
    mount_trace nvc cnt (Some gpu :: rest)
      (ev_nvc_device_mount nvc cnt gpu v :: evs) ok.

(** The six calls that acquire, when all succeed. *)
Definition acquisitions (ctx : context) (nvc : nvc_context)
    (cfg : nvc_container_config) (cnt : nvc_container)
    (drv : nvc_driver_info) (dev : nvc_device_info) (r : Z) : list event :=
  [ ev_nvc_context_new (Some nvc);
    ev_nvc_container_config_new (pid ctx) (rootfs ctx) (Some cfg);
    ev_nvc_init nvc (init_flags ctx) r;
    ev_nvc_container_new nvc cfg (container_flags ctx) (Some cnt);
    ev_nvc_driver_info_new nvc (driver_flags ctx) (Some drv);
    ev_nvc_device_info_new nvc (device_flags ctx) (Some dev) ].

(** The selection [configure_command] computes for the devices [dev]. *)
Definition selection_of (ctx : context) (dev : nvc_device_info)
  : Z * selection * struct_error :=
  selector.select_gpu_devices None (devices ctx) (replicate (ngpus dev) None)
    (gpus dev).

(** The events from the requirement loop on, after the six acquisitions,
    up to the block at [fail], with the return value. *)
Inductive mounts_trace (ctx : context) (nvc : nvc_context)
    (cnt : nvc_container) (drv : nvc_driver_info) (dev : nvc_device_info)
  : list event -> Z -> Prop :=
| stop_requirement evs :
    reqs_trace drv (firstn (nreqs ctx) (reqs ctx)) evs false ->
    mounts_trace ctx nvc cnt drv dev evs EXIT_FAILURE
| stop_selection evs rv selected err :
    reqs_trace drv (firstn (nreqs ctx) (reqs ctx)) evs true ->
    selection_of ctx dev = (rv, selected, err) -> rv < 0 ->
    mounts_trace ctx nvc cnt drv dev
      (evs ++ [ev_warnx ("device error: " +:+ show_msg err)]) EXIT_FAILURE
| stop_driver_mount evs rv selected err v m :
    reqs_trace drv (firstn (nreqs ctx) (reqs ctx)) evs true ->
    selection_of ctx dev = (rv, selected, err) -> 0 <= rv ->
    v < 0 ->
    mounts_trace ctx nvc cnt drv dev
      (evs ++ [ev_nvc_driver_mount nvc cnt drv v; ev_warnx m]) EXIT_FAILURE
| stop_device_mount evs rv selected err v mevs :
    reqs_trace drv (firstn (nreqs ctx) (reqs ctx)) evs true ->
    selection_of ctx dev = (rv, selected, err) -> 0 <= rv ->
    0 <= v ->
    mount_trace nvc cnt selected mevs false ->
    mounts_trace ctx nvc cnt drv dev
      (evs ++ ev_nvc_driver_mount nvc cnt drv v :: mevs) EXIT_FAILURE
| stop_ldcache evs rv selected err v mevs w m :
    reqs_trace drv (firstn (nreqs ctx) (reqs ctx)) evs true ->
    selection_of ctx dev = (rv, selected, err) -> 0 <= rv ->
    0 <= v ->
    mount_trace nvc cnt selected mevs true ->
    w < 0 ->
    mounts_trace ctx nvc cnt drv dev
      (evs ++ ev_nvc_driver_mount nvc cnt drv v :: mevs ++
       [ev_nvc_ldcache_update nvc cnt w; ev_warnx m]) EXIT_FAILURE
| stop_success evs rv selected err v mevs w :
    reqs_trace drv (firstn (nreqs ctx) (reqs ctx)) evs true ->
    selection_of ctx dev = (rv, selected, err) -> 0 <= rv ->
    0 <= v ->
    mount_trace nvc cnt selected mevs true ->
    0 <= w ->
    mounts_trace ctx nvc cnt drv dev
      (evs ++ ev_nvc_driver_mount nvc cnt drv v :: mevs ++
       [ev_nvc_ldcache_update nvc cnt w]) EXIT_SUCCESS.

(** The log of a run of [configure_command] and its return value: one
    case per place where control reaches [fail]. *)
Inductive workflow_trace (ctx : context) : log -> Z -> Prop :=
| wt_allocation nvc cfg :
    nvc = None \/ cfg = None ->
    workflow_trace ctx
      ([ ev_nvc_context_new nvc;
         ev_nvc_container_config_new (pid ctx) (rootfs ctx) cfg;
         ev_warn "memory allocation failed" ] ++
       cleanup nvc None None None cfg) EXIT_FAILURE
| wt_init nvc cfg r m :
    r < 0 ->
    workflow_trace ctx
      ([ ev_nvc_context_new (Some nvc);
         ev_nvc_container_config_new (pid ctx) (rootfs ctx) (Some cfg);
         ev_nvc_init nvc (init_flags ctx) r; ev_warnx m ] ++
       cleanup (Some nvc) None None None (Some cfg)) EXIT_FAILURE
| wt_container nvc cfg r m :
    0 <= r ->
    workflow_trace ctx
      ([ ev_nvc_context_new (Some nvc);
         ev_nvc_container_config_new (pid ctx) (rootfs ctx) (Some cfg);
         ev_nvc_init nvc (init_flags ctx) r;
         ev_nvc_container_new nvc cfg (container_flags ctx) None;
         ev_warnx m ] ++
       cleanup (Some nvc) None None None (Some cfg)) EXIT_FAILURE
| wt_driver nvc cfg r cnt m :
    0 <= r ->
    workflow_trace ctx
      ([ ev_nvc_context_new (Some nvc);
         ev_nvc_container_config_new (pid ctx) (rootfs ctx) (Some cfg);
         ev_nvc_init nvc (init_flags ctx) r;
         ev_nvc_container_new nvc cfg (container_flags ctx) (Some cnt);
         ev_nvc_driver_info_new nvc (driver_flags ctx) None;
         ev_warnx m ] ++
       cleanup (Some nvc) (Some cnt) None None (Some cfg)) EXIT_FAILURE
| wt_device nvc cfg r cnt drv m :
    0 <= r ->
    workflow_trace ctx
      ([ ev_nvc_context_new (Some nvc);
         ev_nvc_container_config_new (pid ctx) (rootfs ctx) (Some cfg);
         ev_nvc_init nvc (init_flags ctx) r;
         ev_nvc_container_new nvc cfg (container_flags ctx) (Some cnt);
         ev_nvc_driver_info_new nvc (driver_flags ctx) (Some drv);
         ev_nvc_device_info_new nvc (device_flags ctx) None;
         ev_warnx m ] ++
       cleanup (Some nvc) (Some cnt) None (Some drv) (Some cfg)) EXIT_FAILURE
| wt_mounts nvc cfg r cnt drv dev evs rv :
    0 <= r ->
    mounts_trace ctx nvc cnt drv dev evs rv ->
    workflow_trace ctx
      (acquisitions ctx nvc cfg cnt drv dev r ++ evs ++
       cleanup (Some nvc) (Some cnt) (Some dev) (Some drv) (Some cfg)) rv.

(** ** More ways to read a run *)

(** The token [tok], given as the whole specification over the all-NULL
    buffer, marks device [i]. *)
Definition marks_alone (available : list nvc_device) (tok : string)
    (i : nat) : Prop :=
  (selector.select_gpu_devices None (Some tok)
     (replicate (length available) None) available).1.2 !! i = Some (Some i).

(** The tokens of a specification that are not empty. *)
Definition nonempty_tokens (devs : option string) : list string :=
  filter (fun tok => tok <> EmptyString) (libc.fields_opt devs ",").

(** What each constructor returned to the run: the value the local
    variable of [configure_command] holds at [fail], NULL when the call
    failed or was not reached. *)
Fixpoint returned_context (l : log) : option nvc_context :=
  match l with
  | [] => None
  | ev_nvc_context_new ret :: _ => ret
  | _ :: rest => returned_context rest
  end.

Fixpoint returned_config (l : log) : option nvc_container_config :=
  match l with
  | [] => None
  | ev_nvc_container_config_new _ _ ret :: _ => ret
  | _ :: rest => returned_config rest
  end.

Fixpoint returned_container (l : log) : option nvc_container :=
  match l with
  | [] => None
  | ev_nvc_container_new _ _ _ ret :: _ => ret
  | _ :: rest => returned_container rest
  end.

Fixpoint returned_driver_info (l : log) : option nvc_driver_info :=
  match l with
  | [] => None
  | ev_nvc_driver_info_new _ _ ret :: _ => ret
  | _ :: rest => returned_driver_info rest
  end.

Fixpoint returned_device_info (l : log) : option nvc_device_info :=
  match l with
  | [] => None
  | ev_nvc_device_info_new _ _ ret :: _ => ret
  | _ :: rest => returned_device_info rest
  end.

(** A diagnostic on the standard error. *)
Definition is_warning (e : event) : bool :=
  match e with
  | ev_warn _ | ev_warnx _ => true
  | _ => false
  end.

Definition warnings (l : log) : list event := List.filter is_warning l.

(** A call that reported a failure: NULL from a constructor, a negative
    value from the other functions. *)
Definition failed (e : event) : bool :=
  match e with
  | ev_nvc_context_new None
  | ev_nvc_container_config_new _ _ None
  | ev_nvc_container_new _ _ _ None
  | ev_nvc_driver_info_new _ _ None
  | ev_nvc_device_info_new _ _ None => true
  | ev_nvc_init _ _ ret
  | ev_dsl_evaluate _ _ ret
  | ev_nvc_driver_mount _ _ _ ret
  | ev_nvc_device_mount _ _ _ ret
  | ev_nvc_ldcache_update _ _ ret => ret <? 0
  | _ => false
  end.

(** The events after the first call that failed, when one did. *)
Fixpoint after_failure (l : log) : option (list event) :=
  match l with
  | [] => None
  | e :: rest => if failed e then Some rest else after_failure rest
  end.

(** An event of the block at [fail]. *)
Definition is_cleanup_event (e : event) : bool :=
  match e with
  | ev_error_reset => true
  | _ => is_release_call e
  end.

(** The mounts and the refresh of the cache, in order. *)
Definition mount_calls (l : log) : list event := List.filter is_mount_call l.

(** ** A run that starts after other events *)

(** The environment as it answers once the events [l] have happened. *)
Definition library_after (l : log) (lib : library) : library :=
  {| nvc_context_new := fun h => nvc_context_new lib (l ++ h);
     nvc_container_config_new := fun h =>
       nvc_container_config_new lib (l ++ h);
     nvc_init := fun h => nvc_init lib (l ++ h);
     nvc_container_new := fun h => nvc_container_new lib (l ++ h);
     nvc_driver_info_new := fun h => nvc_driver_info_new lib (l ++ h);
     nvc_device_info_new := fun h => nvc_device_info_new lib (l ++ h);
     nvc_driver_mount := fun h => nvc_driver_mount lib (l ++ h);
     nvc_device_mount := fun h => nvc_device_mount lib (l ++ h);
     nvc_ldcache_update := fun h => nvc_ldcache_update lib (l ++ h);
     nvc_error := fun h => nvc_error lib (l ++ h);
     dsl_evaluate := fun h => dsl_evaluate lib (l ++ h);
     dsl_compare_version := dsl_compare_version lib;
     strjoin := fun h => strjoin lib (l ++ h);
     strtopid := fun h => strtopid lib (l ++ h);
     getpid := fun h => getpid lib (l ++ h) |}.

(** [m] from the log [l ++ h] does what [m'] does from [h], after [l]. *)
Definition shifted {A} (l : log) (m m' : M A) : Prop :=
  forall h : log, m (l ++ h) = ((m' h).1, l ++ (m' h).2).

(** An event of the option parsers that ends the process. *)
Definition is_exit_event (e : event) : bool :=
  match e with
  | ev_errx _ _ | ev_argp_usage => true
  | _ => false
  end.

(** The arguments of the "--require" options among the calls to a parser,
    in order. *)
Definition required (calls : list callback) : list (option string) :=
  map cb_arg (List.filter (fun c => cb_key c =? key "r") calls).

(** ** Tactics of the proofs *)

(** Appends to the right, conses to the front. *)
Ltac app_norm := repeat (progress (rewrite <- ?app_assoc; simpl)).

(** Write out the ledger of a log given as a list; a test [r <? 0] on the
    value of [nvc_init] is settled by a hypothesis of the context, a release
    by the two lemmas given: one for a resource acquired, one for a resource
    that was not. *)
Ltac ledger_compute_with release_in release_out :=
  unfold ledger_of, acquisitions, cleanup;
  cbn [fold_left ledger_step acquire_opt release_opt app];
  repeat match goal with
         | H : (_ <? 0) = _ |- _ => rewrite !H
         end;
  unfold acquire, ledger_empty;
  cbn [acquired released app];
  repeat first
    [ rewrite release_in by (repeat constructor)
    | rewrite release_out
        by (let H := fresh in
            intros H;
            repeat (apply elem_of_cons in H as [H|H]; [discriminate H|]);
            inversion H) ];
  cbn [acquired released app].

(** Run one branch of a parser to its end and read the result. *)
Ltac parser_leaf :=
  unfold join, fatal, argp_usage, bind, ask, emit, ret;
  cbv beta iota zeta; cbn [fst snd];
  repeat (match goal with
          | |- context [match ?x with _ => _ end] =>
              lazymatch x with
              | fst _ => fail
              | _ => destruct x eqn:?
              end
          end; cbv beta iota zeta; cbn [fst snd]);
  try (eexists;
       (split; [first [reflexivity | symmetry; apply app_nil_r]|]);
       (split; [repeat constructor|]);
       try reflexivity;
       unfold reqs_bounded;
       cbn [reqs nreqs command_ set_pid set_rootfs set_devices set_init_flags
            set_driver_flags set_device_flags set_container_flags set_reqs];
       repeat split; try assumption; try lia).

(** Run one branch of a parser to its end: a return without events, or an
    exit after one event. *)
Ltac parser_outcome :=
  unfold join, fatal, argp_usage, bind, ask, emit, ret;
  cbv beta iota zeta; cbn [fst snd];
  repeat (match goal with
          | |- context [match ?x with _ => _ end] =>
              lazymatch x with
              | fst _ => fail
              | _ => destruct x eqn:?
              end
          end; cbv beta iota zeta; cbn [fst snd]);
  first
    [ exists (@nil event);
      (split; [symmetry; apply app_nil_r|]);
      (split; [reflexivity|]);
      unfold reqs_bounded;
      cbn [reqs nreqs command_ set_pid set_rootfs set_devices set_init_flags
           set_driver_flags set_device_flags set_container_flags set_reqs];
      rewrite ?app_nil_r; repeat split; try assumption; try lia
    | eexists [_];
      (split; [reflexivity|]); (split; [reflexivity|]);
      eexists; split; reflexivity ].

(** * Proofs *)

(** ** The C library *)

Section libc_facts.
Import libc token.

(** [fields] lists what successive calls of [strsep] return. *)
Lemma fields_strsep (s delim : string) :
  fields s delim =
    let '(tok, s') := strsep s delim in
    tok :: fields_opt s' delim.
Proof.
  induction s as [|c r IH]; simpl; [reflexivity|].
  destruct (is_delim delim c); [reflexivity|].
  rewrite IH. destruct (strsep r delim) as [tok s']. reflexivity.
Qed.

Lemma char_code_inj (a b : ascii) : char_code a = char_code b -> a = b.
Proof.
  unfold char_code. intros H. apply N2Z.inj in H.
  rewrite <- (ascii_N_embedding a), <- (ascii_N_embedding b). now rewrite H.
Qed.

Lemma char_code_diff (a b : ascii) :
  (char_code a - char_code b =? 0) = Ascii.eqb a b.
Proof.
  destruct (Ascii.eqb_spec a b) as [->|Hne].
  - rewrite Z.sub_diag. reflexivity.
  - apply Z.eqb_neq. intros H. apply Hne, char_code_inj. lia.
Qed.

Lemma char_code_zero (a : ascii) : (char_code a =? 0) = Ascii.eqb a zero.
Proof.
  rewrite <- (char_code_diff a zero).
  change (char_code zero) with 0. now rewrite Z.sub_0_r.
Qed.

Lemma tolower_zero (c : ascii) : Ascii.eqb (tolower c) zero = Ascii.eqb c zero.
Proof. destruct c as [[] [] [] [] [] [] [] []]; reflexivity. Qed.

(** [strcasecmp] answers 0 exactly on strings equal up to case. *)
Lemma strcasecmp_lower (a b : string) :
  no_nul a = true -> no_nul b = true ->
  (strcasecmp a b =? 0) = String.eqb (lower a) (lower b).
Proof.
  revert b. induction a as [|c1 r1 IH]; intros [|c2 r2] Ha Hb; simpl in *.
  - reflexivity.
  - apply andb_true_iff in Hb as [Hc _].
    replace (0 - char_code (tolower c2) =? 0) with (char_code (tolower c2) =? 0)
      by (destruct (Z.eqb_spec (char_code (tolower c2)) 0),
                   (Z.eqb_spec (0 - char_code (tolower c2)) 0); lia).
    rewrite char_code_zero, tolower_zero.
    now destruct (Ascii.eqb c2 zero).
  - apply andb_true_iff in Ha as [Hc _].
    rewrite char_code_zero, tolower_zero.
    now destruct (Ascii.eqb c1 zero).
  - apply andb_true_iff in Ha as [_ Ha]. apply andb_true_iff in Hb as [_ Hb].
    rewrite <- char_code_diff.
    destruct (char_code (tolower c1) - char_code (tolower c2) =? 0) eqn:E.
    + now apply IH.
    + exact E.
Qed.

(** [strncasecmp s tok (strlen tok)] answers 0 exactly when [s] starts
    with [tok] up to case. *)
Lemma strncasecmp_prefix (s tok : string) :
  no_nul tok = true ->
  (strncasecmp s tok (strlen tok) =? 0) = String.prefix (lower tok) (lower s).
Proof.
  revert s. induction tok as [|c2 r2 IH]; intros s Hn.
  - destruct s; reflexivity.
  - simpl in Hn. apply andb_true_iff in Hn as [Hc Hn].
    destruct s as [|c1 r1]; simpl.
    + replace (0 - char_code (tolower c2) =? 0) with (char_code (tolower c2) =? 0)
        by (destruct (Z.eqb_spec (char_code (tolower c2)) 0),
                     (Z.eqb_spec (0 - char_code (tolower c2)) 0); lia).
      rewrite char_code_zero, tolower_zero.
      now destruct (Ascii.eqb c2 zero).
    + destruct (ascii_dec (tolower c2) (tolower c1)) as [e|ne].
      * rewrite e, Z.sub_diag. simpl. now apply IH.
      * destruct (char_code (tolower c1) - char_code (tolower c2) =? 0) eqn:E;
          [|exact E].
        rewrite char_code_diff in E. apply Ascii.eqb_eq in E. congruence.
Qed.

End libc_facts.

Section strtol_facts.
Import libc token.

Lemma scan_digits_all (s : string) (acc : Z) :
  all_digits s = true -> snd (scan_digits s acc) = EmptyString.
Proof.
  revert acc. induction s as [|c r IH]; intros acc H; simpl in *; [reflexivity|].
  apply andb_true_iff in H as [Hc Hr]. rewrite Hc. now apply IH.
Qed.

Lemma scan_digits_stops (s : string) (acc : Z) :
  all_digits s = false -> snd (scan_digits s acc) <> EmptyString.
Proof.
  revert acc. induction s as [|c r IH]; intros acc H; simpl in *; [discriminate|].
  destruct (isdigit c); simpl in *; [now apply IH | discriminate].
Qed.

Lemma scan_digits_fst_all (ds : string) (acc : Z) :
  all_digits ds = true ->
  scan_digits ds acc = (fst (scan_digits ds acc), EmptyString).
Proof.
  intros H. rewrite (surjective_pairing (scan_digits ds acc)) at 1.
  now rewrite scan_digits_all.
Qed.

Lemma digit_code (c : ascii) : isdigit c = true -> 0 <= char_code c - 48 <= 9.
Proof.
  unfold isdigit, char_code. intros H. apply andb_true_iff in H as [H1 H2].
  apply N.leb_le in H1, H2. lia.
Qed.

Lemma scan_digits_nonneg (s : string) (acc : Z) :
  0 <= acc -> 0 <= fst (scan_digits s acc).
Proof.
  revert acc. induction s as [|c r IH]; intros acc H; simpl; [exact H|].
  destruct (isdigit c) eqn:E; [|exact H].
  apply IH. pose proof (digit_code c E). lia.
Qed.

Lemma decimal_nonneg (ds : string) : 0 <= decimal ds.
Proof. apply scan_digits_nonneg. lia. Qed.

(** [strtol] against the integer the token writes: the whole token is
    consumed exactly when it writes one, and the value is that integer,
    clamped to a [long]. *)
Lemma strtol_int_literal (tok : string) :
  tok <> EmptyString ->
  match int_literal tok with
  | Some v => strtol tok = (clamp_long v, EmptyString)
  | None => snd (strtol tok) <> EmptyString
  end.
Proof.
  intros Hne. unfold int_literal, strtol.
  destruct (read_sign (skip_space tok)) as [neg ds].
  destruct (starts_with_digit ds); simpl; [|exact Hne].
  destruct (all_digits ds) eqn:Hall.
  - rewrite (scan_digits_fst_all ds 0 Hall). reflexivity.
  - destruct (scan_digits ds 0) as [v e] eqn:E. simpl.
    pose proof (scan_digits_stops ds 0 Hall) as H. now rewrite E in H.
Qed.

Lemma clamp_long_id (v : Z) : LONG_MIN <= v <= LONG_MAX -> clamp_long v = v.
Proof.
  intros [H1 H2]. unfold clamp_long.
  destruct (Z.gtb_spec v LONG_MAX); [lia|].
  destruct (Z.ltb_spec v LONG_MIN); [lia|reflexivity].
Qed.

(** Clamping does not change whether a value is an index below [n]. *)
Lemma clamp_long_index (v n : Z) :
  n <= LONG_MAX ->
  ((clamp_long v >=? 0) && (clamp_long v <? n)) = ((0 <=? v) && (v <? n)).
Proof.
  intros Hn. unfold clamp_long, LONG_MAX, LONG_MIN in *.
  destruct (Z.gtb_spec v 9223372036854775807);
    [|destruct (Z.ltb_spec v (-9223372036854775808))];
    repeat match goal with
           | |- context [?a >=? ?b] => rewrite (Z.geb_leb a b)
           | |- context [?a <=? ?b] => destruct (Z.leb_spec a b)
           | |- context [?a <? ?b] => destruct (Z.ltb_spec a b)
           end; simpl; try reflexivity; lia.
Qed.

End strtol_facts.

(** ** The device selector *)

Section selector_facts.
Import libc token selector.

Lemma lower_no_nul (s : string) : no_nul (lower s) = no_nul s.
Proof.
  induction s as [|c r IH]; simpl; [reflexivity|].
  now rewrite tolower_zero, IH.
Qed.

Lemma is_all_no_nul (tok : string) : is_all tok -> no_nul tok = true.
Proof. unfold is_all. intros H. rewrite <- lower_no_nul, H. reflexivity. Qed.

Lemma strcasecmp_all (tok : string) :
  no_nul tok = true ->
  (strcasecmp tok "all" =? 0) = bool_decide (is_all tok).
Proof.
  intros Hn. rewrite strcasecmp_lower by (exact Hn || reflexivity).
  unfold is_all. change (lower "all") with "all".
  destruct (String.eqb_spec (lower tok) "all") as [e|ne].
  - now rewrite bool_decide_eq_true_2.
  - now rewrite bool_decide_eq_false_2.
Qed.

Lemma strncasecmp_gpu (tok : string) :
  (strncasecmp tok "GPU-" (strlen "GPU-") =? 0) = bool_decide (is_uuid_prefix tok).
Proof.
  rewrite strncasecmp_prefix by reflexivity.
  unfold is_uuid_prefix. change (lower "GPU-") with "gpu-".
  destruct (String.prefix "gpu-" (lower tok)) eqn:E.
  - now rewrite bool_decide_eq_true_2.
  - rewrite bool_decide_eq_false_2; [reflexivity|discriminate].
Qed.

Lemma uuid_prefix_not_all (tok : string) : is_uuid_prefix tok -> ~ is_all tok.
Proof.
  unfold is_uuid_prefix, is_all. intros H e. rewrite e in H. discriminate H.
Qed.

(** The loop of the UUID branch finds what [list_find] finds: the first
    device, in discovery order, whose UUID starts with the token. *)
Lemma find_uuid_list_find (tok : string) (available : list nvc_device) (i : nat) :
  no_nul tok = true ->
  find_uuid tok available i =
    (fun p => (i + fst p)%nat) <$> list_find (uuid_starts_with tok) available.
Proof.
  intros Hn. revert i. induction available as [|d rest IH]; intros i.
  - reflexivity.
  - cbn [find_uuid]. rewrite strncasecmp_prefix by exact Hn.
    change (list_find (uuid_starts_with tok) (d :: rest)) with
      (if decide (uuid_starts_with tok d) then Some (0%nat, d)
       else prod_map S id <$> list_find (uuid_starts_with tok) rest).
    destruct (decide (uuid_starts_with tok d)) as [H|H].
    + unfold uuid_starts_with in H. rewrite H. simpl. f_equal. lia.
    + unfold uuid_starts_with in H. apply not_true_is_false in H.
      rewrite H, IH.
      destruct (list_find (uuid_starts_with tok) rest) as [[j x]|]; simpl;
        [f_equal; lia | reflexivity].
Qed.

Lemma select_token_all (tok : string) (sel : selection)
    (available : list nvc_device) :
  is_all tok ->
  select_token tok sel available = go_break (select_all (length available) sel).
Proof.
  intros Hall. pose proof (is_all_no_nul tok Hall) as Hn.
  unfold select_token. destruct tok as [|c r]; [discriminate Hall|].
  rewrite strcasecmp_all by exact Hn.
  now rewrite bool_decide_eq_true_2.
Qed.

Lemma select_token_uuid (tok : string) (sel : selection)
    (available : list nvc_device) :
  no_nul tok = true -> is_uuid_prefix tok ->
  select_token tok sel available =
    match list_find (uuid_starts_with tok) available with
    | Some (i, _) => go_next (<[i := Some i]> sel)
    | None => go_return (-1) (error_setx ("unknown device id: " +:+ tok))
    end.
Proof.
  intros Hn Hp. unfold select_token. destruct tok as [|c r]; [discriminate Hp|].
  rewrite strcasecmp_all by exact Hn.
  rewrite bool_decide_eq_false_2 by now apply uuid_prefix_not_all.
  rewrite strncasecmp_gpu, bool_decide_eq_true_2 by exact Hp.
  rewrite find_uuid_list_find by exact Hn.
  destruct (list_find (uuid_starts_with (String c r)) available) as [[i x]|];
    reflexivity.
Qed.

Lemma select_token_index (tok : string) (sel : selection)
    (available : list nvc_device) :
  no_nul tok = true -> tok <> EmptyString ->
  ~ is_all tok -> ~ is_uuid_prefix tok ->
  Z.of_nat (length available) <= LONG_MAX ->
  select_token tok sel available =
    match index_of (length available) tok with
    | Some n => go_next (<[n := Some n]> sel)
    | None => go_return (-1) (error_setx ("unknown device id: " +:+ tok))
    end.
Proof.
  intros Hn Hne Hall Hp Hmax. unfold select_token, index_of.
  pose proof (strtol_int_literal tok Hne) as Hs.
  destruct tok as [|c r]; [congruence|].
  rewrite strcasecmp_all by exact Hn.
  rewrite bool_decide_eq_false_2 by exact Hall.
  rewrite strncasecmp_gpu, bool_decide_eq_false_2 by exact Hp.
  destruct (int_literal (String c r)) as [v|].
  - rewrite Hs. cbn [String.eqb andb].
    rewrite clamp_long_index by exact Hmax.
    destruct ((0 <=? v) && (v <? Z.of_nat (length available))) eqn:E;
      [|reflexivity].
    apply andb_true_iff in E as [E1 E2].
    apply Z.leb_le in E1. apply Z.ltb_lt in E2.
    rewrite clamp_long_id; [reflexivity|]. unfold LONG_MIN, LONG_MAX in *. lia.
  - destruct (strtol (String c r)) as [n ptr]. simpl in Hs.
    destruct ptr; [congruence|]. reflexivity.
Qed.

End selector_facts.

Section selection_facts.
Import libc token selector.

Lemma mark_loop_lookup (n a : nat) (sel : selection) (i : nat) :
  fold_left (fun s j => <[j := Some j]> s) (seq a n) sel !! i =
    if decide ((a <= i < a + n)%nat /\ (i < length sel)%nat)
    then Some (Some i) else sel !! i.
Proof.
  revert a sel. induction n as [|n IH]; intros a sel; cbn [seq fold_left].
  - case_decide; [lia|reflexivity].
  - rewrite IH, length_insert.
    destruct (decide (i = a)) as [->|Hne].
    + case_decide; [lia|].
      case_decide.
      * apply list_lookup_insert_eq. lia.
      * rewrite list_insert_ge by lia. reflexivity.
    + rewrite list_lookup_insert_ne by congruence.
      repeat case_decide; try reflexivity; lia.
Qed.

(** On a buffer of [size] entries the loop of "all" marks every device. *)
Lemma select_all_everything (size : nat) (sel : selection) :
  length sel = size -> select_all size sel = everything size.
Proof.
  intros Hlen. apply list_eq. intros i. unfold select_all, everything.
  rewrite mark_loop_lookup, list_lookup_fmap.
  destruct (decide (i < size)%nat) as [Hlt|Hge].
  - rewrite lookup_seq_lt by exact Hlt. case_decide; [reflexivity|lia].
  - rewrite lookup_seq_ge by lia. case_decide; [lia|].
    apply lookup_ge_None. lia.
Qed.

Lemma find_uuid_bound (tok : string) (available : list nvc_device) (k i : nat) :
  find_uuid tok available k = Some i -> (k <= i < k + length available)%nat.
Proof.
  revert k. induction available as [|d rest IH]; intros k; simpl; [discriminate|].
  destruct (strncasecmp (uuid d) tok (strlen tok) =? 0).
  - intros [= <-]. lia.
  - intros H. apply IH in H. lia.
Qed.

Lemma marks_only_refl (size : nat) (sel : selection) : marks_only size sel sel.
Proof. split; [reflexivity|]. intros i. now left. Qed.

Lemma marks_only_trans (size : nat) (a b c : selection) :
  marks_only size a b -> marks_only size b c -> marks_only size a c.
Proof.
  intros [L1 H1] [L2 H2]. split; [congruence|]. intros i.
  destruct (H2 i) as [e2|m2]; [|now right].
  rewrite e2. apply H1.
Qed.

Lemma marks_only_insert (size i : nat) (sel : selection) :
  (i < size)%nat -> marks_only size sel (<[i := Some i]> sel).
Proof.
  intros Hi. split; [apply length_insert|]. intros j.
  destruct (decide (j = i)) as [->|Hne].
  - destruct (decide (i < length sel)%nat).
    + right. split; [now apply list_lookup_insert_eq | exact Hi].
    + left. rewrite list_insert_ge by lia. reflexivity.
  - left. apply list_lookup_insert_ne. congruence.
Qed.

Lemma marks_only_all (size : nat) (sel : selection) :
  marks_only size sel (select_all size sel).
Proof.
  unfold select_all. split.
  - generalize 0%nat. revert sel.
    induction size as [|n IH]; intros sel a; cbn [seq fold_left]; [reflexivity|].
    rewrite IH. apply length_insert.
  - intros i. rewrite mark_loop_lookup.
    case_decide; [right; split; [reflexivity|lia] | now left].
Qed.

(** One turn of the loop only adds marks, each within bounds and
    pointing to the device of its own ordinal. *)
Lemma select_token_marks (tok : string) (sel : selection)
    (available : list nvc_device) :
  match select_token tok sel available with
  | go_next sel' | go_break sel' => marks_only (length available) sel sel'
  | go_return _ _ => True
  end.
Proof.
  unfold select_token. destruct tok as [|c r]; [apply marks_only_refl|].
  destruct (strcasecmp (String c r) "all" =? 0); [apply marks_only_all|].
  destruct (strncasecmp (String c r) "GPU-" (strlen "GPU-") =? 0).
  - destruct (find_uuid (String c r) available 0) as [i|] eqn:E; [|exact I].
    apply find_uuid_bound in E. apply marks_only_insert. lia.
  - destruct (strtol (String c r)) as [n ptr].
    destruct (String.eqb ptr EmptyString && (n >=? 0) && (n <? Z.of_nat (length available)))
      eqn:E; [|exact I].
    apply andb_true_iff in E as [E E3]. apply andb_true_iff in E as [_ E2].
    apply Z.ltb_lt in E3. rewrite Z.geb_leb in E2. apply Z.leb_le in E2.
    apply marks_only_insert. lia.
Qed.

Lemma select_tokens_marks (toks : list string) (err : struct_error)
    (sel : selection) (available : list nvc_device) :
  marks_only (length available) sel (select_tokens toks err sel available).1.2.
Proof.
  revert sel. induction toks as [|tok rest IH]; intros sel; simpl.
  - apply marks_only_refl.
  - pose proof (select_token_marks tok sel available) as H.
    destruct (select_token tok sel available) as [sel'|sel'|rv e]; simpl.
    + eapply marks_only_trans; [exact H | apply IH].
    + exact H.
    + apply marks_only_refl.
Qed.

Lemma reaches_app (pre post : list string) (err : struct_error)
    (sel sel' : selection) (available : list nvc_device) :
  reaches pre sel available = Some sel' ->
  select_tokens (pre ++ post) err sel available =
    select_tokens post err sel' available.
Proof.
  revert sel. induction pre as [|tok pre IH]; intros sel; simpl.
  - now intros [= ->].
  - destruct (select_token tok sel available) as [s|s|rv e]; try discriminate.
    apply IH.
Qed.

Lemma reaches_length (pre : list string) (sel sel' : selection)
    (available : list nvc_device) :
  reaches pre sel available = Some sel' -> length sel' = length sel.
Proof.
  revert sel. induction pre as [|tok pre IH]; intros sel; simpl.
  - now intros [= ->].
  - pose proof (select_token_marks tok sel available) as H.
    destruct (select_token tok sel available) as [s|s|rv e]; try discriminate.
    intros Hr. apply IH in Hr. destruct H as [H _]. congruence.
Qed.

(** From the all-NULL buffer, a marked entry points to its own device. *)
Lemma select_from_nulls (err : struct_error) (devs : option string)
    (available : list nvc_device) (i p : nat) :
  (select_gpu_devices err devs (replicate (length available) None)
     available).1.2 !! i = Some (Some p) ->
  p = i /\ (i < length available)%nat.
Proof.
  unfold select_gpu_devices.
  destruct (select_tokens_marks (fields_opt devs ",") err
              (replicate (length available) None) available) as [_ Hm].
  intros Hi. destruct (Hm i) as [He|[He Hlt]]; rewrite Hi in He.
  - symmetry in He. apply lookup_replicate in He as [He _]. discriminate.
  - injection He as ->. now split.
Qed.

End selection_facts.

Section selector_claims.
Import libc token selector.

(** C7. Whatever the specification string and however the call ends, the
    selection the call leaves differs from the buffer it was given only by
    marks, and a marked entry points to the device of its own ordinal,
    which is below the device count. From the all-NULL buffer of
    [configure_command]: every marked entry [i] holds the pointer to
    device [i] of the discovered list, [i] is below the count, and every
    other entry is still NULL. *)
Theorem selection_within_bounds (err : struct_error) (devs : option string)
    (sel0 : selection) (available : list nvc_device) :
  let size := length available in
  marks_only size sel0 (select_gpu_devices err devs sel0 available).1.2 /\
  let selected :=
    (select_gpu_devices err devs (replicate size None) available).1.2 in
  length selected = size /\
  (forall i p : nat,
      selected !! i = Some (Some p) ->
      p = i /\ (i < size)%nat /\ is_Some (available !! p)) /\
  (forall i : nat,
      (i < size)%nat ->
      selected !! i = Some None \/ selected !! i = Some (Some i)).
Proof.
  intros size. split; [apply select_tokens_marks|].
  cbv zeta. unfold select_gpu_devices.
  pose proof (select_tokens_marks (fields_opt devs ",") err
                (replicate size None) available) as [Hlen Hm].
  fold size in Hm.
  set (selected := (select_tokens _ _ _ _).1.2) in *.
  rewrite length_replicate in Hlen.
  split; [exact Hlen|]. split.
  - intros i p Hi. destruct (Hm i) as [He|[He Hlt]].
    + rewrite Hi in He. symmetry in He.
      apply lookup_replicate in He as [He _]. discriminate.
    + rewrite Hi in He. injection He as ->.
      split; [reflexivity|]. split; [exact Hlt|].
      apply lookup_lt_is_Some. exact Hlt.
  - intros i Hi. destruct (Hm i) as [He|[He _]]; [|now right].
    left. rewrite He. now apply lookup_replicate_2.
Qed.

Lemma selection_within_bounds_witness :
  1%nat = 1%nat /\ (1 < 3)%nat /\ is_Some (example.devices3 !! 1%nat).
Proof.
  exact (proj1 (proj2 (proj2 (selection_within_bounds None (Some "GPU-1234,1")
                                [] example.devices3)))
           1%nat 1%nat eq_refl).
Defined.

(** C3. When the loop reaches a token that is "all" in any case, the call
    returns 0 with all the devices selected, whatever tokens follow:
    they are not read, add nothing and cannot fail. *)
Theorem all_selects_everything_and_stops (err : struct_error)
    (devs : option string) (pre : list string) (tok : string)
    (rest : list string) (sel sel' : selection)
    (available : list nvc_device)
    (Htoks : fields_opt devs "," = pre ++ tok :: rest)
    (Hreach : reaches pre sel available = Some sel')
    (Hall : is_all tok)
    (Hlen : length sel = length available) :
  select_gpu_devices err devs sel available =
    (0, everything (length available), err).
Proof.
  unfold select_gpu_devices. rewrite Htoks.
  rewrite (reaches_app pre (tok :: rest) err sel sel' available Hreach).
  cbn [select_tokens]. rewrite (select_token_all tok sel' available Hall).
  rewrite select_all_everything; [reflexivity|].
  rewrite (reaches_length pre sel sel' available Hreach). exact Hlen.
Qed.

Lemma all_selects_everything_and_stops_witness :
  select_gpu_devices None (Some "1,ALL,zz,99") (replicate 3 None)
    example.devices3 = (0, [Some 0%nat; Some 1%nat; Some 2%nat], None).
Proof.
  apply (all_selects_everything_and_stops None (Some "1,ALL,zz,99")
           ["1"] "ALL" ["zz"; "99"] (replicate 3 None)
           [None; Some 1%nat; None] example.devices3);
    reflexivity.
Defined.

(** C4. When the loop reaches a token that starts with "GPU-" in any
    case, it marks the first device of the discovered list whose UUID
    starts with the whole token, case ignored, and goes on with the next
    token; when no device's UUID does, the call returns -1 with the message
    "unknown device id: " followed by the token. *)
Theorem uuid_token_marks_first_match (err : struct_error)
    (devs : option string) (pre : list string) (tok : string)
    (rest : list string) (sel sel' : selection)
    (available : list nvc_device)
    (Htoks : fields_opt devs "," = pre ++ tok :: rest)
    (Hreach : reaches pre sel available = Some sel')
    (Hnul : no_nul tok = true)
    (Hgpu : is_uuid_prefix tok) :
  select_gpu_devices err devs sel available =
    match list_find (uuid_starts_with tok) available with
    | Some (i, _) => select_tokens rest err (<[i := Some i]> sel') available
    | None => (-1, sel', error_setx ("unknown device id: " +:+ tok))
    end /\
  (forall (i : nat) (d : nvc_device),
      list_find (uuid_starts_with tok) available = Some (i, d) ->
      available !! i = Some d /\ uuid_starts_with tok d /\
      forall (j : nat) (d' : nvc_device),
        available !! j = Some d' -> (j < i)%nat -> ~ uuid_starts_with tok d') /\
  (list_find (uuid_starts_with tok) available = None ->
   forall d : nvc_device, d ∈ available -> ~ uuid_starts_with tok d).
Proof.
  split; [|split].
  - unfold select_gpu_devices. rewrite Htoks.
    rewrite (reaches_app pre (tok :: rest) err sel sel' available Hreach).
    cbn [select_tokens].
    rewrite (select_token_uuid tok sel' available Hnul Hgpu).
    destruct (list_find (uuid_starts_with tok) available) as [[i d]|];
      reflexivity.
  - intros i d H. now apply list_find_Some in H.
  - intros H d Hd. apply list_find_None in H.
    rewrite Forall_forall in H. now apply H.
Qed.

Lemma uuid_token_marks_first_match_witness :
  select_gpu_devices None (Some "GPU-1234,1") (replicate 3 None)
    example.devices3 = (0, [Some 0%nat; Some 1%nat; None], None) /\
  select_gpu_devices None (Some "0,gpu-ffff") (replicate 3 None)
    example.devices3 =
    (-1, [Some 0%nat; None; None], Some "unknown device id: gpu-ffff").
Proof.
  split.
  - apply (uuid_token_marks_first_match None (Some "GPU-1234,1")
             [] "GPU-1234" ["1"] (replicate 3 None) (replicate 3 None)
             example.devices3); reflexivity.
  - apply (uuid_token_marks_first_match None (Some "0,gpu-ffff")
             ["0"] "gpu-ffff" [] (replicate 3 None) [Some 0%nat; None; None]
             example.devices3); reflexivity.
Defined.

(** C2, as the code has it. When the loop reaches a token that is neither
    "all" nor starts with "GPU-": an empty token is skipped; a token that
    as a whole writes a base-10 integer from 0 to the device count less
    one marks exactly that ordinal; any other token makes the call return
    -1 with the message "unknown device id: " followed by the token. The
    failing token marks nothing, and the marks of the tokens before it
    stay in the selection the call leaves. *)
Theorem index_token_marks_or_fails (err : struct_error)
    (devs : option string) (pre : list string) (tok : string)
    (rest : list string) (sel sel' : selection)
    (available : list nvc_device)
    (Htoks : fields_opt devs "," = pre ++ tok :: rest)
    (Hreach : reaches pre sel available = Some sel')
    (Hnul : no_nul tok = true)
    (Hall : ~ is_all tok)
    (Hgpu : ~ is_uuid_prefix tok)
    (Hmax : Z.of_nat (length available) <= LONG_MAX) :
  select_gpu_devices err devs sel available =
    if decide (tok = EmptyString) then select_tokens rest err sel' available
    else
      match index_of (length available) tok with
      | Some n => select_tokens rest err (<[n := Some n]> sel') available
      | None => (-1, sel', error_setx ("unknown device id: " +:+ tok))
      end.
Proof.
  unfold select_gpu_devices. rewrite Htoks.
  rewrite (reaches_app pre (tok :: rest) err sel sel' available Hreach).
  cbn [select_tokens]. case_decide as Hempty.
  - subst tok. reflexivity.
  - rewrite (select_token_index tok sel' available Hnul Hempty Hall Hgpu Hmax).
    destruct (index_of (length available) tok); reflexivity.
Qed.

Lemma index_token_marks_or_fails_witness :
  select_gpu_devices None (Some "2,,0,5,1") (replicate 3 None)
    example.devices3 =
    (-1, [Some 0%nat; None; Some 2%nat], Some "unknown device id: 5").
Proof.
  apply (index_token_marks_or_fails None (Some "2,,0,5,1")
           ["2"; ""; "0"] "5" ["1"] (replicate 3 None)
           [Some 0%nat; None; Some 2%nat] example.devices3);
    try reflexivity.
  - intros H. vm_compute in H. discriminate H.
  - intros H. vm_compute in H. discriminate H.
  - vm_compute. discriminate.
Defined.

(** C2 as stated fails: on "0,5" with three devices the call fails on
    "5" and leaves device 0 marked in the selection. *)
Lemma failing_call_leaves_earlier_marks :
  select_gpu_devices None (Some "0,5") (replicate 3 None) example.devices3 =
    (-1, [Some 0%nat; None; None], Some "unknown device id: 5") /\
  marked [Some 0%nat; None; None] = [0%nat].
Proof. split; reflexivity. Qed.

Lemma string_app_assoc (a b c : string) : (a +:+ b) +:+ c = a +:+ b +:+ c.
Proof.
  induction a as [|x a IH]; [reflexivity|].
  change (String x ((a +:+ b) +:+ c) = String x (a +:+ b +:+ c)).
  now rewrite IH.
Qed.

Lemma string_app_nil_r (a : string) : a +:+ EmptyString = a.
Proof.
  induction a as [|x a IH]; [reflexivity|].
  change (String x (a +:+ EmptyString) = String x a). now rewrite IH.
Qed.

Lemma index_start_tests (c : ascii) (r : string) :
  index_start c = true ->
  (strcasecmp (String c r) "all" =? 0) = false /\
  (strncasecmp (String c r) "GPU-" (strlen "GPU-") =? 0) = false.
Proof.
  destruct c as [[] [] [] [] [] [] [] []]; intros H;
    try discriminate H; split; reflexivity.
Qed.

Lemma read_sign_digit (d : ascii) (r : string) :
  isdigit d = true ->
  read_sign (String d r) = (false, String d r) /\ isspace d = false.
Proof.
  destruct d as [[] [] [] [] [] [] [] []]; intros H;
    try discriminate H; split; reflexivity.
Qed.

Lemma skip_space_app (ws s : string) :
  all_space ws = true -> skip_space (ws +:+ s) = skip_space s.
Proof.
  induction ws as [|c ws IH]; simpl; [reflexivity|]. intros H.
  apply andb_true_iff in H as [Hc Hws]. rewrite Hc. now apply IH.
Qed.

Lemma scan_digits_then (ds rest : string) (acc : Z) :
  all_digits ds = true -> starts_with_digit rest = false ->
  scan_digits (ds +:+ rest) acc = (fst (scan_digits ds acc), rest).
Proof.
  revert acc. induction ds as [|d ds IH]; intros acc Hd Hr; simpl in *.
  - destruct rest as [|c junk]; simpl in *; [reflexivity|]. now rewrite Hr.
  - apply andb_true_iff in Hd as [Hd Hds]. rewrite Hd. now apply IH.
Qed.

(** [strtol] on white space, an optional plus sign and digits, followed by
    nothing or by a character that is no digit. *)
Lemma strtol_plain_literal (ws : string) (plus : bool) (ds rest : string) :
  all_space ws = true -> all_digits ds = true -> ds <> EmptyString ->
  starts_with_digit rest = false ->
  strtol (ws +:+ (if plus then "+" else EmptyString) +:+ ds +:+ rest) =
    (clamp_long (decimal ds), rest).
Proof.
  intros Hws Hds Hne Hrest. unfold strtol, decimal.
  rewrite skip_space_app by exact Hws.
  destruct ds as [|d ds]; [congruence|].
  pose proof Hds as Hd. simpl in Hd. apply andb_true_iff in Hd as [Hd _].
  destruct (read_sign_digit d (ds +:+ rest) Hd) as [Hsign Hsp].
  destruct plus.
  - change ("+" +:+ String d ds +:+ rest)
      with (String "+" (String d ds +:+ rest)).
    change (skip_space (String "+" (String d ds +:+ rest)))
      with (String "+" (String d ds +:+ rest)).
    cbn [read_sign]. change (starts_with_digit (String d ds +:+ rest))
      with (isdigit d). rewrite Hd.
    now rewrite (scan_digits_then (String d ds) rest 0 Hds Hrest).
  - change (EmptyString +:+ String d ds +:+ rest)
      with (String d (ds +:+ rest)).
    cbn [skip_space]. rewrite Hsp, Hsign.
    cbn [starts_with_digit]. rewrite Hd.
    change (String d (ds +:+ rest)) with (String d ds +:+ rest).
    now rewrite (scan_digits_then (String d ds) rest 0 Hds Hrest).
Qed.

Lemma literal_first_char (ws : string) (plus : bool) (ds rest : string) :
  all_space ws = true -> all_digits ds = true -> ds <> EmptyString ->
  exists (c : ascii) (r : string),
    ws +:+ (if plus then "+" else EmptyString) +:+ ds +:+ rest = String c r /\
    index_start c = true.
Proof.
  intros Hws Hds Hne. unfold index_start.
  destruct ws as [|w ws]; simpl in *.
  - destruct plus; simpl.
    + eexists _, _. split; reflexivity.
    + destruct ds as [|d ds]; [congruence|]. simpl in *.
      apply andb_true_iff in Hds as [Hd _].
      eexists _, _. split; [reflexivity|]. rewrite Hd.
      now rewrite orb_true_r.
  - apply andb_true_iff in Hws as [Hw _].
    eexists _, _. split; [reflexivity|]. now rewrite Hw.
Qed.

Lemma select_token_by_strtol (c : ascii) (r : string) (sel : selection)
    (available : list nvc_device) :
  index_start c = true ->
  select_token (String c r) sel available =
    let '(n, ptr) := strtol (String c r) in
    if String.eqb ptr EmptyString && (n >=? 0) &&
       (n <? Z.of_nat (length available))
    then go_next (<[Z.to_nat n := Some (Z.to_nat n)]> sel)
    else go_return (-1) (error_setx ("unknown device id: " +:+ String c r)).
Proof.
  intros H. destruct (index_start_tests c r H) as [H1 H2].
  unfold select_token. now rewrite H1, H2.
Qed.

(** C10. A token made of white space, an optional plus sign and decimal
    digits whose value is below the device count is accepted and marks
    that ordinal; the same token followed by a character that is no digit
    is rejected with the message naming it. *)
Theorem signed_or_spaced_index_accepted (ws : string) (plus : bool)
    (ds : string) (sel : selection) (available : list nvc_device)
    (Hws : all_space ws = true)
    (Hds : all_digits ds = true)
    (Hne : ds <> EmptyString)
    (Hlt : decimal ds < Z.of_nat (length available))
    (Hmax : Z.of_nat (length available) <= LONG_MAX) :
  let tok := ws +:+ (if plus then "+" else EmptyString) +:+ ds in
  let n := Z.to_nat (decimal ds) in
  select_token tok sel available = go_next (<[n := Some n]> sel) /\
  forall (c : ascii) (junk : string),
    isdigit c = false ->
    select_token (tok +:+ String c junk) sel available =
      go_return (-1)
        (error_setx ("unknown device id: " +:+ tok +:+ String c junk)).
Proof.
  intros tok n. pose proof (decimal_nonneg ds) as Hpos. split.
  - destruct (literal_first_char ws plus ds EmptyString Hws Hds Hne)
      as (c & r & Heq & Hc).
    pose proof (strtol_plain_literal ws plus ds EmptyString Hws Hds Hne eq_refl)
      as Hs.
    rewrite string_app_nil_r in Heq, Hs. fold tok in Heq, Hs.
    rewrite Heq in *. rewrite (select_token_by_strtol c r sel available Hc), Hs.
    cbn [String.eqb andb]. rewrite clamp_long_index by exact Hmax.
    rewrite clamp_long_id by (unfold LONG_MIN, LONG_MAX in *; lia).
    destruct (Z.leb_spec 0 (decimal ds)); [|lia].
    destruct (Z.ltb_spec (decimal ds) (Z.of_nat (length available))); [|lia].
    reflexivity.
  - intros c junk Hc.
    destruct (literal_first_char ws plus ds (String c junk) Hws Hds Hne)
      as (c0 & r & Heq & Hc0).
    pose proof (strtol_plain_literal ws plus ds (String c junk) Hws Hds Hne Hc)
      as Hs.
    assert (tok +:+ String c junk = String c0 r) as Htok.
    { rewrite <- Heq. unfold tok. now rewrite !string_app_assoc. }
    rewrite Htok, (select_token_by_strtol c0 r sel available Hc0).
    rewrite <- Htok at 1. unfold tok at 1. rewrite !string_app_assoc, Hs.
    reflexivity.
Qed.

Lemma signed_or_spaced_index_accepted_witness :
  (select_token " 1" (replicate 3 None) example.devices3 =
     go_next [None; Some 1%nat; None] /\
   select_token " 1x" (replicate 3 None) example.devices3 =
     go_return (-1) (Some "unknown device id:  1x")) /\
  (select_token "+2" (replicate 3 None) example.devices3 =
     go_next [None; None; Some 2%nat] /\
   select_token "+2 " (replicate 3 None) example.devices3 =
     go_return (-1) (Some "unknown device id: +2 ")).
Proof.
  split.
  - pose proof (signed_or_spaced_index_accepted " " false "1"
                  (replicate 3 None) example.devices3
                  eq_refl eq_refl ltac:(discriminate) eq_refl
                  ltac:(vm_compute; discriminate)) as [H1 H2].
    split; [exact H1 | exact (H2 "x"%char EmptyString eq_refl)].
  - pose proof (signed_or_spaced_index_accepted EmptyString true "2"
                  (replicate 3 None) example.devices3
                  eq_refl eq_refl ltac:(discriminate) eq_refl
                  ltac:(vm_compute; discriminate)) as [H1 H2].
    split; [exact H1 | exact (H2 " "%char EmptyString eq_refl)].
Defined.

End selector_claims.

(** ** The configure workflow *)

Section workflow_facts.
Variable lib : library.

Lemma fail_run (nvc : option nvc_context) (cnt : option nvc_container)
    (dev : option nvc_device_info) (drv : option nvc_driver_info)
    (cfg : option nvc_container_config) (rv : Z) (l : log) :
  fail nvc cnt dev drv cfg rv l = (rv, l ++ cleanup nvc cnt dev drv cfg).
Proof.
  unfold fail, bind, emit, ret, cleanup. cbn.
  now rewrite <- !app_assoc.
Qed.

Lemma check_requirements_trace (exprs : list (option string))
    (drv : nvc_driver_info) (err : struct_error) (l : log) :
  exists evs : list event,
    (check_requirements lib exprs drv err l).2 = l ++ evs /\
    match (check_requirements lib exprs drv err l).1 with
    | inl e => e = err /\ reqs_trace drv exprs evs true
    | inr _ => reqs_trace drv exprs evs false
    end.
Proof.
  revert l. induction exprs as [|expr rest IH]; intros l.
  - exists []. cbn. rewrite app_nil_r. repeat split. constructor.
  - cbn [check_requirements]. unfold bind, call, emit, ret.
    destruct (dsl_evaluate lib l expr drv (rules lib)) as [v e] eqn:E.
    cbn [fst snd].
    destruct (Z.ltb_spec v 0) as [Hneg|Hpos].
    + eexists [_; _]. cbn. rewrite <- app_assoc. split; [reflexivity|].
      now constructor.
    + destruct (IH (l ++ [ev_dsl_evaluate expr drv v])) as (evs & Hlog & Hres).
      exists (ev_dsl_evaluate expr drv v :: evs).
      rewrite Hlog, <- app_assoc. split; [reflexivity|].
      destruct (check_requirements lib rest drv err _).1 as [e'|e'].
      * destruct Hres as [-> Hres]. split; [reflexivity|]. now constructor.
      * now constructor.
Qed.

Lemma mount_devices_trace (nvc : nvc_context) (cnt : nvc_container)
    (selected : selection) (l : log) :
  exists evs : list event,
    (mount_devices lib nvc cnt selected l).2 = l ++ evs /\
    mount_trace nvc cnt selected evs (mount_devices lib nvc cnt selected l).1.
Proof.
  revert l. induction selected as [|[gpu|] rest IH]; intros l.
  - exists []. cbn. rewrite app_nil_r. split; [reflexivity|constructor].
  - cbn [mount_devices]. unfold bind, call, emit, ret, warnx_nvc_error, ask.
    destruct (Z.ltb_spec (nvc_device_mount lib l nvc cnt gpu) 0) as [Hneg|Hpos].
    + eexists [_; _]. cbn. rewrite <- app_assoc. split; [reflexivity|].
      now constructor.
    + destruct (IH (l ++ [ev_nvc_device_mount nvc cnt gpu
                            (nvc_device_mount lib l nvc cnt gpu)]))
        as (evs & Hlog & Hres).
      eexists (_ :: evs). rewrite Hlog, <- app_assoc.
      split; [reflexivity|]. now constructor.
  - cbn [mount_devices]. destruct (IH l) as (evs & Hlog & Hres).
    exists evs. split; [exact Hlog|]. now constructor.
Qed.

Lemma configure_mounts_trace (ctx : context) (nvc : nvc_context)
    (cfg : nvc_container_config) (cnt : nvc_container)
    (drv : nvc_driver_info) (dev : nvc_device_info) (l : log) :
  exists evs : list event,
    (configure_mounts lib ctx nvc cfg cnt drv dev l).2 =
      l ++ evs ++ cleanup (Some nvc) (Some cnt) (Some dev) (Some drv) (Some cfg) /\
    mounts_trace ctx nvc cnt drv dev evs
      (configure_mounts lib ctx nvc cfg cnt drv dev l).1.
Proof.
  unfold configure_mounts, warnx_nvc_error, bind.
  destruct (check_requirements_trace (firstn (nreqs ctx) (reqs ctx)) drv None l)
    as (evs & Hlog & Hres).
  destruct (check_requirements lib _ drv None l) as [[e|e] l1];
    cbn [fst snd] in Hlog, Hres; subst l1.
  2:{ exists evs. rewrite fail_run, <- app_assoc.
      split; [reflexivity|]. now constructor. }
  destruct Hres as [-> Hres].
  fold (selection_of ctx dev).
  destruct (selection_of ctx dev) as [[rv selected] err'] eqn:Hsel.
  destruct (Z.ltb_spec rv 0) as [Hrv|Hrv].
  { eexists (evs ++ [_]). unfold emit. rewrite fail_run, <- !app_assoc.
    split; [reflexivity|]. cbn [fst]. econstructor; eassumption. }
  unfold call, ask, emit, ret.
  generalize (nvc_driver_mount lib (l ++ evs) nvc cnt drv). intros v.
  destruct (Z.ltb_spec v 0) as [Hdm|Hdm].
  { match goal with
    | |- context [nvc_error lib ?h nvc] => generalize (nvc_error lib h nvc)
    end. intros m.
    eexists (evs ++ [_; _]). rewrite fail_run, <- !app_assoc.
    split; [reflexivity|]. cbn [fst]. econstructor; eassumption. }
  destruct (mount_devices_trace nvc cnt selected
              ((l ++ evs) ++ [ev_nvc_driver_mount nvc cnt drv v]))
    as (mevs & Hmlog & Hmres).
  destruct (mount_devices lib nvc cnt selected _) as [mounted l2];
    cbn [fst snd] in Hmlog, Hmres; subst l2.
  destruct mounted; cbn [negb].
  2:{ eexists (evs ++ _ :: mevs). rewrite fail_run.
      split; [app_norm; reflexivity|].
      cbn [fst]. eapply stop_device_mount; eassumption. }
  match goal with
  | |- context [nvc_ldcache_update lib ?h nvc cnt] =>
      generalize (nvc_ldcache_update lib h nvc cnt)
  end. intros w.
  destruct (Z.ltb_spec w 0) as [Hld|Hld].
  - match goal with
    | |- context [nvc_error lib ?h nvc] => generalize (nvc_error lib h nvc)
    end. intros m.
    eexists (evs ++ _ :: mevs ++ [_; _]). rewrite fail_run.
    split; [app_norm; reflexivity|]. cbn [fst].
    eapply stop_ldcache; eassumption.
  - eexists (evs ++ _ :: mevs ++ [_]). rewrite fail_run.
    split; [app_norm; reflexivity|]. cbn [fst].
    eapply stop_success; eassumption.
Qed.

(** Every run of [configure_command] has one of the shapes of
    [workflow_trace]. *)
Lemma configure_command_trace (ctx : context) :
  workflow_trace ctx (run (configure_command lib ctx)).2
    (run (configure_command lib ctx)).1.
Proof.
  unfold run, configure_command, warnx_nvc_error, bind, call, ask, emit, ret.
  cbn [app].
  destruct (nvc_context_new lib []) as [nvc|].
  2:{ destruct (nvc_container_config_new lib _ (pid ctx) (rootfs ctx));
        rewrite fail_run; cbn [fst snd];
        apply (wt_allocation ctx None); now left. }
  destruct (nvc_container_config_new lib _ (pid ctx) (rootfs ctx)) as [cfg|].
  2:{ rewrite fail_run. cbn [fst snd]. apply (wt_allocation ctx (Some nvc) None).
      now right. }
  match goal with
  | |- context [Z.ltb (nvc_init lib ?h nvc (init_flags ctx)) 0] =>
      destruct (Z.ltb_spec (nvc_init lib h nvc (init_flags ctx)) 0) as [Hi|Hi]
  end.
  { rewrite fail_run. cbn [fst snd app]. now apply wt_init. }
  match goal with
  | |- context [nvc_container_new lib ?h nvc cfg (container_flags ctx)] =>
      destruct (nvc_container_new lib h nvc cfg (container_flags ctx)) as [cnt|]
  end.
  2:{ rewrite fail_run. cbn [fst snd app]. now apply wt_container. }
  match goal with
  | |- context [nvc_driver_info_new lib ?h nvc (driver_flags ctx)] =>
      destruct (nvc_driver_info_new lib h nvc (driver_flags ctx)) as [drv|]
  end.
  2:{ rewrite fail_run. cbn [fst snd app]. now apply wt_driver. }
  match goal with
  | |- context [nvc_device_info_new lib ?h nvc (device_flags ctx)] =>
      destruct (nvc_device_info_new lib h nvc (device_flags ctx)) as [dev|]
  end.
  2:{ rewrite fail_run. cbn [fst snd app]. now apply wt_device. }
  match goal with
  | |- context [configure_mounts lib ctx nvc cfg cnt drv dev ?h] =>
      destruct (configure_mounts_trace ctx nvc cfg cnt drv dev h)
        as (evs & Hlog & Htr);
      destruct (configure_mounts lib ctx nvc cfg cnt drv dev h) as [rv l1]
  end.
  cbn [fst snd] in *. subst l1.
  now apply wt_mounts.
Qed.

End workflow_facts.

(** ** Reading the shapes of a run *)

Section trace_facts.

Lemma reqs_trace_events (drv : nvc_driver_info) (exprs : list (option string))
    (evs : list event) (ok : bool) :
  reqs_trace drv exprs evs ok ->
  Forall (fun e => is_requirement_event e = true) evs.
Proof. induction 1; repeat constructor; assumption. Qed.

Lemma mount_trace_events (nvc : nvc_context) (cnt : nvc_container)
    (selected : selection) (evs : list event) (ok : bool) :
  mount_trace nvc cnt selected evs ok ->
  Forall (fun e => is_device_loop_event e = true) evs.
Proof. induction 1; repeat constructor; assumption. Qed.

Lemma requirement_events_quiet (evs : list event) :
  Forall (fun e => is_requirement_event e = true) evs ->
  device_mounts evs = [] /\ after_failed_mount evs = None /\
  Forall (fun e => is_mount_phase_event e = true) evs.
Proof.
  induction 1 as [|e evs He _ (IH1 & IH2 & IH3)]; [repeat split; constructor|].
  destruct e; try discriminate He; cbn; repeat split; try assumption;
    now constructor.
Qed.

Lemma device_loop_events_quiet (evs : list event) :
  Forall (fun e => is_device_loop_event e = true) evs ->
  evaluated evs = [] /\ Forall (fun e => is_mount_phase_event e = true) evs.
Proof.
  induction 1 as [|e evs He _ (IH1 & IH2)]; [repeat split; constructor|].
  destruct e; try discriminate He; cbn; repeat split; try assumption;
    now constructor.
Qed.

(** The events of the mount phase neither acquire nor release. *)
Lemma mount_phase_events_ledger (evs : list event) (L : ledger) :
  Forall (fun e => is_mount_phase_event e = true) evs ->
  fold_left ledger_step evs L = L /\ release_calls evs = [].
Proof.
  induction 1 as [|e evs He _ (IH1 & IH2)]; [split; reflexivity|].
  destruct e; try discriminate He; cbn; split; assumption.
Qed.

Lemma mounts_trace_events (ctx : context) (nvc : nvc_context)
    (cnt : nvc_container) (drv : nvc_driver_info) (dev : nvc_device_info)
    (evs : list event) (rv : Z) :
  mounts_trace ctx nvc cnt drv dev evs rv ->
  Forall (fun e => is_mount_phase_event e = true) evs.
Proof.
  destruct 1;
    repeat match goal with
           | H : reqs_trace _ _ _ _ |- _ =>
               apply reqs_trace_events, requirement_events_quiet in H
                 as (_ & _ & H)
           | H : mount_trace _ _ _ _ _ |- _ =>
               apply mount_trace_events, device_loop_events_quiet in H
                 as (_ & H)
           end;
    repeat (apply Forall_app; split); repeat constructor; try assumption.
  all: repeat (apply Forall_app; split); repeat constructor; assumption.
Qed.

End trace_facts.

(** ** C1: the release of resources *)

Section release_steps.

Lemma release_in (r : resource) (a b : list resource) :
  r ∈ a ->
  release r {| acquired := a; released := b |} =
    {| acquired := a; released := b ++ [r] |}.
Proof. intros H. unfold release. cbn [acquired released]. now rewrite decide_True. Qed.

Lemma release_out (r : resource) (a b : list resource) :
  r ∉ a ->
  release r {| acquired := a; released := b |} =
    {| acquired := a; released := b |}.
Proof. intros H. unfold release. cbn [acquired released]. now rewrite decide_False. Qed.

End release_steps.

Section release_facts.

Lemma in_release_order_perm (l : list resource) : in_release_order l ≡ₚ l.
Proof.
  unfold in_release_order, of_rank. cbn [seq flat_map].
  induction l as [|r l IH]; [reflexivity|].
  rewrite <- IH at 7.
  destruct r; cbn [release_rank];
    repeat (rewrite filter_cons_True by reflexivity
            || rewrite filter_cons_False by discriminate);
    solve_Permutation.
Qed.

Lemma nothing_held (L : ledger) :
  (forall r, r ∈ acquired L -> r ∈ released L) -> held L = [].
Proof.
  unfold held. generalize (acquired L) as l.
  induction l as [|r l IH]; intros H; [reflexivity|].
  rewrite filter_cons_False.
  - apply IH. intros x Hx. apply H. now right.
  - intros Hn. apply Hn, H. now left.
Qed.

(** From a ledger whose acquisitions are of different kinds and whose
    releases are the acquisitions in the order of the block at [fail]. *)
Lemma ledger_balanced (L : ledger) :
  NoDup (map release_rank (acquired L)) ->
  released L = in_release_order (acquired L) ->
  NoDup (acquired L) /\
  released L = in_release_order (acquired L) /\
  released L ≡ₚ acquired L /\
  NoDup (released L) /\
  held L = [].
Proof.
  intros Hnd Hrel.
  assert (released L ≡ₚ acquired L) as Hp
    by (rewrite Hrel; apply in_release_order_perm).
  assert (NoDup (acquired L)) as Hnd' by (eapply NoDup_fmap_1; exact Hnd).
  repeat split; try assumption.
  - now rewrite Hp.
  - apply nothing_held; intros r Hr; now rewrite Hp.
Qed.

Lemma ledger_of_app (a b : log) :
  ledger_of (a ++ b) = fold_left ledger_step b (ledger_of a).
Proof. apply fold_left_app. Qed.

Lemma release_calls_app (a b : log) :
  release_calls (a ++ b) = release_calls a ++ release_calls b.
Proof. apply List.filter_app. Qed.

Variable lib : library.

Lemma ledger_of_run (ctx : context) :
  let log := (run (configure_command lib ctx)).2 in
  NoDup (map release_rank (acquired (ledger_of log))) /\
  released (ledger_of log) = in_release_order (acquired (ledger_of log)) /\
  exists nvc cnt dev drv cfg,
    release_calls log =
      [ ev_nvc_shutdown nvc; ev_nvc_container_free cnt;
        ev_nvc_device_info_free dev; ev_nvc_driver_info_free drv;
        ev_nvc_container_config_free cfg; ev_nvc_context_free nvc ].
Proof.
  cbv zeta. pose proof (configure_command_trace lib ctx) as Htr.
  destruct (run (configure_command lib ctx)) as [rv log].
  cbn [fst snd] in *.
  destruct Htr as [nvc cfg Hnone|nvc cfg r m Hr|nvc cfg r m Hr
                  |nvc cfg r cnt m Hr|nvc cfg r cnt drv m Hr
                  |nvc cfg r cnt drv dev evs rv Hr Hm].
  - destruct nvc as [nvc|], cfg as [cfg|];
      try (destruct Hnone; discriminate);
      ledger_compute_with release_in release_out; (split; [compute_done|split; [reflexivity|]]);
      eexists _, _, _, _, _; reflexivity.
  - apply Z.ltb_lt in Hr. ledger_compute_with release_in release_out.
    split; [compute_done|split; [reflexivity|]].
    eexists _, _, _, _, _; reflexivity.
  - apply Z.ltb_ge in Hr. ledger_compute_with release_in release_out.
    split; [compute_done|split; [reflexivity|]].
    eexists _, _, _, _, _; reflexivity.
  - apply Z.ltb_ge in Hr. ledger_compute_with release_in release_out.
    split; [compute_done|split; [reflexivity|]].
    eexists _, _, _, _, _; reflexivity.
  - apply Z.ltb_ge in Hr. ledger_compute_with release_in release_out.
    split; [compute_done|split; [reflexivity|]].
    eexists _, _, _, _, _; reflexivity.
  - apply mounts_trace_events in Hm.
    destruct (mount_phase_events_ledger evs
                (ledger_of (acquisitions ctx nvc cfg cnt drv dev r)) Hm)
      as [Hl Hc].
    rewrite !ledger_of_app, !fold_left_app, !release_calls_app, Hl, Hc.
    apply Z.ltb_ge in Hr. ledger_compute_with release_in release_out.
    split; [compute_done|split; [reflexivity|]].
    eexists _, _, _, _, _; reflexivity.
Qed.

(** The calls of the block at [fail]: each release function once, with
    the value its variable holds. *)
Lemma release_calls_of_run (ctx : context) :
  let log := (run (configure_command lib ctx)).2 in
  release_calls log =
    [ ev_nvc_shutdown (returned_context log);
      ev_nvc_container_free (returned_container log);
      ev_nvc_device_info_free (returned_device_info log);
      ev_nvc_driver_info_free (returned_driver_info log);
      ev_nvc_container_config_free (returned_config log);
      ev_nvc_context_free (returned_context log) ].
Proof.
  cbv zeta. pose proof (configure_command_trace lib ctx) as Htr.
  destruct (run (configure_command lib ctx)) as [rv log].
  cbn [fst snd] in *.
  destruct Htr as [nvc cfg Hnone|nvc cfg r m Hr|nvc cfg r m Hr
                  |nvc cfg r cnt m Hr|nvc cfg r cnt drv m Hr
                  |nvc cfg r cnt drv dev evs rv Hr Hm].
  1-5: reflexivity.
  apply mounts_trace_events in Hm.
  destruct (mount_phase_events_ledger evs ledger_empty Hm) as [_ Hc].
  rewrite !release_calls_app, Hc. reflexivity.
Qed.

(** C1, as the code has it. On every run of [configure_command], whatever
    phase fails (or none): the resources acquired are of different kinds;
    every one of them is released exactly once and nothing else is, so
    that none is held at the return; the releases come in the order of the
    block at [fail]: library state, container handle, device metadata,
    driver metadata, container configuration, library context (not the
    reverse of the acquisitions). The calls that do it are the six of the
    block at [fail], each with the value its variable holds: what the
    constructor returned, NULL when that call failed or was not reached;
    [nvc_shutdown] gets the context, also when [nvc_init] failed or was
    not reached. Releasing a null or absent resource changes nothing. *)
Theorem resources_released_once_in_fail_order (ctx : context) :
  let log := (run (configure_command lib ctx)).2 in
  let L := ledger_of log in
  (NoDup (acquired L) /\
   released L = in_release_order (acquired L) /\
   released L ≡ₚ acquired L /\
   NoDup (released L) /\
   held L = []) /\
  release_calls log =
    [ ev_nvc_shutdown (returned_context log);
      ev_nvc_container_free (returned_container log);
      ev_nvc_device_info_free (returned_device_info log);
      ev_nvc_driver_info_free (returned_driver_info log);
      ev_nvc_container_config_free (returned_config log);
      ev_nvc_context_free (returned_context log) ] /\
  (forall L' : ledger,
      fold_left ledger_step (cleanup None None None None None) L' = L') /\
  (forall (r : resource) (L' : ledger),
      r ∉ acquired L' -> release r L' = L').
Proof.
  cbv zeta. destruct (ledger_of_run ctx) as (Hnd & Hrel & _).
  split; [now apply ledger_balanced|].
  split; [exact (release_calls_of_run ctx)|]. split; [reflexivity|].
  intros r L' Hr. unfold release. now rewrite decide_False.
Qed.

End release_facts.

Lemma resources_released_once_in_fail_order_witness :
  released
    (ledger_of (run (configure_command (example.lib 5 None)
                       (example.ctx None []))).2) =
    [r_library_state 1%nat; r_container 3%nat; r_config 2%nat;
     r_context 1%nat] /\
  held
    (ledger_of (run (configure_command (example.lib 5 None)
                       (example.ctx None []))).2) = [] /\
  release_calls (run (configure_command (example.lib 5 None)
                        (example.ctx None []))).2 =
    [ ev_nvc_shutdown (Some 1%nat); ev_nvc_container_free (Some 3%nat);
      ev_nvc_device_info_free None; ev_nvc_driver_info_free None;
      ev_nvc_container_config_free (Some 2%nat);
      ev_nvc_context_free (Some 1%nat) ] /\
  release (r_driver_info example.driver)
    (ledger_of (run (configure_command (example.lib 5 None)
                       (example.ctx None []))).2) =
    ledger_of (run (configure_command (example.lib 5 None)
                      (example.ctx None []))).2.
Proof.
  destruct (resources_released_once_in_fail_order (example.lib 5 None)
              (example.ctx None []))
    as ((_ & Hrel & _ & _ & Hheld) & Hcalls & _ & Hnoop).
  split; [exact Hrel|]. split; [exact Hheld|]. split; [exact Hcalls|].
  apply Hnoop. vm_compute. intros H.
  repeat (apply elem_of_cons in H as [H|H]; [discriminate H|]).
  now apply elem_of_nil in H.
Defined.

(** C1 as stated fails: when the driver query fails, the context, the
    configuration, the library state and the container were acquired in that
    order, and they are released as library state, container,
    configuration, context. *)
Lemma release_order_is_not_reverse_acquisition :
  (run (configure_command (example.lib 5 None) (example.ctx None []))).1
    = EXIT_FAILURE /\
  ~ released_in_reverse_order
      (run (configure_command (example.lib 5 None) (example.ctx None []))).2.
Proof.
  split; [reflexivity|]. unfold released_in_reverse_order.
  vm_compute. discriminate.
Qed.

(** ** C5: the requirement loop *)

Section requirement_facts.

Lemma evaluated_app (a b : log) :
  evaluated (a ++ b) = evaluated a ++ evaluated b.
Proof.
  induction a as [|e a IH]; [reflexivity|].
  destruct e; cbn [app evaluated]; rewrite IH; reflexivity.
Qed.

Lemma reqs_trace_evaluated (drv : nvc_driver_info)
    (exprs : list (option string)) (evs : list event) (ok : bool) :
  reqs_trace drv exprs evs ok ->
  map fst (evaluated evs) `prefix_of` exprs /\
  (ok = true ->
   map fst (evaluated evs) = exprs /\
   Forall (fun p => 0 <= p.2) (evaluated evs)) /\
  (forall pre e v post,
      evaluated evs = pre ++ (e, v) :: post -> v < 0 ->
      post = [] /\ ok = false).
Proof.
  induction 1 as [|expr rest v m Hv|expr rest v evs ok Hv Htr (IH1 & IH2 & IH3)].
  - split; [apply prefix_nil|]. split; [now split|].
    intros [|? ?] e v post H; discriminate H.
  - cbn. split; [apply prefix_cons, prefix_nil|]. split; [discriminate|].
    intros [|? [|? ?]] e v' post H Hneg; try discriminate H.
    injection H as _ _ <-. now split.
  - change (evaluated (ev_dsl_evaluate expr drv v :: evs))
      with ((expr, v) :: evaluated evs).
    cbn [map fst]. split; [now apply prefix_cons|]. split.
    + intros Hok. destruct (IH2 Hok) as [-> Hall]. split; [reflexivity|].
      now constructor.
    + intros [|x pre] e v' post H Hneg.
      * injection H as _ <- _. lia.
      * injection H as _ H. now apply (IH3 pre e v' post).
Qed.

Lemma mounts_trace_evaluated (ctx : context) (nvc : nvc_context)
    (cnt : nvc_container) (drv : nvc_driver_info) (dev : nvc_device_info)
    (evs : list event) (rv : Z) :
  mounts_trace ctx nvc cnt drv dev evs rv ->
  exists (revs : list event) (ok : bool),
    reqs_trace drv (firstn (nreqs ctx) (reqs ctx)) revs ok /\
    evaluated evs = evaluated revs /\
    (ok = false -> rv = EXIT_FAILURE) /\
    (rv = EXIT_SUCCESS -> ok = true).
Proof.
  destruct 1 as [evs Hr|evs rv selected err Hr Hsel Hrv
                |evs rv selected err v m Hr Hsel Hrv Hv
                |evs rv selected err v mevs Hr Hsel Hrv Hv Hm
                |evs rv selected err v mevs w m Hr Hsel Hrv Hv Hm Hw
                |evs rv selected err v mevs w Hr Hsel Hrv Hv Hm Hw];
    exists evs; eexists; (split; [exact Hr|]);
    try (apply mount_trace_events, device_loop_events_quiet in Hm as [Hm _]);
    rewrite ?evaluated_app; cbn [evaluated];
    rewrite ?evaluated_app, ?Hm; cbn [evaluated]; rewrite ?app_nil_r;
    repeat split; try reflexivity; try discriminate.
Qed.

Variable lib : library.

(** C5. On every run of [configure_command] the requirements evaluated
    are, in order, a prefix of the requirements supplied; nothing is
    evaluated after a requirement that failed, and the run then fails; a
    run that succeeds evaluated all of them, and all passed. With the
    evaluator of the specification, ["cuda>=9.0", "driver<300"] against
    DriverInfo{cuda=9.0, driver=384} fails at the second requirement, and
    a requirement after it is not evaluated. *)
Theorem requirements_stop_at_first_failure (ctx : context) :
  let rv := (run (configure_command lib ctx)).1 in
  let log := (run (configure_command lib ctx)).2 in
  map fst (evaluated log) `prefix_of` firstn (nreqs ctx) (reqs ctx) /\
  (forall pre e v post,
      evaluated log = pre ++ (e, v) :: post -> v < 0 ->
      post = [] /\ rv = EXIT_FAILURE) /\
  (rv = EXIT_SUCCESS ->
   map fst (evaluated log) = firstn (nreqs ctx) (reqs ctx) /\
   Forall (fun p => 0 <= p.2) (evaluated log)) /\
  evaluated
    (run (configure_command (example.lib 0 None)
            (example.ctx (Some "0") ["cuda>=9.0"; "driver<300"]))).2 =
    [(Some "cuda>=9.0", 0); (Some "driver<300", -1)] /\
  evaluated
    (run (configure_command (example.lib 0 None)
            (example.ctx (Some "0") ["cuda>=9.0"; "driver<300"; "cuda>=8.0"]))).2 =
    [(Some "cuda>=9.0", 0); (Some "driver<300", -1)].
Proof.
  cbv zeta. pose proof (configure_command_trace lib ctx) as Htr.
  destruct (run (configure_command lib ctx)) as [rv log].
  cbn [fst snd] in *.
  split; [|split; [|split; [|split; vm_compute; reflexivity]]].
  all: destruct Htr as [nvc cfg Hnone|nvc cfg r m Hr|nvc cfg r m Hr
                  |nvc cfg r cnt m Hr|nvc cfg r cnt drv m Hr
                  |nvc cfg r cnt drv dev evs rv Hr Hm].
  all: try (apply prefix_nil).
  all: try (intros [|? ?] ? ? ? H; cbn in H; discriminate H).
  all: try (intros H; vm_compute in H; discriminate H).
  all: destruct (mounts_trace_evaluated _ _ _ _ _ _ _ Hm)
        as (revs & ok & Htr & Hev & Hfail & Hok);
       destruct (reqs_trace_evaluated _ _ _ _ Htr) as (H1 & H2 & H3);
       assert (evaluated (acquisitions ctx nvc cfg cnt drv dev r ++ evs ++
                 cleanup (Some nvc) (Some cnt) (Some dev) (Some drv) (Some cfg))
               = evaluated revs) as ->
         by (rewrite !evaluated_app, Hev; unfold acquisitions, cleanup;
             cbn [evaluated]; now rewrite app_nil_r).
  - exact H1.
  - intros pre e v post Heq Hneg.
    destruct (H3 pre e v post Heq Hneg) as [-> Hfalse]. auto.
  - intros Hs. now apply H2, Hok.
Qed.

End requirement_facts.

Lemma requirements_stop_at_first_failure_witness :
  (run (configure_command (example.lib 0 None)
          (example.ctx (Some "0") ["cuda>=9.0"; "driver<300"; "cuda>=8.0"]))).1
    = EXIT_FAILURE.
Proof.
  pose proof (requirements_stop_at_first_failure (example.lib 0 None)
                (example.ctx (Some "0") ["cuda>=9.0"; "driver<300"; "cuda>=8.0"]))
    as (_ & H & _).
  exact (proj2 (H [(Some "cuda>=9.0", 0)] (Some "driver<300") (-1) []
                  eq_refl ltac:(lia))).
Defined.

(** ** C6 and C8: the device loop *)

Section mount_facts.

Lemma device_mounts_app (a b : log) :
  device_mounts (a ++ b) = device_mounts a ++ device_mounts b.
Proof.
  induction a as [|e a IH]; [reflexivity|].
  destruct e; cbn [app device_mounts]; rewrite IH; reflexivity.
Qed.

Lemma after_failed_mount_app (a b : log) :
  after_failed_mount (a ++ b) =
    match after_failed_mount a with
    | Some post => Some (post ++ b)
    | None => after_failed_mount b
    end.
Proof.
  induction a as [|e a IH]; [reflexivity|].
  destruct e; cbn [app after_failed_mount]; try exact IH.
  destruct (ret0 <? 0); [reflexivity | exact IH].
Qed.

(** The device loop mounts the marked entries in the order of the array,
    up to the first mount that fails. *)
Lemma mount_trace_mounts (nvc : nvc_context) (cnt : nvc_container)
    (selected : selection) (evs : list event) (ok : bool) :
  mount_trace nvc cnt selected evs ok ->
  map fst (device_mounts evs) `prefix_of` marked selected /\
  match after_failed_mount evs with
  | Some post => ok = false /\ exists m, post = [ev_warnx m]
  | None => ok = true /\ map fst (device_mounts evs) = marked selected
  end.
Proof.
  induction 1 as [|rest evs ok Htr (IH1 & IH2)|gpu rest v m Hv
                 |gpu rest v evs ok Hv Htr (IH1 & IH2)].
  - split; [apply prefix_nil | now split].
  - split; [exact IH1 | exact IH2].
  - cbn [device_mounts after_failed_mount map fst].
    apply Z.ltb_lt in Hv. rewrite Hv.
    split; [apply prefix_cons, prefix_nil|]. split; [reflexivity|]. now exists m.
  - cbn [device_mounts after_failed_mount map fst].
    apply Z.ltb_ge in Hv. rewrite Hv.
    split; [now apply prefix_cons|].
    destruct (after_failed_mount evs) as [post|].
    + exact IH2.
    + destruct IH2 as [-> IH2]. split; [reflexivity|].
      unfold marked in *. cbn. now rewrite IH2.
Qed.

(** A selection whose marked entries point to their own ordinal lists
    its marks in ascending order. *)
Lemma marked_ascending (selected : selection) (k : nat) :
  (forall i p : nat, selected !! i = Some (Some p) -> p = (k + i)%nat) ->
  StronglySorted lt (marked selected) /\
  Forall (fun p => (k <= p)%nat) (marked selected).
Proof.
  revert k. induction selected as [|x rest IH]; intros k H.
  - split; constructor.
  - destruct (IH (S k)) as [IHs IHf].
    { intros i p Hi. rewrite (H (S i) p Hi). lia. }
    destruct x as [p|]; unfold marked in *; cbn.
    + rewrite (H 0%nat p eq_refl), Nat.add_0_r. split.
      * constructor; [exact IHs|].
        eapply Forall_impl; [exact IHf|]. cbn. intros; lia.
      * constructor; [lia|].
        eapply Forall_impl; [exact IHf|]. cbn. intros; lia.
    + split; [exact IHs|].
      eapply Forall_impl; [exact IHf|]. cbn. intros; lia.
Qed.

Lemma selection_of_ascending (ctx : context) (dev : nvc_device_info) :
  StronglySorted lt (marked (selection_of ctx dev).1.2).
Proof.
  apply (marked_ascending _ 0). intros i p Hi.
  now apply select_from_nulls in Hi as [-> _].
Qed.

Lemma exit_codes_differ : EXIT_FAILURE <> EXIT_SUCCESS.
Proof. discriminate. Qed.

Lemma mounts_trace_mounts (ctx : context) (nvc : nvc_context)
    (cnt : nvc_container) (drv : nvc_driver_info) (dev : nvc_device_info)
    (evs : list event) (rv : Z) :
  mounts_trace ctx nvc cnt drv dev evs rv ->
  map fst (device_mounts evs) `prefix_of` marked (selection_of ctx dev).1.2 /\
  (rv = EXIT_SUCCESS ->
   map fst (device_mounts evs) = marked (selection_of ctx dev).1.2) /\
  match after_failed_mount evs with
  | Some post => rv = EXIT_FAILURE /\ exists m, post = [ev_warnx m]
  | None => True
  end.
Proof.
  destruct 1 as [evs Hr|evs rv selected err Hr Hsel Hrv
                |evs rv selected err v m Hr Hsel Hrv Hv
                |evs rv selected err v mevs Hr Hsel Hrv Hv Hm
                |evs rv selected err v mevs w m Hr Hsel Hrv Hv Hm Hw
                |evs rv selected err v mevs w Hr Hsel Hrv Hv Hm Hw];
    apply reqs_trace_events, requirement_events_quiet in Hr as (Hd & Ha & _);
    try (apply mount_trace_mounts in Hm as [Hp Hm]);
    rewrite ?Hsel; cbn [fst snd];
    rewrite ?device_mounts_app, ?after_failed_mount_app, ?Hd, ?Ha;
    cbn [app device_mounts after_failed_mount];
    rewrite ?device_mounts_app, ?after_failed_mount_app;
    cbn [app device_mounts after_failed_mount];
    rewrite ?app_nil_r.
  - split; [apply prefix_nil|]. split; [|exact I].
    intros H. now apply exit_codes_differ in H.
  - split; [apply prefix_nil|]. split; [|exact I].
    intros H. now apply exit_codes_differ in H.
  - split; [apply prefix_nil|]. split; [|exact I].
    intros H. now apply exit_codes_differ in H.
  - split; [exact Hp|]. split.
    + intros H. now apply exit_codes_differ in H.
    + destruct (after_failed_mount mevs) as [post|].
      * destruct Hm as [_ Hm]. now split.
      * destruct Hm as [Hm _]. discriminate Hm.
  - destruct (after_failed_mount mevs) as [post|].
    + destruct Hm as [Hm _]. discriminate Hm.
    + destruct Hm as [_ Hm]. rewrite Hm.
      split; [reflexivity|]. split; [|exact I].
      intros H. now apply exit_codes_differ in H.
  - destruct (after_failed_mount mevs) as [post|].
    + destruct Hm as [Hm _]. discriminate Hm.
    + destruct Hm as [_ Hm]. rewrite Hm.
      split; [reflexivity|]. split; [reflexivity|exact I].
Qed.

Lemma marked_replicate (n : nat) : marked (replicate n None) = [].
Proof. induction n as [|n IH]; [reflexivity | exact IH]. Qed.

Variable lib : library.

(** What a run of [configure_command] mounts, against the selection
    computed for the devices it discovered. *)
Lemma mounts_of_run (ctx : context) :
  let rv := (run (configure_command lib ctx)).1 in
  let log := (run (configure_command lib ctx)).2 in
  match discovered log with
  | Some dev =>
      map fst (device_mounts log) `prefix_of` marked (selection_of ctx dev).1.2 /\
      (rv = EXIT_SUCCESS ->
       map fst (device_mounts log) = marked (selection_of ctx dev).1.2)
  | None => device_mounts log = [] /\ rv = EXIT_FAILURE
  end /\
  (forall post : list event,
      after_failed_mount log = Some post ->
      rv = EXIT_FAILURE /\
      exists m nvc cnt dev drv cfg,
        post = ev_warnx m ::
               cleanup (Some nvc) (Some cnt) (Some dev) (Some drv) (Some cfg)).
Proof.
  cbv zeta. pose proof (configure_command_trace lib ctx) as Htr.
  destruct (run (configure_command lib ctx)) as [rv log].
  cbn [fst snd] in *.
  destruct Htr as [nvc cfg Hnone|nvc cfg r m Hr|nvc cfg r m Hr
                  |nvc cfg r cnt m Hr|nvc cfg r cnt drv m Hr
                  |nvc cfg r cnt drv dev evs rv Hr Hm].
  1-5: split; [split; reflexivity | intros post H; discriminate H].
  apply mounts_trace_mounts in Hm as (Hp & Hs & Ha).
  unfold discovered, acquisitions.
  cbn [app omap head list_omap device_mounts after_failed_mount].
  rewrite !device_mounts_app, !after_failed_mount_app.
  unfold cleanup at 1 3. cbn [device_mounts after_failed_mount app].
  rewrite !app_nil_r.
  split; [split; assumption|].
  intros post H.
  destruct (after_failed_mount evs) as [post'|].
  - destruct Ha as [-> [m ->]]. injection H as <-.
    split; [reflexivity|]. now exists m, nvc, cnt, dev, drv, cfg.
  - discriminate H.
Qed.

(** C6. On every run of [configure_command] the devices mounted are, in
    ascending order of ordinal, the first of the devices selected; all of
    them when the run succeeds. After the first device mount that fails
    the run only warns and runs the block at [fail], then returns a
    failure: no further device is mounted, the linker cache is not
    refreshed, and no mount made before is undone. *)
Theorem devices_mounted_in_order_without_rollback (ctx : context) :
  let rv := (run (configure_command lib ctx)).1 in
  let log := (run (configure_command lib ctx)).2 in
  StronglySorted lt (map fst (device_mounts log)) /\
  match discovered log with
  | Some dev =>
      map fst (device_mounts log) `prefix_of` marked (selection_of ctx dev).1.2 /\
      (rv = EXIT_SUCCESS ->
       map fst (device_mounts log) = marked (selection_of ctx dev).1.2)
  | None => device_mounts log = [] /\ rv = EXIT_FAILURE
  end /\
  (forall post : list event,
      after_failed_mount log = Some post ->
      rv = EXIT_FAILURE /\
      exists m nvc cnt dev drv cfg,
        post = ev_warnx m ::
               cleanup (Some nvc) (Some cnt) (Some dev) (Some drv) (Some cfg)).
Proof.
  cbv zeta. destruct (mounts_of_run ctx) as [Hsel Hfail]. cbv zeta in Hsel.
  split; [|split; [exact Hsel | exact Hfail]].
  destruct (discovered (run (configure_command lib ctx)).2) as [dev|].
  - destruct Hsel as [[k Hk] _].
    pose proof (selection_of_ascending ctx dev) as Hs. rewrite Hk in Hs.
    now apply StronglySorted_app_1_l in Hs.
  - destruct Hsel as [-> _]. constructor.
Qed.

(** C8. Without a device specification (a NULL [devs]) the selector
    returns 0 and leaves the selection as it was given, all NULL in
    [configure_command], and a run of [configure_command] mounts no
    device. *)
Theorem no_specification_mounts_nothing (err : struct_error)
    (selected : selection) (available : list nvc_device) (ctx : context) :
  selector.select_gpu_devices err None selected available = (0, selected, err) /\
  marked (selector.select_gpu_devices err None
            (replicate (length available) None) available).1.2 = [] /\
  device_mounts (run (configure_command lib (set_devices None ctx))).2 = [].
Proof.
  split; [reflexivity|]. split; [apply marked_replicate|].
  destruct (mounts_of_run (set_devices None ctx)) as [Hsel _].
  cbv zeta in Hsel.
  destruct (discovered (run (configure_command lib (set_devices None ctx))).2)
    as [dev|].
  - destruct Hsel as [Hp _].
    change (selection_of (set_devices None ctx) dev)
      with (0, replicate (ngpus dev) (@None nat), @None string) in Hp.
    cbn [fst snd] in Hp. rewrite marked_replicate in Hp.
    apply prefix_nil_inv in Hp. now apply map_eq_nil in Hp.
  - now destruct Hsel.
Qed.

End mount_facts.

Lemma devices_mounted_in_order_without_rollback_witness :
  (run (configure_command (example.lib 0 (Some 1%nat))
          (example.ctx (Some "all") []))).1 = EXIT_FAILURE /\
  device_mounts
    (run (configure_command (example.lib 0 (Some 1%nat))
            (example.ctx (Some "all") []))).2 = [(0%nat, 0); (1%nat, -1)].
Proof.
  split; [|reflexivity].
  exact (proj1 (proj2 (proj2 (devices_mounted_in_order_without_rollback
                                (example.lib 0 (Some 1%nat))
                                (example.ctx (Some "all") [])))
                 _ eq_refl)).
Defined.

(** ** A selector failure ends the run *)

Section selector_failure.
Variable lib : library.

Lemma requirement_events_no_mount (evs : list event) :
  Forall (fun e => is_requirement_event e = true) evs ->
  Forall (fun e => is_mount_call e = false) evs.
Proof.
  intros H. eapply Forall_impl; [exact H|].
  intros e He. destruct e; try discriminate He; reflexivity.
Qed.

(** When the selector fails on the devices the run discovered, the run
    returns a failure and has mounted nothing: the selection the failing
    call leaves is never read. *)
Theorem selector_failure_mounts_nothing (ctx : context)
    (dev : nvc_device_info)
    (Hdev : discovered (run (configure_command lib ctx)).2 = Some dev)
    (Hsel : (selection_of ctx dev).1.1 < 0) :
  (run (configure_command lib ctx)).1 = EXIT_FAILURE /\
  Forall (fun e => is_mount_call e = false) (run (configure_command lib ctx)).2.
Proof.
  pose proof (configure_command_trace lib ctx) as Htr.
  destruct (run (configure_command lib ctx)) as [rv log].
  cbn [fst snd] in *.
  destruct Htr as [nvc cfg Hnone|nvc cfg r m Hr|nvc cfg r m Hr
                  |nvc cfg r cnt m Hr|nvc cfg r cnt drv m Hr
                  |nvc cfg r cnt drv dev' evs rv Hr Hm];
    try discriminate Hdev.
  injection Hdev as ->.
  destruct Hm as [evs Hq|evs rv selected err Hq Hs Hrv
                 |evs rv selected err v m Hq Hs Hrv Hv
                 |evs rv selected err v mevs Hq Hs Hrv Hv Hm
                 |evs rv selected err v mevs w m Hq Hs Hrv Hv Hm Hw
                 |evs rv selected err v mevs w Hq Hs Hrv Hv Hm Hw];
    try (rewrite Hs in Hsel; cbn [fst snd] in Hsel; lia);
    apply reqs_trace_events, requirement_events_no_mount in Hq;
    (split; [reflexivity|]);
    unfold acquisitions, cleanup;
    repeat (apply Forall_app; split); repeat constructor; assumption.
Qed.

End selector_failure.

Lemma selector_failure_mounts_nothing_witness :
  (run (configure_command (example.lib 0 None)
          (example.ctx (Some "0,5") []))).1 = EXIT_FAILURE /\
  Forall (fun e => is_mount_call e = false)
    (run (configure_command (example.lib 0 None)
            (example.ctx (Some "0,5") []))).2.
Proof.
  apply (selector_failure_mounts_nothing (example.lib 0 None)
           (example.ctx (Some "0,5") []) {| gpus := example.devices3 |}).
  - reflexivity.
  - vm_compute. reflexivity.
Defined.

(** ** C9: the bound on the requirements *)

Section parser_facts.
Variable lib : library.

(** The case 'r' of [configure_parser]. *)
Lemma configure_parser_require (arg : option string) (n : nat)
    (ctx : context) (l : log) :
  configure_parser lib (key "r") arg n ctx l =
    (if (nitems_reqs <=? nreqs ctx)%nat
     then fatal (error_setx "too many requirements")
     else
       match array_store (reqs ctx) (nreqs ctx) arg with
       | Some reqs' => ret (p_return 0 (set_reqs reqs' (S (nreqs ctx)) ctx))
       | None => ret p_undefined
       end) l.
Proof. reflexivity. Qed.

(** A call of [configure_parser] keeps the array within its bounds, counts
    a "--require" option, and logs nothing of the workflow. *)
Lemma configure_parser_step (k : Z) (arg : option string) (n : nat)
    (ctx : context) (l : log) :
  reqs_bounded ctx ->
  exists evs : list event,
    (configure_parser lib k arg n ctx l).2 = l ++ evs /\
    Forall (fun e => is_workflow_event e = false) evs /\
    match (configure_parser lib k arg n ctx l).1 with
    | p_return _ ctx' =>
        reqs_bounded ctx' /\
        nreqs ctx' = (nreqs ctx + (if (k =? key "r")%Z then 1 else 0))%nat /\
        command_ ctx' = command_ ctx
    | p_exit status => status = EXIT_FAILURE
    | p_undefined => False
    end.
Proof.
  intros [Hlen Hn]. destruct (k =? key "r") eqn:Kr.
  - apply Z.eqb_eq in Kr. subst k.
    rewrite configure_parser_require.
    destruct (Nat.leb_spec nitems_reqs (nreqs ctx)) as [Hfull|Hfree].
    + exists [ev_errx EXIT_FAILURE "input error: too many requirements"].
      split; [reflexivity|]. split; [repeat constructor | reflexivity].
    + unfold array_store.
      destruct (Nat.ltb_spec (nreqs ctx) (length (reqs ctx))) as [_|Hge];
        [|lia].
      exists []. split; [symmetry; apply app_nil_r|]. split; [constructor|].
      cbn [fst ret]. unfold reqs_bounded. cbn [reqs nreqs command_ set_reqs].
      rewrite length_insert. repeat split; try assumption; lia.
  - unfold configure_parser. rewrite Kr.
    repeat (match goal with
            | |- context [Z.eqb k ?c] => destruct (Z.eqb k c) eqn:?
            end;
            [ parser_leaf | ]).
    parser_leaf.
Qed.

Lemma argp_parse_configure (calls : list callback) (ctx : context) (l : log) :
  reqs_bounded ctx ->
  exists evs : list event,
    (argp_parse (configure_parser lib) calls ctx l).2 = l ++ evs /\
    Forall (fun e => is_workflow_event e = false) evs /\
    match (argp_parse (configure_parser lib) calls ctx l).1 with
    | p_return _ ctx' =>
        reqs_bounded ctx' /\
        nreqs ctx' = (nreqs ctx + count_require calls)%nat /\
        command_ ctx' = command_ ctx
    | p_exit status => status = EXIT_FAILURE
    | p_undefined => False
    end.
Proof.
  revert ctx l. induction calls as [|c rest IH]; intros ctx l Hb.
  - exists []. cbn. rewrite app_nil_r.
    repeat split; first [apply Hb | reflexivity | lia | constructor].
  - cbn [argp_parse]. unfold bind.
    destruct (configure_parser_step (cb_key c) (cb_arg c) (cb_arg_num c) ctx l Hb)
      as (evs & Hlog & Hq & Hres).
    destruct (configure_parser lib (cb_key c) (cb_arg c) (cb_arg_num c) ctx l)
      as [[r ctx'|status|] l1]; cbn [fst snd] in Hlog, Hres; subst l1.
    + destruct Hres as (Hb' & Hn & Hc).
      destruct (IH ctx' (l ++ evs) Hb') as (evs' & Hlog' & Hq' & Hres').
      exists (evs ++ evs'). rewrite Hlog', app_assoc.
      split; [reflexivity|]. split; [now apply Forall_app|].
      destruct (argp_parse (configure_parser lib) rest ctx' (l ++ evs)).1
        as [r' ctx''|status|]; try assumption.
      destruct Hres' as (Hb'' & Hn' & Hc'). split; [exact Hb''|].
      split; [|congruence].
      rewrite Hn', Hn. unfold count_require. cbn [List.filter].
      destruct (cb_key c =? key "r"); cbn [length]; lia.
    + exists evs. now repeat split.
    + contradiction.
Qed.

(** The context while [main_parser] has found no command. *)
Lemma main_parser_step (cl : command_line) (k : Z) (arg : option string)
    (n : nat) (ctx : context) (l : log) :
  (nitems_reqs < count_require (command_calls cl))%nat ->
  reqs_bounded ctx /\ command_ ctx = None ->
  exists evs : list event,
    (main_parser lib cl k arg n ctx l).2 = l ++ evs /\
    Forall (fun e => is_workflow_event e = false) evs /\
    match (main_parser lib cl k arg n ctx l).1 with
    | p_return _ ctx' => reqs_bounded ctx' /\ command_ ctx' = None
    | p_exit status => status = EXIT_FAILURE
    | p_undefined => False
    end.
Proof.
  intros Hmany [Hb Hc]. unfold main_parser.
  destruct (k =? key "d"); [parser_leaf; apply Hb|].
  destruct (k =? key "k"); [parser_leaf; apply Hb|].
  destruct (k =? ARGP_KEY_ARGS).
  2:{ destruct (k =? ARGP_KEY_END); [rewrite Hc|]; parser_leaf; apply Hb. }
  unfold commands. cbn [parse_command command_parser].
  destruct (String.eqb (argv0 cl) (command_name cmd_configure));
    [|parser_leaf].
  unfold bind.
  destruct (argp_parse_configure (command_calls cl) ctx l Hb)
    as (evs & Hlog & Hq & Hres).
  destruct (argp_parse (configure_parser lib) (command_calls cl) ctx l)
    as [[r ctx'|status|] l1]; cbn [fst snd] in Hlog, Hres; subst l1.
  - destruct Hres as ([_ Hle] & Hn & _). lia.
  - exists evs. now repeat split.
  - contradiction.
Qed.

Lemma argp_parse_main (cl : command_line) (calls : list callback)
    (ctx : context) (l : log) :
  (nitems_reqs < count_require (command_calls cl))%nat ->
  reqs_bounded ctx /\ command_ ctx = None ->
  exists evs : list event,
    (argp_parse (main_parser lib cl) calls ctx l).2 = l ++ evs /\
    Forall (fun e => is_workflow_event e = false) evs /\
    match (argp_parse (main_parser lib cl) calls ctx l).1 with
    | p_return _ ctx' => reqs_bounded ctx' /\ command_ ctx' = None
    | p_exit status => status = EXIT_FAILURE
    | p_undefined => False
    end.
Proof.
  intros Hmany. revert ctx l. induction calls as [|c rest IH]; intros ctx l Hi.
  - exists []. cbn. rewrite app_nil_r.
    repeat split; first [apply Hi | constructor].
  - cbn [argp_parse]. unfold bind.
    destruct (main_parser_step cl (cb_key c) (cb_arg c) (cb_arg_num c) ctx l
                Hmany Hi) as (evs & Hlog & Hq & Hres).
    destruct (main_parser lib cl (cb_key c) (cb_arg c) (cb_arg_num c) ctx l)
      as [[r ctx'|status|] l1]; cbn [fst snd] in Hlog, Hres; subst l1.
    + destruct (IH ctx' (l ++ evs) Hres) as (evs' & Hlog' & Hq' & Hres').
      exists (evs ++ evs'). rewrite Hlog', app_assoc.
      split; [reflexivity|]. split; [now apply Forall_app | exact Hres'].
    + exists evs. now repeat split.
    + contradiction.
Qed.

Lemma argp_parse_app
    (parser : Z -> option string -> nat -> context -> M parse_result)
    (a b : list callback) (ctx : context) (l : log) :
  argp_parse parser (a ++ b) ctx l =
    match argp_parse parser a ctx l with
    | (p_return _ ctx', l') => argp_parse parser b ctx' l'
    | other => other
    end.
Proof.
  revert ctx l. induction a as [|c a IH]; intros ctx l; [reflexivity|].
  cbn [app argp_parse]. unfold bind.
  destruct (parser (cb_key c) (cb_arg c) (cb_arg_num c) ctx l)
    as [[r ctx'|status|] l1]; [apply IH | reflexivity | reflexivity].
Qed.

(** C9. The requirement list is an array of 16 entries, empty at the
    start. Whatever options the parser of "configure" is called with, it
    never writes outside the array, and the entries in use are the
    "--require" options seen, at most 16. Below 16 entries in use a
    "--require" option is stored in the next entry; with 16 in use it is
    refused: the message "too many requirements" goes to [errx] (as "input
    error: too many requirements") and the process exits with
    [EXIT_FAILURE]; so does the 17th "--require" option of a command line.
    A command line with more than 16 "--require" options never reaches the
    workflow: [main] makes no call of the workflow and does not return
    success. *)
Theorem requirements_bounded_by_sixteen :
  (length (reqs context_zero) = 16%nat /\ nreqs context_zero = 0%nat) /\
  (forall (calls : list callback) (ctx : context) (l : log),
      reqs_bounded ctx ->
      match (argp_parse (configure_parser lib) calls ctx l).1 with
      | p_return _ ctx' =>
          reqs_bounded ctx' /\
          nreqs ctx' = (nreqs ctx + count_require calls)%nat
      | p_exit status => status = EXIT_FAILURE
      | p_undefined => False
      end) /\
  (forall (arg : option string) (n : nat) (ctx : context) (l : log),
      (nreqs ctx < nitems_reqs)%nat -> length (reqs ctx) = nitems_reqs ->
      configure_parser lib (key "r") arg n ctx l =
        (p_return 0
           (set_reqs (<[nreqs ctx := arg]> (reqs ctx)) (S (nreqs ctx)) ctx),
         l)) /\
  (forall (arg : option string) (n : nat) (ctx : context) (l : log),
      (nitems_reqs <= nreqs ctx)%nat ->
      configure_parser lib (key "r") arg n ctx l =
        (p_exit EXIT_FAILURE,
         l ++ [ev_errx EXIT_FAILURE "input error: too many requirements"])) /\
  (forall (pre post : list callback) (arg : option string) (n : nat)
          (ctx' : context) (r : Z) (l l' : log),
      count_require pre = nitems_reqs ->
      argp_parse (configure_parser lib) pre context_zero l = (p_return r ctx', l') ->
      argp_parse (configure_parser lib)
        (pre ++ {| cb_key := key "r"; cb_arg := arg; cb_arg_num := n |} :: post)
        context_zero l =
        (p_exit EXIT_FAILURE,
         l' ++ [ev_errx EXIT_FAILURE "input error: too many requirements"])) /\
  (forall cl : command_line,
      (nitems_reqs < count_require (command_calls cl))%nat ->
      (run (main lib cl)).1 <> Some EXIT_SUCCESS /\
      Forall (fun e => is_workflow_event e = false) (run (main lib cl)).2).
Proof.
  assert (reqs_bounded context_zero) as Hzero
    by (split; [reflexivity | unfold nitems_reqs; cbn; lia]).
  assert (forall (arg : option string) (n : nat) (ctx : context) (l : log),
      (nitems_reqs <= nreqs ctx)%nat ->
      configure_parser lib (key "r") arg n ctx l =
        (p_exit EXIT_FAILURE,
         l ++ [ev_errx EXIT_FAILURE "input error: too many requirements"]))
    as Hfull.
  { intros arg n ctx l Hge.
    rewrite configure_parser_require.
    destruct (Nat.leb_spec nitems_reqs (nreqs ctx)); [reflexivity|lia]. }
  split; [split; reflexivity|]. split; [|split; [|split; [exact Hfull|split]]].
  - intros calls ctx l Hb.
    destruct (argp_parse_configure calls ctx l Hb) as (evs & _ & _ & H).
    destruct (argp_parse (configure_parser lib) calls ctx l).1; try exact H.
    destruct H as (H1 & H2 & _). now split.
  - intros arg n ctx l Hlt Hlen.
    rewrite configure_parser_require.
    destruct (Nat.leb_spec nitems_reqs (nreqs ctx)); [lia|].
    unfold array_store.
    destruct (Nat.ltb_spec (nreqs ctx) (length (reqs ctx))); [reflexivity|lia].
  - intros pre post arg n ctx' r l l' Hcount Hpre.
    rewrite argp_parse_app, Hpre. cbn [argp_parse cb_key cb_arg cb_arg_num].
    unfold bind.
    pose proof (argp_parse_configure pre context_zero l Hzero) as (_ & _ & _ & H).
    rewrite Hpre in H. cbn [fst] in H. destruct H as (_ & Hn & _).
    rewrite Hfull; [reflexivity|]. rewrite Hn, Hcount. cbn. lia.
  - intros cl Hmany. unfold run, main, bind.
    destruct (argp_parse_main cl (main_calls cl) context_zero [] Hmany)
      as (evs & Hlog & Hq & Hres); [now split|].
    destruct (argp_parse (main_parser lib cl) (main_calls cl) context_zero [])
      as [[r ctx'|status|] l1]; cbn [fst snd app] in Hlog, Hres; subst l1.
    + destruct Hres as [_ ->]. cbn. split; [discriminate | exact Hq].
    + subst status. cbn. split; [discriminate | exact Hq].
    + contradiction.
Qed.

End parser_facts.

Lemma requirements_bounded_by_sixteen_witness :
  ((run (main (example.lib 0 None)
           (example.configure_line "0" (replicate 17 "cuda>=9.0")))).1
     <> Some EXIT_SUCCESS /\
   Forall (fun e => is_workflow_event e = false)
     (run (main (example.lib 0 None)
             (example.configure_line "0" (replicate 17 "cuda>=9.0")))).2) /\
  run (main (example.lib 0 None)
         (example.configure_line "0" (replicate 17 "cuda>=9.0"))) =
    (Some EXIT_FAILURE,
     [ev_errx EXIT_FAILURE "input error: too many requirements"]).
Proof.
  split; [|reflexivity].
  apply (proj2 (proj2 (proj2 (proj2 (proj2
           (requirements_bounded_by_sixteen (example.lib 0 None))))))).
  vm_compute. lia.
Defined.

(** ** More on the device selector *)

Section selector_tokens.
Import libc token selector.

(** A turn of the loop that returns does so with -1 and the message that
    names its token, which is not empty. *)
Lemma select_token_return (tok : string) (sel : selection)
    (available : list nvc_device) (rv : Z) (e : struct_error) :
  select_token tok sel available = go_return rv e ->
  rv = -1 /\ e = Some ("unknown device id: " +:+ tok) /\ tok <> EmptyString.
Proof.
  unfold select_token. destruct tok as [|c r]; [discriminate|].
  destruct (strcasecmp (String c r) "all" =? 0); [discriminate|].
  destruct (strncasecmp (String c r) "GPU-" (strlen "GPU-") =? 0).
  - destruct (find_uuid (String c r) available 0); [discriminate|].
    intros [= <- <-]. now repeat split.
  - destruct (strtol (String c r)) as [n ptr].
    destruct (String.eqb ptr EmptyString && (n >=? 0) &&
              (n <? Z.of_nat (length available))); [discriminate|].
    intros [= <- <-]. now repeat split.
Qed.

(** What a token does to the selection does not depend on the selection:
    nothing, all the marks, one mark within bounds, or a failure. *)
Lemma select_token_shape (tok : string) (available : list nvc_device) :
  (forall sel : selection, select_token tok sel available = go_next sel) \/
  (forall sel : selection,
      select_token tok sel available =
        go_break (select_all (length available) sel)) \/
  (exists i : nat,
      (i < length available)%nat /\
      forall sel : selection,
        select_token tok sel available = go_next (<[i := Some i]> sel)) \/
  (exists e : struct_error,
      forall sel : selection, select_token tok sel available = go_return (-1) e).
Proof.
  unfold select_token. destruct tok as [|c r]; [now left|].
  destruct (strcasecmp (String c r) "all" =? 0); [right; now left|].
  destruct (strncasecmp (String c r) "GPU-" (strlen "GPU-") =? 0).
  - destruct (find_uuid (String c r) available 0) as [i|] eqn:E.
    + apply find_uuid_bound in E. right; right; left. exists i.
      split; [lia | reflexivity].
    + right; right; right. now eexists.
  - destruct (strtol (String c r)) as [n ptr].
    destruct (String.eqb ptr EmptyString && (n >=? 0) &&
              (n <? Z.of_nat (length available))) eqn:E.
    + apply andb_true_iff in E as [E E3]. apply andb_true_iff in E as [_ E2].
      apply Z.ltb_lt in E3. rewrite Z.geb_leb in E2. apply Z.leb_le in E2.
      right; right; left. exists (Z.to_nat n). split; [lia | reflexivity].
    + right; right; right. now eexists.
Qed.

(** A token [strsep] returns holds no separator: as a specification of
    its own it is one token. *)
Lemma fields_single (s delim : string) :
  Forall (fun tok => fields tok delim = [tok]) (fields s delim).
Proof.
  induction s as [|c r IH]; cbn [fields].
  - now constructor.
  - destruct (is_delim delim c) eqn:E.
    + constructor; [reflexivity | exact IH].
    + destruct (fields r delim) as [|tok toks].
      * constructor; [|constructor]. cbn [fields]. now rewrite E.
      * apply Forall_cons in IH as [Htok Htoks].
        constructor; [|exact Htoks]. cbn [fields]. now rewrite E, Htok.
Qed.

Lemma lookup_nulls (n i : nat) (x : nat) :
  replicate n (@None nat) !! i <> Some (Some x).
Proof. intros H. apply lookup_replicate in H as [H _]. discriminate H. Qed.

(** A token alone marks what its turn of the loop marks. *)
Lemma marks_alone_next (available : list nvc_device) (tok : string) (i : nat) :
  fields tok "," = [tok] ->
  (forall sel : selection, select_token tok sel available = go_next sel) ->
  ~ marks_alone available tok i.
Proof.
  unfold marks_alone, select_gpu_devices. cbn [fields_opt]. intros -> H.
  cbn [select_tokens]. rewrite H. cbn [fst snd]. apply lookup_nulls.
Qed.

Lemma marks_alone_return (available : list nvc_device) (tok : string)
    (i : nat) (e : struct_error) :
  fields tok "," = [tok] ->
  (forall sel : selection, select_token tok sel available = go_return (-1) e) ->
  ~ marks_alone available tok i.
Proof.
  unfold marks_alone, select_gpu_devices. cbn [fields_opt]. intros -> H.
  cbn [select_tokens]. rewrite H. cbn [fst snd]. apply lookup_nulls.
Qed.

Lemma marks_alone_break (available : list nvc_device) (tok : string) (i : nat) :
  fields tok "," = [tok] ->
  (forall sel : selection,
      select_token tok sel available =
        go_break (select_all (length available) sel)) ->
  marks_alone available tok i <-> (i < length available)%nat.
Proof.
  unfold marks_alone, select_gpu_devices. cbn [fields_opt]. intros -> H.
  cbn [select_tokens]. rewrite H. cbn [fst snd].
  unfold select_all. rewrite mark_loop_lookup, length_replicate.
  case_decide as Hi.
  - split; [lia | reflexivity].
  - split; [intros Hn; now apply lookup_nulls in Hn | lia].
Qed.

Lemma marks_alone_insert (available : list nvc_device) (tok : string)
    (i j : nat) :
  fields tok "," = [tok] -> (j < length available)%nat ->
  (forall sel : selection,
      select_token tok sel available = go_next (<[j := Some j]> sel)) ->
  marks_alone available tok i <-> i = j.
Proof.
  unfold marks_alone, select_gpu_devices. cbn [fields_opt]. intros -> Hj H.
  cbn [select_tokens]. rewrite H. cbn [fst snd].
  destruct (decide (i = j)) as [->|Hne].
  - rewrite list_lookup_insert_eq by (rewrite length_replicate; lia).
    now split.
  - rewrite list_lookup_insert_ne by congruence.
    split; [intros Hn; now apply lookup_nulls in Hn | congruence].
Qed.

(** When the loop over [toks] ends with 0, an entry is marked at the end
    exactly when it was marked at the start or one of the tokens alone
    marks it. *)
Lemma select_tokens_union (toks : list string) (err : struct_error)
    (sel : selection) (available : list nvc_device) :
  Forall (fun tok => fields tok "," = [tok]) toks ->
  length sel = length available ->
  (select_tokens toks err sel available).1.1 = 0 ->
  forall i : nat,
    (select_tokens toks err sel available).1.2 !! i = Some (Some i) <->
    sel !! i = Some (Some i) \/
    exists tok : string, tok ∈ toks /\ marks_alone available tok i.
Proof.
  intros Hone. revert sel.
  induction Hone as [|tok rest Htok Hrest IH]; intros sel Hlen Hok i.
  - cbn. split; [now left|]. intros [H|(tok & Hin & _)]; [exact H|].
    now apply elem_of_nil in Hin.
  - cbn [select_tokens] in *.
    destruct (select_token_shape tok available)
      as [H|[H|[(j & Hj & H)|(e & H)]]]; rewrite H in *; cbn [fst snd] in *.
    + rewrite (IH sel Hlen Hok i). split.
      * intros [Hs|(t & Hin & Hm)]; [now left|].
        right. exists t. split; [now apply list_elem_of_further | exact Hm].
      * intros [Hs|(t & Hin & Hm)]; [now left|].
        apply elem_of_cons in Hin as [->|Hin].
        -- now apply (marks_alone_next available tok i Htok H) in Hm.
        -- right. now exists t.
    + unfold select_all. rewrite mark_loop_lookup. case_decide as Hi.
      * split; [|reflexivity]. intros _. right. exists tok.
        split; [apply list_elem_of_here|].
        apply (marks_alone_break available tok i Htok H). lia.
      * split; [now left|]. intros [Hs|(t & Hin & Hm)]; [exact Hs|].
        exfalso. apply Hi.
        unfold marks_alone in Hm. apply select_from_nulls in Hm. lia.
    + rewrite (IH (<[j := Some j]> sel)) by
        (rewrite ?length_insert; assumption).
      destruct (decide (i = j)) as [->|Hne].
      * rewrite list_lookup_insert_eq by lia. split; [|now left].
        intros _. right. exists tok. split; [apply list_elem_of_here|].
        now apply (marks_alone_insert available tok j j Htok Hj H).
      * rewrite list_lookup_insert_ne by congruence. split.
        -- intros [Hs|(t & Hin & Hm)]; [now left|].
           right. exists t. split; [now apply list_elem_of_further | exact Hm].
        -- intros [Hs|(t & Hin & Hm)]; [now left|].
           apply elem_of_cons in Hin as [->|Hin].
           ++ now apply (marks_alone_insert available tok i j Htok Hj H) in Hm.
           ++ right. now exists t.
    + discriminate Hok.
Qed.

End selector_tokens.

Section selector_extras.
Import libc token selector.

(** The selector returns 0 or -1 and keeps the size of the buffer. With 0
    it leaves [*err] as it was; with -1 the message is "unknown device
    id: " followed by a token of the specification, which is not empty. *)
Theorem selector_returns_zero_or_names_token (err : struct_error)
    (devs : option string) (sel : selection) (available : list nvc_device) :
  let r := select_gpu_devices err devs sel available in
  length r.1.2 = length sel /\
  ((r.1.1 = 0 /\ r.2 = err) \/
   (r.1.1 = -1 /\
    exists tok : string,
      tok ∈ fields_opt devs "," /\ tok <> EmptyString /\
      r.2 = Some ("unknown device id: " +:+ tok))).
Proof.
  intros r. split; [apply select_tokens_marks|].
  unfold r, select_gpu_devices. clear r.
  generalize (fields_opt devs ",") as toks. intros toks. revert sel.
  induction toks as [|tok rest IH]; intros sel.
  - left. now split.
  - cbn [select_tokens].
    destruct (select_token tok sel available) as [s|s|rv e] eqn:E.
    + destruct (IH s) as [H|(H & t & Hin & Hne & He)]; [now left|].
      right. split; [exact H|]. exists t.
      split; [now apply list_elem_of_further | now split].
    + left. now split.
    + apply select_token_return in E as (-> & -> & Hne).
      right. split; [reflexivity|]. exists tok.
      split; [apply list_elem_of_here | now split].
Qed.

(** Empty tokens do nothing: two specifications with the same tokens,
    the empty ones left out, have the same outcome. A leading, trailing or
    doubled comma is ignored, and a specification of commas only, or an
    empty one, acts as no specification. *)
Theorem empty_tokens_are_ignored (err : struct_error)
    (d1 d2 : option string) (sel : selection) (available : list nvc_device)
    (Hsame : nonempty_tokens d1 = nonempty_tokens d2) :
  select_gpu_devices err d1 sel available =
    select_gpu_devices err d2 sel available.
Proof.
  assert (forall (toks : list string) (s : selection),
             select_tokens (filter (fun tok => tok <> EmptyString) toks)
               err s available =
             select_tokens toks err s available) as Hskip.
  { induction toks as [|tok rest IH]; intros s; [reflexivity|].
    rewrite filter_cons. case_decide as Hne.
    - cbn [select_tokens].
      destruct (select_token tok s available); [apply IH | reflexivity..].
    - subst tok. cbn [select_tokens select_token]. apply IH. }
  unfold select_gpu_devices.
  rewrite <- (Hskip (fields_opt d1 ",")), <- (Hskip (fields_opt d2 ",")).
  unfold nonempty_tokens in Hsame. now rewrite Hsame.
Qed.

Lemma empty_tokens_are_ignored_witness :
  select_gpu_devices None (Some ",0,,1,") (replicate 3 None) example.devices3 =
    select_gpu_devices None (Some "0,1") (replicate 3 None) example.devices3 /\
  select_gpu_devices None (Some ",,") (replicate 3 None) example.devices3 =
    select_gpu_devices None None (replicate 3 None) example.devices3.
Proof. split; apply empty_tokens_are_ignored; reflexivity. Defined.

(** From the all-NULL buffer, when the selector returns 0, a device is
    marked exactly when one of the tokens of the specification, given
    alone, marks it: the selection of a list is the union of the
    selections of its tokens. *)
Theorem selection_is_union_of_tokens (err : struct_error)
    (devs : option string) (available : list nvc_device)
    (Hok : (select_gpu_devices err devs (replicate (length available) None)
              available).1.1 = 0) :
  forall i : nat,
    (select_gpu_devices err devs (replicate (length available) None)
       available).1.2 !! i = Some (Some i) <->
    exists tok : string,
      tok ∈ fields_opt devs "," /\ marks_alone available tok i.
Proof.
  intros i. unfold select_gpu_devices in *.
  rewrite select_tokens_union.
  - split; [|now right]. intros [H|H]; [|exact H].
    now apply lookup_nulls in H.
  - destruct devs as [s|]; [apply fields_single | constructor].
  - apply length_replicate.
  - exact Hok.
Qed.

Lemma selection_is_union_of_tokens_witness :
  (select_gpu_devices None (Some "2,GPU-1234") (replicate 3 None)
     example.devices3).1.2 !! 0%nat = Some (Some 0%nat) <->
  exists tok : string,
    tok ∈ fields_opt (Some "2,GPU-1234") "," /\
    marks_alone example.devices3 tok 0.
Proof.
  apply (selection_is_union_of_tokens None (Some "2,GPU-1234")
           example.devices3).
  reflexivity.
Defined.

(** From the all-NULL buffer, two specifications with the same set of
    tokens, on which the selector returns 0, give the same selection: the
    order of the tokens and their repetition do not matter. *)
Theorem token_order_is_irrelevant (err : struct_error)
    (d1 d2 : option string) (available : list nvc_device)
    (Hsame : forall tok : string,
        tok ∈ fields_opt d1 "," <-> tok ∈ fields_opt d2 ",")
    (H1 : (select_gpu_devices err d1 (replicate (length available) None)
             available).1.1 = 0)
    (H2 : (select_gpu_devices err d2 (replicate (length available) None)
             available).1.1 = 0) :
  (select_gpu_devices err d1 (replicate (length available) None)
     available).1.2 =
  (select_gpu_devices err d2 (replicate (length available) None)
     available).1.2.
Proof.
  assert (forall d : option string,
             Forall (fun tok => fields tok "," = [tok]) (fields_opt d ","))
    as Hone by (intros [s|]; [apply fields_single | constructor]).
  pose proof (fun d => select_from_nulls err d available) as Hown.
  pose proof (fun d => proj1 (select_tokens_marks (fields_opt d ",") err
                (replicate (length available) None) available)) as Hlen.
  unfold select_gpu_devices in *.
  pose proof (fun i => select_tokens_union _ err _ available (Hone d1)
                (length_replicate _ _) H1 i) as U1.
  pose proof (fun i => select_tokens_union _ err _ available (Hone d2)
                (length_replicate _ _) H2 i) as U2.
  assert (forall i : nat,
             (select_tokens (fields_opt d1 ",") err
                (replicate (length available) None) available).1.2 !! i
               = Some (Some i) <->
             (select_tokens (fields_opt d2 ",") err
                (replicate (length available) None) available).1.2 !! i
               = Some (Some i)) as Hiff.
  { intros i. rewrite U1, U2.
    split; (intros [H|(t & Hin & Hm)]; [now left|]);
      right; exists t; (split; [now apply Hsame | exact Hm]). }
  pose proof (Hlen d1) as L1. pose proof (Hlen d2) as L2.
  pose proof (Hown d1) as O1. pose proof (Hown d2) as O2.
  set (s1 := (select_tokens (fields_opt d1 ",") _ _ _).1.2) in *.
  set (s2 := (select_tokens (fields_opt d2 ",") _ _ _).1.2) in *.
  apply list_eq. intros i.
  destruct (s1 !! i) as [[p|]|] eqn:E1.
  - destruct (O1 i p E1) as [-> _]. symmetry. now apply Hiff.
  - destruct (s2 !! i) as [[q|]|] eqn:E2; [|reflexivity|].
    + destruct (O2 i q E2) as [-> _]. apply Hiff in E2. congruence.
    + apply lookup_lt_Some in E1. apply lookup_ge_None in E2. lia.
  - destruct (s2 !! i) as [x|] eqn:E2; [|reflexivity].
    apply lookup_lt_Some in E2. apply lookup_ge_None in E1. lia.
Qed.

Lemma token_order_is_irrelevant_witness :
  (select_gpu_devices None (Some "2,0,0") (replicate 3 None)
     example.devices3).1.2 =
  (select_gpu_devices None (Some "0,2") (replicate 3 None)
     example.devices3).1.2.
Proof.
  apply (token_order_is_irrelevant None (Some "2,0,0") (Some "0,2")
           example.devices3); [|reflexivity..].
  intros tok. change (fields_opt (Some "2,0,0") ",") with ["2"; "0"; "0"].
  change (fields_opt (Some "0,2") ",") with ["0"; "2"].
  rewrite !elem_of_cons, !elem_of_nil. tauto.
Defined.

End selector_extras.

Section selector_signs.
Import libc token selector.

Lemma space_or_minus_tests (c : ascii) (r : string) :
  isspace c || Ascii.eqb c "-" = true ->
  (strcasecmp (String c r) "all" =? 0) = false /\
  (strncasecmp (String c r) "GPU-" (strlen "GPU-") =? 0) = false.
Proof.
  destruct c as [[] [] [] [] [] [] [] []]; intros H;
    try discriminate H; split; reflexivity.
Qed.

(** [strtol] on white space, a minus sign and digits. *)
Lemma strtol_minus_literal (ws ds : string) :
  all_space ws = true -> all_digits ds = true -> ds <> EmptyString ->
  strtol (ws +:+ "-" +:+ ds) = (clamp_long (- decimal ds), EmptyString).
Proof.
  intros Hws Hds Hne. unfold strtol, decimal.
  rewrite skip_space_app by exact Hws.
  change ("-" +:+ ds) with (String "-" ds).
  change (skip_space (String "-" ds)) with (String "-" ds).
  cbn [read_sign].
  destruct ds as [|d ds]; [congruence|].
  pose proof Hds as Hd. simpl in Hd. apply andb_true_iff in Hd as [Hd _].
  cbn [starts_with_digit]. rewrite Hd.
  now rewrite (scan_digits_fst_all (String d ds) 0 Hds).
Qed.

(** A token made of white space, a minus sign and decimal digits is
    accepted only when the digits write zero (and there is a device): it
    then marks device 0. With any other value it is rejected with the
    message naming it. *)
Theorem minus_sign_selects_only_zero (ws ds : string) (sel : selection)
    (available : list nvc_device)
    (Hws : all_space ws = true)
    (Hds : all_digits ds = true)
    (Hne : ds <> EmptyString) :
  let tok := ws +:+ "-" +:+ ds in
  select_token tok sel available =
    if (decimal ds =? 0) && (0 <? Z.of_nat (length available))
    then go_next (<[0%nat := Some 0%nat]> sel)
    else go_return (-1) (error_setx ("unknown device id: " +:+ tok)).
Proof.
  intros tok. pose proof (decimal_nonneg ds) as Hpos.
  pose proof (strtol_minus_literal ws ds Hws Hds Hne) as Hs. fold tok in Hs.
  assert (exists (c : ascii) (r : string),
             tok = String c r /\ isspace c || Ascii.eqb c "-" = true)
    as (c & r & Heq & Hc).
  { unfold tok. destruct ws as [|w ws]; [now eexists _, _|].
    simpl in Hws. apply andb_true_iff in Hws as [Hw _].
    eexists _, _. split; [reflexivity|]. now rewrite Hw. }
  destruct (space_or_minus_tests c r Hc) as [T1 T2].
  rewrite Heq in *. unfold select_token. rewrite T1, T2, Hs.
  cbn [String.eqb andb].
  destruct (Z.eqb_spec (decimal ds) 0) as [Hz|Hnz].
  - rewrite Hz. reflexivity.
  - assert (clamp_long (- decimal ds) < 0) as Hneg.
    { unfold clamp_long, LONG_MAX, LONG_MIN.
      destruct (Z.gtb_spec (- decimal ds) 9223372036854775807); [lia|].
      destruct (Z.ltb_spec (- decimal ds) (-9223372036854775808)); lia. }
    rewrite Z.geb_leb. destruct (Z.leb_spec 0 (clamp_long (- decimal ds))); [lia|].
    reflexivity.
Qed.

Lemma minus_sign_selects_only_zero_witness :
  select_token "-0" (replicate 3 None) example.devices3 =
    go_next [Some 0%nat; None; None] /\
  select_token " -1" (replicate 3 None) example.devices3 =
    go_return (-1) (Some "unknown device id:  -1").
Proof.
  split.
  - apply (minus_sign_selects_only_zero EmptyString "0" (replicate 3 None)
             example.devices3); [reflexivity | reflexivity | discriminate].
  - apply (minus_sign_selects_only_zero " " "1" (replicate 3 None)
             example.devices3); [reflexivity | reflexivity | discriminate].
Defined.

End selector_signs.

(** ** More on the configure workflow *)

Section run_readings.

Lemma warnings_app (a b : log) : warnings (a ++ b) = warnings a ++ warnings b.
Proof. apply List.filter_app. Qed.

Lemma mount_calls_app (a b : log) :
  mount_calls (a ++ b) = mount_calls a ++ mount_calls b.
Proof. apply List.filter_app. Qed.

Lemma after_failure_app (a b : log) :
  after_failure (a ++ b) =
    match after_failure a with
    | Some post => Some (post ++ b)
    | None => after_failure b
    end.
Proof.
  induction a as [|e a IH]; [reflexivity|].
  cbn [app after_failure]. destruct (failed e); [reflexivity | exact IH].
Qed.

(** The requirement loop mounts nothing; it warns once, right after the
    evaluation that failed, when one did. *)
Lemma reqs_trace_reading (drv : nvc_driver_info) (exprs : list (option string))
    (evs : list event) (ok : bool) :
  reqs_trace drv exprs evs ok ->
  mount_calls evs = [] /\
  if ok then warnings evs = [] /\ after_failure evs = None
  else exists m : string,
      warnings evs = [ev_warnx m] /\ after_failure evs = Some [ev_warnx m].
Proof.
  unfold warnings, mount_calls.
  induction 1 as [|expr rest v m Hv|expr rest v evs ok Hv Htr [IH1 IH2]].
  - now repeat split.
  - apply Z.ltb_lt in Hv. split; [reflexivity|]. exists m.
    cbn. rewrite Hv. now split.
  - apply Z.ltb_ge in Hv. split; [exact IH1|].
    cbn [List.filter is_warning after_failure failed]. rewrite Hv. exact IH2.
Qed.

(** The device loop calls [nvc_device_mount] only; it warns once, right
    after the mount that failed, when one did. *)
Lemma mount_trace_reading (nvc : nvc_context) (cnt : nvc_container)
    (selected : selection) (evs : list event) (ok : bool) :
  mount_trace nvc cnt selected evs ok ->
  mount_calls evs =
    map (fun p => ev_nvc_device_mount nvc cnt p.1 p.2) (device_mounts evs) /\
  if ok then
    warnings evs = [] /\ after_failure evs = None /\
    Forall (fun p => 0 <= p.2) (device_mounts evs)
  else exists m : string,
      warnings evs = [ev_warnx m] /\ after_failure evs = Some [ev_warnx m].
Proof.
  unfold warnings, mount_calls.
  induction 1 as [|rest evs ok Htr [IH1 IH2]|gpu rest v m Hv
                 |gpu rest v evs ok Hv Htr [IH1 IH2]].
  - now repeat split.
  - now split.
  - apply Z.ltb_lt in Hv. split; [reflexivity|]. exists m.
    cbn. rewrite Hv. now split.
  - pose proof Hv as Hv'. apply Z.ltb_ge in Hv'.
    cbn [List.filter is_mount_call is_warning after_failure failed
         device_mounts map fst snd].
    rewrite Hv', IH1. split; [reflexivity|].
    destruct ok; [|exact IH2].
    destruct IH2 as (Hw & Ha & Hf). now repeat split; try constructor.
Qed.

End run_readings.

Section log_splits.

(** A log without mounts holds no mount. *)
Lemma no_mount_in (l pre post : list event) (e : event) :
  Forall (fun e => is_mount_call e = false) l ->
  l = pre ++ e :: post -> is_mount_call e = true -> False.
Proof.
  intros Hf -> He. apply Forall_app in Hf as [_ Hf].
  apply Forall_cons in Hf as [Hf _]. congruence.
Qed.

(** A mount in a log that starts without mounts comes after that start. *)
Lemma split_at_mount (a b pre post : list event) (e : event) :
  Forall (fun e => is_mount_call e = false) a ->
  a ++ b = pre ++ e :: post -> is_mount_call e = true ->
  exists pre' : list event, pre = a ++ pre' /\ b = pre' ++ e :: post.
Proof.
  intros Hf. revert pre. induction Hf as [|x a Hx Hf IH]; intros pre Heq He.
  - now exists pre.
  - destruct pre as [|y pre]; cbn [app] in Heq.
    + injection Heq as <- _. congruence.
    + injection Heq as <- Heq. destruct (IH pre Heq He) as (pre' & -> & ->).
      now exists pre'.
Qed.

Lemma evaluated_prefix (a b : list event) :
  evaluated (a ++ b) = [] -> evaluated a = [].
Proof. rewrite evaluated_app. intros H. now apply app_eq_nil in H as [H _]. Qed.

End log_splits.

Section workflow_extras.
Variable lib : library.

(** A run that fails writes exactly one diagnostic ([warn] or [warnx]); a
    run that succeeds writes none. The return value is [EXIT_SUCCESS] or
    [EXIT_FAILURE]. *)
Theorem failure_is_reported_once (ctx : context) :
  let rv := (run (configure_command lib ctx)).1 in
  let log := (run (configure_command lib ctx)).2 in
  (rv = EXIT_SUCCESS /\ warnings log = []) \/
  (rv = EXIT_FAILURE /\ exists w : event, warnings log = [w]).
Proof.
  cbv zeta. pose proof (configure_command_trace lib ctx) as Htr.
  destruct (run (configure_command lib ctx)) as [rv log].
  cbn [fst snd] in *.
  destruct Htr as [nvc cfg Hnone|nvc cfg r m Hr|nvc cfg r m Hr
                  |nvc cfg r cnt m Hr|nvc cfg r cnt drv m Hr
                  |nvc cfg r cnt drv dev evs rv Hr Hm].
  1-5: right; split; [reflexivity|]; eexists; reflexivity.
  rewrite !warnings_app.
  change (warnings (acquisitions ctx nvc cfg cnt drv dev r)) with (@nil event).
  change (warnings (cleanup (Some nvc) (Some cnt) (Some dev) (Some drv) (Some cfg)))
    with (@nil event).
  rewrite app_nil_r. cbn [app].
  destruct Hm as [evs Hq|evs rv selected err Hq Hs Hrv
                 |evs rv selected err v m Hq Hs Hrv Hv
                 |evs rv selected err v mevs Hq Hs Hrv Hv Hm
                 |evs rv selected err v mevs w m Hq Hs Hrv Hv Hm Hw
                 |evs rv selected err v mevs w Hq Hs Hrv Hv Hm Hw];
    apply reqs_trace_reading in Hq as [_ Hq]; cbv iota in Hq;
    try (apply mount_trace_reading in Hm as [_ Hm]; cbv iota in Hm).
  - right. destruct Hq as (m & -> & _). split; [reflexivity | now eexists].
  - destruct Hq as [Hq _]. rewrite warnings_app, Hq.
    right. split; [reflexivity | now eexists].
  - destruct Hq as [Hq _]. rewrite warnings_app, Hq.
    right. split; [reflexivity | now eexists].
  - destruct Hq as [Hq _]. destruct Hm as (m & Hm & _).
    rewrite warnings_app, Hq.
    change (warnings (ev_nvc_driver_mount nvc cnt drv v :: mevs))
      with (warnings mevs).
    rewrite Hm. right. split; [reflexivity | now eexists].
  - destruct Hq as [Hq _]. destruct Hm as (Hm & _).
    rewrite warnings_app, Hq.
    change (warnings (ev_nvc_driver_mount nvc cnt drv v :: mevs ++
                      [ev_nvc_ldcache_update nvc cnt w; ev_warnx m]))
      with (warnings (mevs ++ [ev_nvc_ldcache_update nvc cnt w; ev_warnx m])).
    rewrite warnings_app, Hm.
    right. split; [reflexivity | now eexists].
  - destruct Hq as [Hq _]. destruct Hm as (Hm & _).
    rewrite warnings_app, Hq.
    change (warnings (ev_nvc_driver_mount nvc cnt drv v :: mevs ++
                      [ev_nvc_ldcache_update nvc cnt w]))
      with (warnings (mevs ++ [ev_nvc_ldcache_update nvc cnt w])).
    rewrite warnings_app, Hm.
    left. split; reflexivity.
Qed.

(** Every run ends with the block at [fail]: its seven calls are the last
    events, and nothing before them releases anything. After
    [nvc_shutdown] the library is not called but to free. *)
Theorem cleanup_ends_every_run (ctx : context) :
  let log := (run (configure_command lib ctx)).2 in
  exists (pre : list event) nvc cnt dev drv cfg,
    log = pre ++ cleanup nvc cnt dev drv cfg /\
    Forall (fun e => is_cleanup_event e = false) pre.
Proof.
  cbv zeta. pose proof (configure_command_trace lib ctx) as Htr.
  destruct (run (configure_command lib ctx)) as [rv log].
  cbn [fst snd] in *.
  destruct Htr as [nvc cfg Hnone|nvc cfg r m Hr|nvc cfg r m Hr
                  |nvc cfg r cnt m Hr|nvc cfg r cnt drv m Hr
                  |nvc cfg r cnt drv dev evs rv Hr Hm].
  1-5: eexists _, _, _, _, _, _; split; [reflexivity | repeat constructor].
  exists (acquisitions ctx nvc cfg cnt drv dev r ++ evs).
  eexists _, _, _, _, _. split; [now rewrite app_assoc|].
  apply Forall_app. split; [repeat constructor|].
  apply mounts_trace_events in Hm. eapply Forall_impl; [exact Hm|].
  intros e He. destruct e; try discriminate He; reflexivity.
Qed.

(** The first call that fails ends the run: after it come one diagnostic
    and the block at [fail], nothing else, and the run returns
    [EXIT_FAILURE]. The one exception is a failed [nvc_context_new], which
    is followed by the call of [nvc_container_config_new] made before the
    two results are tested. A run in which no call failed returns
    [EXIT_SUCCESS], unless the selector refused the specification. *)
Theorem first_failure_ends_run (ctx : context) :
  let rv := (run (configure_command lib ctx)).1 in
  let log := (run (configure_command lib ctx)).2 in
  match after_failure log with
  | Some post =>
      rv = EXIT_FAILURE /\
      exists (w : event) nvc cnt dev drv cfg,
        is_warning w = true /\
        (post = w :: cleanup nvc cnt dev drv cfg \/
         post = ev_nvc_container_config_new (pid ctx) (rootfs ctx) cfg ::
                w :: cleanup nvc cnt dev drv cfg)
  | None =>
      rv = EXIT_SUCCESS \/
      exists dev : nvc_device_info,
        discovered log = Some dev /\ (selection_of ctx dev).1.1 < 0
  end.
Proof.
  cbv zeta. pose proof (configure_command_trace lib ctx) as Htr.
  destruct (run (configure_command lib ctx)) as [rv log].
  cbn [fst snd] in *.
  destruct Htr as [nvc cfg Hnone|nvc cfg r m Hr|nvc cfg r m Hr
                  |nvc cfg r cnt m Hr|nvc cfg r cnt drv m Hr
                  |nvc cfg r cnt drv dev evs rv Hr Hm].
  1:{ destruct nvc as [nvc|], cfg as [cfg|];
        try (destruct Hnone; discriminate);
        cbn [app after_failure failed];
        (split; [reflexivity|]); eexists _, _, _, _, _, _;
        (split; [|first [left; reflexivity | right; reflexivity]]); reflexivity. }
  1-4: first [apply Z.ltb_lt in Hr | apply Z.ltb_ge in Hr];
       cbn [app after_failure failed]; rewrite Hr; cbn [after_failure failed];
       (split; [reflexivity|]); eexists _, _, _, _, _, _;
       (split; [|left; reflexivity]); reflexivity.
  assert (discovered (acquisitions ctx nvc cfg cnt drv dev r ++ evs ++
            cleanup (Some nvc) (Some cnt) (Some dev) (Some drv) (Some cfg))
          = Some dev) as Hdev by reflexivity.
  rewrite Hdev. clear Hdev.
  apply Z.ltb_ge in Hr. unfold acquisitions.
  cbn [app after_failure failed]. rewrite Hr. rewrite after_failure_app.
  change (after_failure
            (cleanup (Some nvc) (Some cnt) (Some dev) (Some drv) (Some cfg)))
    with (@None (list event)).
  destruct Hm as [evs Hq|evs rv selected err Hq Hs Hrv
                 |evs rv selected err v m Hq Hs Hrv Hv
                 |evs rv selected err v mevs Hq Hs Hrv Hv Hm
                 |evs rv selected err v mevs w m Hq Hs Hrv Hv Hm Hw
                 |evs rv selected err v mevs w Hq Hs Hrv Hv Hm Hw];
    apply reqs_trace_reading in Hq as [_ Hq]; cbv iota in Hq;
    try (apply mount_trace_reading in Hm as [_ Hm]; cbv iota in Hm);
    rewrite ?after_failure_app;
    try (destruct Hq as [_ Hq]; rewrite Hq);
    try (first [apply Z.ltb_lt in Hv | apply Z.ltb_ge in Hv]);
    try (first [apply Z.ltb_lt in Hw | apply Z.ltb_ge in Hw]);
    cbn [app after_failure failed]; rewrite ?Hv; rewrite ?after_failure_app.
  - destruct Hq as (m & _ & ->). split; [reflexivity|].
    eexists _, _, _, _, _, _. split; [|left; reflexivity]. reflexivity.
  - right. exists dev. split; [reflexivity|]. now rewrite Hs.
  - split; [reflexivity|].
    eexists _, _, _, _, _, _. split; [|left; reflexivity]. reflexivity.
  - destruct Hm as (m & _ & ->). split; [reflexivity|].
    eexists _, _, _, _, _, _. split; [|left; reflexivity]. reflexivity.
  - destruct Hm as (_ & -> & _). cbn [app after_failure failed]. rewrite Hw.
    split; [reflexivity|].
    eexists _, _, _, _, _, _. split; [|left; reflexivity]. reflexivity.
  - destruct Hm as (_ & -> & _). cbn [app after_failure failed]. rewrite Hw.
    now left.
Qed.

(** Nothing is mounted before every requirement was evaluated and passed
    and the selector accepted the specification: at every mount of the
    driver or of a device, and at the refresh of the cache, the events
    before it hold the device query, the evaluations of all the
    requirements, in order and none negative, and the selector returns 0
    on the devices discovered. *)
Theorem mounts_follow_requirements_and_selection (ctx : context)
    (pre post : list event) (e : event)
    (Hlog : (run (configure_command lib ctx)).2 = pre ++ e :: post)
    (He : is_mount_call e = true) :
  exists dev : nvc_device_info,
    discovered pre = Some dev /\
    0 <= (selection_of ctx dev).1.1 /\
    map fst (evaluated pre) = firstn (nreqs ctx) (reqs ctx) /\
    Forall (fun p => 0 <= p.2) (evaluated pre).
Proof.
  pose proof (configure_command_trace lib ctx) as Htr.
  destruct (run (configure_command lib ctx)) as [rv log].
  cbn [fst snd] in *.
  destruct Htr as [nvc cfg Hnone|nvc cfg r m Hr|nvc cfg r m Hr
                  |nvc cfg r cnt m Hr|nvc cfg r cnt drv m Hr
                  |nvc cfg r cnt drv dev evs rv Hr Hm].
  1-5: exfalso; eapply no_mount_in; [|exact Hlog|exact He];
       repeat constructor.
  assert (Forall (fun e => is_mount_call e = false)
            (acquisitions ctx nvc cfg cnt drv dev r)) as Hacq
    by repeat constructor.
  assert (Forall (fun e => is_mount_call e = false)
            (cleanup (Some nvc) (Some cnt) (Some dev) (Some drv) (Some cfg)))
    as Hcl by repeat constructor.
  exists dev.
  destruct Hm as [evs Hq|evs rv selected err Hq Hs Hrv
                 |evs rv selected err v m Hq Hs Hrv Hv
                 |evs rv selected err v mevs Hq Hs Hrv Hv Hm
                 |evs rv selected err v mevs w m Hq Hs Hrv Hv Hm Hw
                 |evs rv selected err v mevs w Hq Hs Hrv Hv Hm Hw];
    pose proof (requirement_events_no_mount _ (reqs_trace_events _ _ _ _ Hq))
      as Hev.
  1-2: exfalso; eapply no_mount_in; [|exact Hlog|exact He];
       repeat (apply Forall_app; split); try assumption; repeat constructor.
  all: rewrite <- !app_assoc in Hlog; cbn [app] in Hlog;
       rewrite (app_assoc (acquisitions ctx nvc cfg cnt drv dev r)) in Hlog;
       apply split_at_mount in Hlog as (pre' & -> & Hrest);
         [|now apply Forall_app|exact He];
       try (apply mount_trace_events, device_loop_events_quiet in Hm as [Hm _]);
       assert (evaluated (pre' ++ e :: post) = []) as Hnone
         by (rewrite <- Hrest; cbn [evaluated];
             rewrite ?evaluated_app, ?Hm; reflexivity);
       apply evaluated_prefix in Hnone as Hrest';
       clear Hrest Hnone; rename Hrest' into Hrest;
       destruct (reqs_trace_evaluated _ _ _ _ Hq) as (_ & Hall & _);
       destruct (Hall eq_refl) as [Hexprs Hpass];
       rewrite !evaluated_app, Hrest, app_nil_r;
       change (evaluated (acquisitions ctx nvc cfg cnt drv dev r))
         with (@nil (option string * Z));
       cbn [app];
       (split; [reflexivity|]); (split; [now rewrite Hs|]); now split.
Qed.

(** The mounts come in one order: the driver first, then the devices,
    then the refresh of the cache, each at most once per device. A device
    is mounted only after the driver mount succeeded, the cache is
    refreshed only after every device mount succeeded, and the run
    succeeds exactly when the refresh does. *)
Theorem mount_calls_in_order (ctx : context) :
  let rv := (run (configure_command lib ctx)).1 in
  let log := (run (configure_command lib ctx)).2 in
  (mount_calls log = [] /\ rv = EXIT_FAILURE) \/
  exists nvc cnt drv (v : Z) (tail : list event),
    mount_calls log =
      ev_nvc_driver_mount nvc cnt drv v ::
      map (fun p => ev_nvc_device_mount nvc cnt p.1 p.2) (device_mounts log)
      ++ tail /\
    (v < 0 -> device_mounts log = [] /\ tail = []) /\
    ((tail = [] /\ rv = EXIT_FAILURE) \/
     exists w : Z,
       tail = [ev_nvc_ldcache_update nvc cnt w] /\
       Forall (fun p => 0 <= p.2) (device_mounts log) /\
       (rv = EXIT_SUCCESS <-> 0 <= w)).
Proof.
  cbv zeta. pose proof (configure_command_trace lib ctx) as Htr.
  destruct (run (configure_command lib ctx)) as [rv log].
  cbn [fst snd] in *.
  destruct Htr as [nvc cfg Hnone|nvc cfg r m Hr|nvc cfg r m Hr
                  |nvc cfg r cnt m Hr|nvc cfg r cnt drv m Hr
                  |nvc cfg r cnt drv dev evs rv Hr Hm].
  1-5: left; split; reflexivity.
  rewrite !mount_calls_app, !device_mounts_app.
  change (mount_calls (acquisitions ctx nvc cfg cnt drv dev r)) with (@nil event).
  change (mount_calls (cleanup (Some nvc) (Some cnt) (Some dev) (Some drv) (Some cfg)))
    with (@nil event).
  change (device_mounts (acquisitions ctx nvc cfg cnt drv dev r))
    with (@nil (nat * Z)).
  change (device_mounts (cleanup (Some nvc) (Some cnt) (Some dev) (Some drv) (Some cfg)))
    with (@nil (nat * Z)).
  rewrite !app_nil_r. cbn [app].
  destruct Hm as [evs Hq|evs rv selected err Hq Hs Hrv
                 |evs rv selected err v m Hq Hs Hrv Hv
                 |evs rv selected err v mevs Hq Hs Hrv Hv Hm
                 |evs rv selected err v mevs w m Hq Hs Hrv Hv Hm Hw
                 |evs rv selected err v mevs w Hq Hs Hrv Hv Hm Hw];
    pose proof (proj1 (requirement_events_quiet _ (reqs_trace_events _ _ _ _ Hq)))
      as Hd;
    apply reqs_trace_reading in Hq as [Hq _];
    try (apply mount_trace_reading in Hm as [Hm Hok]; cbv iota in Hok);
    rewrite ?mount_calls_app, ?device_mounts_app, ?Hq, ?Hd; cbn [app].
  - left. now split.
  - left. now split.
  - right. exists nvc, cnt, drv, v, []. split; [reflexivity|].
    split; [now intros _|]. left. now split.
  - right. exists nvc, cnt, drv, v, [].
    change (mount_calls (ev_nvc_driver_mount nvc cnt drv v :: mevs))
      with (ev_nvc_driver_mount nvc cnt drv v :: mount_calls mevs).
    change (device_mounts (ev_nvc_driver_mount nvc cnt drv v :: mevs))
      with (device_mounts mevs).
    rewrite Hm, app_nil_r. split; [reflexivity|].
    split; [intros; lia|]. left. now split.
  - right. exists nvc, cnt, drv, v, [ev_nvc_ldcache_update nvc cnt w].
    change (mount_calls (ev_nvc_driver_mount nvc cnt drv v :: mevs ++
                         [ev_nvc_ldcache_update nvc cnt w; ev_warnx m]))
      with (ev_nvc_driver_mount nvc cnt drv v ::
            mount_calls (mevs ++ [ev_nvc_ldcache_update nvc cnt w; ev_warnx m])).
    change (device_mounts (ev_nvc_driver_mount nvc cnt drv v :: mevs ++
                           [ev_nvc_ldcache_update nvc cnt w; ev_warnx m]))
      with (device_mounts (mevs ++ [ev_nvc_ldcache_update nvc cnt w; ev_warnx m])).
    rewrite mount_calls_app, device_mounts_app, Hm.
    cbn [device_mounts]. rewrite app_nil_r. split; [reflexivity|].
    split; [intros; lia|]. right. exists w. split; [reflexivity|].
    split; [apply Hok|]. split; [intros H; discriminate H | intros; lia].
  - right. exists nvc, cnt, drv, v, [ev_nvc_ldcache_update nvc cnt w].
    change (mount_calls (ev_nvc_driver_mount nvc cnt drv v :: mevs ++
                         [ev_nvc_ldcache_update nvc cnt w]))
      with (ev_nvc_driver_mount nvc cnt drv v ::
            mount_calls (mevs ++ [ev_nvc_ldcache_update nvc cnt w])).
    change (device_mounts (ev_nvc_driver_mount nvc cnt drv v :: mevs ++
                           [ev_nvc_ldcache_update nvc cnt w]))
      with (device_mounts (mevs ++ [ev_nvc_ldcache_update nvc cnt w])).
    rewrite mount_calls_app, device_mounts_app, Hm.
    cbn [device_mounts]. rewrite app_nil_r. split; [reflexivity|].
    split; [intros; lia|]. right. exists w. split; [reflexivity|].
    split; [apply Hok|]. now split.
Qed.

End workflow_extras.

Lemma mounts_follow_requirements_and_selection_witness :
  exists dev : nvc_device_info,
    discovered
      (take 7 (run (configure_command (example.lib 0 None)
                      (example.ctx (Some "0") ["cuda>=9.0"]))).2) = Some dev /\
    0 <= (selection_of (example.ctx (Some "0") ["cuda>=9.0"]) dev).1.1 /\
    map fst
      (evaluated
         (take 7 (run (configure_command (example.lib 0 None)
                         (example.ctx (Some "0") ["cuda>=9.0"]))).2)) =
      firstn (nreqs (example.ctx (Some "0") ["cuda>=9.0"]))
        (reqs (example.ctx (Some "0") ["cuda>=9.0"])) /\
    Forall (fun p => 0 <= p.2)
      (evaluated
         (take 7 (run (configure_command (example.lib 0 None)
                         (example.ctx (Some "0") ["cuda>=9.0"]))).2)).
Proof.
  apply (mounts_follow_requirements_and_selection (example.lib 0 None)
           (example.ctx (Some "0") ["cuda>=9.0"])
           (take 7 (run (configure_command (example.lib 0 None)
                           (example.ctx (Some "0") ["cuda>=9.0"]))).2)
           (drop 8 (run (configure_command (example.lib 0 None)
                           (example.ctx (Some "0") ["cuda>=9.0"]))).2)
           (ev_nvc_driver_mount 1%nat 3%nat example.driver 0));
    vm_compute; reflexivity.
Defined.

(** ** A run of the workflow after the options were parsed *)

Section shifts.

Lemma shifted_ret {A} (l : log) (a : A) : shifted l (ret a) (ret a).
Proof. intros h. reflexivity. Qed.

Lemma shifted_bind {A B} (l : log) (m m' : M A) (k k' : A -> M B) :
  shifted l m m' -> (forall a : A, shifted l (k a) (k' a)) ->
  shifted l (bind m k) (bind m' k').
Proof.
  intros Hm Hk h. unfold bind. rewrite (Hm h).
  destruct (m' h) as [a h']. cbn [fst snd]. apply Hk.
Qed.

Lemma shifted_call {A} (l : log) (answer answer' : log -> A)
    (record : A -> event) :
  (forall h : log, answer' h = answer (l ++ h)) ->
  shifted l (call answer record) (call answer' record).
Proof.
  intros H h. unfold call. cbn [fst snd]. now rewrite H, app_assoc.
Qed.

Lemma shifted_ask {A} (l : log) (answer answer' : log -> A) :
  (forall h : log, answer' h = answer (l ++ h)) ->
  shifted l (ask answer) (ask answer').
Proof. intros H h. unfold ask. cbn [fst snd]. now rewrite H. Qed.

Lemma shifted_emit (l : log) (e : event) : shifted l (emit e) (emit e).
Proof. intros h. unfold emit. cbn [fst snd]. now rewrite app_assoc. Qed.

Variable lib : library.
Variable l : log.

Lemma shifted_fail (nvc : option nvc_context) (cnt : option nvc_container)
    (dev : option nvc_device_info) (drv : option nvc_driver_info)
    (cfg : option nvc_container_config) (rv : Z) :
  shifted l (fail nvc cnt dev drv cfg rv) (fail nvc cnt dev drv cfg rv).
Proof.
  unfold fail.
  repeat (apply shifted_bind; [apply shifted_emit | intros _]).
  apply shifted_ret.
Qed.

Lemma shifted_warnx (prefix : string) (nvc : nvc_context) :
  shifted l (warnx_nvc_error lib prefix nvc)
    (warnx_nvc_error (library_after l lib) prefix nvc).
Proof.
  unfold warnx_nvc_error.
  apply shifted_bind; [now apply shifted_ask | intros e; apply shifted_emit].
Qed.

Lemma shifted_check_requirements (exprs : list (option string))
    (drv : nvc_driver_info) (err : struct_error) :
  shifted l (check_requirements lib exprs drv err)
    (check_requirements (library_after l lib) exprs drv err).
Proof.
  induction exprs as [|expr rest IH]; cbn [check_requirements].
  - apply shifted_ret.
  - apply shifted_bind; [now apply shifted_call|]. intros r.
    destruct (r.1 <? 0); [|exact IH].
    apply shifted_bind; [apply shifted_emit | intros _; apply shifted_ret].
Qed.

Lemma shifted_mount_devices (nvc : nvc_context) (cnt : nvc_container)
    (selected : selection) :
  shifted l (mount_devices lib nvc cnt selected)
    (mount_devices (library_after l lib) nvc cnt selected).
Proof.
  induction selected as [|[gpu|] rest IH]; cbn [mount_devices].
  - apply shifted_ret.
  - apply shifted_bind; [now apply shifted_call|]. intros r.
    destruct (r <? 0); [|exact IH].
    apply shifted_bind; [apply shifted_warnx | intros _; apply shifted_ret].
  - exact IH.
Qed.

Lemma shifted_configure_mounts (ctx : context) (nvc : nvc_context)
    (cfg : nvc_container_config) (cnt : nvc_container)
    (drv : nvc_driver_info) (dev : nvc_device_info) :
  shifted l (configure_mounts lib ctx nvc cfg cnt drv dev)
    (configure_mounts (library_after l lib) ctx nvc cfg cnt drv dev).
Proof.
  unfold configure_mounts.
  apply shifted_bind; [apply shifted_check_requirements|].
  intros [err|err]; [|apply shifted_fail].
  destruct (selector.select_gpu_devices err (devices ctx)
              (replicate (ngpus dev) None) (gpus dev)) as [[rv selected] err'].
  destruct (rv <? 0).
  { apply shifted_bind; [apply shifted_emit | intros _; apply shifted_fail]. }
  apply shifted_bind; [now apply shifted_call|]. intros r.
  destruct (r <? 0).
  { apply shifted_bind; [apply shifted_warnx | intros _; apply shifted_fail]. }
  apply shifted_bind; [apply shifted_mount_devices|]. intros mounted.
  destruct (negb mounted); [apply shifted_fail|].
  apply shifted_bind; [now apply shifted_call|]. intros w.
  destruct (w <? 0); [|apply shifted_fail].
  apply shifted_bind; [apply shifted_warnx | intros _; apply shifted_fail].
Qed.

(** A run of [configure_command] that starts after the events [l] is a
    run from the start in the environment as it is after [l]. *)
Lemma shifted_configure_command (ctx : context) :
  shifted l (configure_command lib ctx)
    (configure_command (library_after l lib) ctx).
Proof.
  unfold configure_command.
  apply shifted_bind; [now apply shifted_call|]. intros nvc.
  apply shifted_bind; [now apply shifted_call|]. intros cfg.
  destruct nvc as [nvc|], cfg as [cfg|];
    try (apply shifted_bind; [apply shifted_emit | intros _; apply shifted_fail]).
  apply shifted_bind; [now apply shifted_call|]. intros r.
  destruct (r <? 0).
  { apply shifted_bind; [apply shifted_warnx | intros _; apply shifted_fail]. }
  apply shifted_bind; [now apply shifted_call|]. intros [cnt|].
  2:{ apply shifted_bind; [apply shifted_warnx | intros _; apply shifted_fail]. }
  apply shifted_bind; [now apply shifted_call|]. intros [drv|].
  2:{ apply shifted_bind; [apply shifted_warnx | intros _; apply shifted_fail]. }
  apply shifted_bind; [now apply shifted_call|]. intros [dev|].
  2:{ apply shifted_bind; [apply shifted_warnx | intros _; apply shifted_fail]. }
  apply shifted_configure_mounts.
Qed.

(** The shape of a run of [configure_command] from any log. *)
Lemma configure_command_from (ctx : context) :
  exists wlog : list event,
    (configure_command lib ctx l).2 = l ++ wlog /\
    workflow_trace ctx wlog (configure_command lib ctx l).1.
Proof.
  pose proof (shifted_configure_command ctx []) as H.
  rewrite app_nil_r in H. rewrite H. cbn [fst snd].
  eexists. split; [reflexivity|].
  apply (configure_command_trace (library_after l lib) ctx).
Qed.

End shifts.

(** ** More on the option parsers *)

Section parser_extras.
Variable lib : library.

(** A call of [configure_parser] returns without an event, or ends the
    process with [EXIT_FAILURE] after one event ([errx] or the usage). It
    keeps the array within its bounds and the command, and adds its
    argument to the requirements when the option is "--require". *)
Lemma configure_parser_inv (k : Z) (arg : option string) (n : nat)
    (ctx : context) (l : log) :
  reqs_bounded ctx ->
  exists evs : list event,
    (configure_parser lib k arg n ctx l).2 = l ++ evs /\
    match (configure_parser lib k arg n ctx l).1 with
    | p_return _ ctx' =>
        evs = [] /\ reqs_bounded ctx' /\ command_ ctx' = command_ ctx /\
        firstn (nreqs ctx') (reqs ctx') =
          firstn (nreqs ctx) (reqs ctx) ++
          (if k =? key "r" then [arg] else [])
    | p_exit status =>
        status = EXIT_FAILURE /\
        exists e : event, evs = [e] /\ is_exit_event e = true
    | p_undefined => False
    end.
Proof.
  intros [Hlen Hn]. destruct (k =? key "r") eqn:Kr.
  - apply Z.eqb_eq in Kr. subst k.
    rewrite configure_parser_require.
    destruct (Nat.leb_spec nitems_reqs (nreqs ctx)) as [Hfull|Hfree].
    + eexists [_]. split; [reflexivity|]. split; [reflexivity|].
      eexists. split; reflexivity.
    + unfold array_store.
      destruct (Nat.ltb_spec (nreqs ctx) (length (reqs ctx))) as [Hlt|Hge];
        [|lia].
      exists []. split; [symmetry; apply app_nil_r|]. split; [reflexivity|].
      cbn [fst ret]. unfold reqs_bounded. cbn [reqs nreqs command_ set_reqs].
      rewrite length_insert. repeat split; try assumption; try lia.
      rewrite (take_S_r _ _ arg) by now apply list_lookup_insert_eq.
      now rewrite take_insert_ge by lia.
  - unfold configure_parser. rewrite Kr.
    repeat (match goal with
            | |- context [Z.eqb k ?c] => destruct (Z.eqb k c) eqn:?
            end;
            [ parser_outcome | ]).
    parser_outcome.
Qed.

(** The "--require" options are kept in the order of the command line:
    when the parse of the options of "configure" returns, the entries in
    use are the ones in use before, followed by the arguments of the
    "--require" options, in order; the array is within its bounds and
    nothing was logged. *)
Theorem requirements_kept_in_order (calls : list callback)
    (ctx ctx' : context) (l l' : log) (r : Z)
    (Hb : reqs_bounded ctx)
    (Hret : argp_parse (configure_parser lib) calls ctx l = (p_return r ctx', l')) :
  reqs_bounded ctx' /\
  firstn (nreqs ctx') (reqs ctx') =
    firstn (nreqs ctx) (reqs ctx) ++ required calls /\
  l' = l.
Proof.
  revert ctx l Hb Hret. induction calls as [|c rest IH]; intros ctx l Hb Hret.
  - cbn in Hret. injection Hret as _ <- <-.
    unfold required. cbn. now rewrite app_nil_r.
  - cbn [argp_parse] in Hret. unfold bind in Hret.
    destruct (configure_parser_inv (cb_key c) (cb_arg c) (cb_arg_num c) ctx l Hb)
      as (evs & Hlog & Hres).
    destruct (configure_parser lib (cb_key c) (cb_arg c) (cb_arg_num c) ctx l)
      as [[r1 ctx1|status|] l1]; cbn [fst snd] in Hlog, Hres.
    + destruct Hres as (-> & Hb1 & _ & Hfirst). rewrite app_nil_r in Hlog.
      subst l1. destruct (IH ctx1 l Hb1 Hret) as (Hb' & Hreqs & Hl).
      split; [exact Hb'|]. split; [|exact Hl].
      rewrite Hreqs, Hfirst, <- app_assoc. f_equal.
      unfold required. cbn [List.filter].
      now destruct (cb_key c =? key "r").
    + discriminate Hret.
    + contradiction.
Qed.

(** The command "configure" takes exactly one positional argument: a
    second one, or the end of the options without any, ends the process
    with [EXIT_FAILURE] after one event, unless an earlier option already
    did. *)
Theorem configure_takes_one_rootfs (calls : list callback) (ctx : context)
    (l : log)
    (Hb : reqs_bounded ctx)
    (Hbad : Exists (fun c =>
                (cb_key c = ARGP_KEY_ARG /\ (0 < cb_arg_num c)%nat) \/
                (cb_key c = ARGP_KEY_END /\ cb_arg_num c = 0%nat)) calls) :
  (argp_parse (configure_parser lib) calls ctx l).1 = p_exit EXIT_FAILURE /\
  exists e : event,
    (argp_parse (configure_parser lib) calls ctx l).2 = l ++ [e] /\
    is_exit_event e = true.
Proof.
  revert ctx l Hb.
  induction calls as [|c rest IH]; intros ctx l Hb;
    [now apply Exists_nil in Hbad|].
  cbn [argp_parse]. unfold bind.
  destruct (configure_parser_inv (cb_key c) (cb_arg c) (cb_arg_num c) ctx l Hb)
    as (evs & Hlog & Hres).
  apply Exists_cons in Hbad as [Hc|Hrest].
  - destruct c as [k a n]. cbn [cb_key cb_arg cb_arg_num] in *.
    assert (configure_parser lib k a n ctx l =
              (p_exit EXIT_FAILURE, l ++ [ev_argp_usage])) as ->.
    { destruct Hc as [[-> Hn]|[-> ->]]; [|reflexivity].
      destruct n as [|n]; [lia | reflexivity]. }
    split; [reflexivity|]. now exists ev_argp_usage.
  - destruct (configure_parser lib (cb_key c) (cb_arg c) (cb_arg_num c) ctx l)
      as [[r1 ctx1|status|] l1]; cbn [fst snd] in Hlog, Hres.
    + destruct Hres as (-> & Hb1 & _). rewrite app_nil_r in Hlog. subst l1.
      now apply IH.
    + destruct Hres as (-> & e & -> & He). subst l1.
      split; [reflexivity|]. now exists e.
    + contradiction.
Qed.

End parser_extras.

Lemma requirements_kept_in_order_witness :
  firstn 2 ([Some "cuda>=9.0"; Some "driver>=384"] ++ replicate 14 None) =
    [] ++ [Some "cuda>=9.0"; Some "driver>=384"].
Proof.
  apply (requirements_kept_in_order (example.lib 0 None)
           [example.opt "r" "cuda>=9.0"; example.opt "d" "0";
            example.opt "r" "driver>=384"]
           context_zero
           {| pid := 0; rootfs := None; devices := Some "0";
              reqs := [Some "cuda>=9.0"; Some "driver>=384"] ++
                      replicate 14 None;
              nreqs := 2; init_flags := None; driver_flags := None;
              device_flags := None; container_flags := None;
              command_ := None |}
           [] [] 0).
  - split; [reflexivity | unfold nitems_reqs; cbn; lia].
  - reflexivity.
Defined.

Lemma configure_takes_one_rootfs_witness :
  (argp_parse (configure_parser (example.lib 0 None))
     [ {| cb_key := ARGP_KEY_ARG; cb_arg := Some "/a"; cb_arg_num := 0 |};
       {| cb_key := ARGP_KEY_ARG; cb_arg := Some "/b"; cb_arg_num := 1 |} ]
     context_zero []).1 = p_exit EXIT_FAILURE.
Proof.
  apply (configure_takes_one_rootfs (example.lib 0 None)
           [ {| cb_key := ARGP_KEY_ARG; cb_arg := Some "/a"; cb_arg_num := 0 |};
             {| cb_key := ARGP_KEY_ARG; cb_arg := Some "/b"; cb_arg_num := 1 |} ]
           context_zero []).
  - split; [reflexivity | unfold nitems_reqs; cbn; lia].
  - apply Exists_cons_tl, Exists_cons_hd. left. cbn. split; [reflexivity | lia].
Defined.

(** ** main *)

Section main_facts.
Variable lib : library.

Lemma exit_event_not_workflow (e : event) :
  is_exit_event e = true -> is_workflow_event e = false.
Proof. destruct e; intros H; try discriminate H; reflexivity. Qed.

Lemma argp_parse_configure_inv (calls : list callback) (ctx : context)
    (l : log) :
  reqs_bounded ctx ->
  exists evs : list event,
    (argp_parse (configure_parser lib) calls ctx l).2 = l ++ evs /\
    match (argp_parse (configure_parser lib) calls ctx l).1 with
    | p_return _ ctx' =>
        evs = [] /\ reqs_bounded ctx' /\ command_ ctx' = command_ ctx
    | p_exit status =>
        status = EXIT_FAILURE /\
        exists e : event, evs = [e] /\ is_exit_event e = true
    | p_undefined => False
    end.
Proof.
  revert ctx l. induction calls as [|c rest IH]; intros ctx l Hb.
  - exists []. cbn. rewrite app_nil_r.
    split; [reflexivity|]. split; [reflexivity|]. now split.
  - cbn [argp_parse]. unfold bind.
    destruct (configure_parser_inv lib (cb_key c) (cb_arg c) (cb_arg_num c)
                ctx l Hb) as (evs & Hlog & Hres).
    destruct (configure_parser lib (cb_key c) (cb_arg c) (cb_arg_num c) ctx l)
      as [[r1 ctx1|status|] l1]; cbn [fst snd] in Hlog, Hres.
    + destruct Hres as (-> & Hb1 & Hc & _). rewrite app_nil_r in Hlog.
      subst l1. destruct (IH ctx1 l Hb1) as (evs & Hlog & Hres).
      exists evs. split; [exact Hlog|].
      destruct (argp_parse (configure_parser lib) rest ctx1 l).1
        as [r' ctx'|status|]; try exact Hres.
      destruct Hres as (He & Hb' & Hc').
      split; [exact He|]. split; [exact Hb'|]. congruence.
    + exists evs. split; [exact Hlog|]. exact Hres.
    + contradiction.
Qed.

(** A call of [main_parser]: what it logs, and what it does to the
    command. *)
Lemma main_parser_inv (cl : command_line) (k : Z) (arg : option string)
    (n : nat) (ctx : context) (l : log) :
  reqs_bounded ctx ->
  exists evs : list event,
    (main_parser lib cl k arg n ctx l).2 = l ++ evs /\
    Forall (fun e => is_workflow_event e = false) evs /\
    match (main_parser lib cl k arg n ctx l).1 with
    | p_return _ ctx' =>
        Forall (fun e => is_exit_event e = false) evs /\
        reqs_bounded ctx' /\
        (command_ ctx' = command_ ctx \/
         (k = ARGP_KEY_ARGS /\ argv0 cl = "configure" /\
          command_ ctx' <> None)) /\
        (k = ARGP_KEY_END -> command_ ctx' <> None)
    | p_exit status => status = EXIT_FAILURE
    | p_undefined => False
    end.
Proof.
  intros Hb. unfold main_parser.
  destruct (Z.eqb_spec k (key "d")) as [->|Hd].
  { eexists [_]. split; [reflexivity|]. split; [repeat constructor|].
    cbn. split; [repeat constructor|]. split; [exact Hb|].
    split; [now left|]. intros H. vm_compute in H. discriminate H. }
  destruct (Z.eqb_spec k (key "k")) as [->|Hk].
  { unfold join, fatal, bind, ask, emit, ret.
    destruct (strjoin lib l (init_flags ctx) "load-kmods" " ") as [s|m];
      cbn [fst snd].
    - exists []. rewrite app_nil_r. split; [reflexivity|].
      split; [constructor|]. split; [constructor|]. split; [exact Hb|].
      split; [now left|]. intros H. vm_compute in H. discriminate H.
    - eexists [_]. split; [reflexivity|]. split; [repeat constructor|].
      reflexivity. }
  destruct (Z.eqb_spec k ARGP_KEY_ARGS) as [->|Ha].
  { unfold commands. cbn [parse_command command_parser].
    destruct (String.eqb_spec (argv0 cl) (command_name cmd_configure))
      as [Hname|Hname].
    - unfold bind.
      destruct (argp_parse_configure_inv (command_calls cl) ctx l Hb)
        as (evs & Hlog & Hres).
      destruct (argp_parse (configure_parser lib) (command_calls cl) ctx l)
        as [[r ctx'|status|] l1]; cbn [fst snd ret] in *.
      + destruct Hres as (-> & Hb' & Hc). exists [].
        split; [exact Hlog|]. split; [constructor|]. split; [constructor|].
        split; [exact Hb'|]. split; [|intros H; discriminate H].
        right. split; [reflexivity|]. split; [exact Hname | discriminate].
      + destruct Hres as (-> & e & -> & He). exists [e].
        split; [exact Hlog|]. split; [|reflexivity].
        constructor; [now apply exit_event_not_workflow | constructor].
      + contradiction.
    - unfold argp_usage, bind, emit, ret. cbn [fst snd].
      eexists [_]. split; [reflexivity|]. split; [repeat constructor|].
      reflexivity. }
  destruct (Z.eqb_spec k ARGP_KEY_END) as [->|He].
  { destruct (command_ ctx) as [c|] eqn:Hc.
    - exists []. cbn. rewrite app_nil_r. split; [reflexivity|].
      split; [constructor|]. split; [constructor|]. split; [exact Hb|].
      split; [now left|]. intros _. now rewrite Hc.
    - unfold argp_usage, bind, emit, ret. cbn [fst snd].
      eexists [_]. split; [reflexivity|]. split; [repeat constructor|].
      reflexivity. }
  exists []. cbn. rewrite app_nil_r. split; [reflexivity|].
  split; [constructor|]. split; [constructor|]. split; [exact Hb|].
  split; [now left|]. intros H. contradiction.
Qed.

(** The parse of the options of [main]: what it logs, and when it leaves
    a command. *)
Lemma argp_parse_main_inv (cl : command_line) (calls : list callback)
    (ctx : context) (l : log) :
  reqs_bounded ctx ->
  exists evs : list event,
    (argp_parse (main_parser lib cl) calls ctx l).2 = l ++ evs /\
    Forall (fun e => is_workflow_event e = false) evs /\
    match (argp_parse (main_parser lib cl) calls ctx l).1 with
    | p_return _ ctx' =>
        Forall (fun e => is_exit_event e = false) evs /\
        reqs_bounded ctx' /\
        (command_ ctx <> None -> command_ ctx' <> None) /\
        (Exists (fun c => cb_key c = ARGP_KEY_END) calls ->
         command_ ctx' <> None) /\
        (command_ ctx = None -> command_ ctx' <> None ->
         argv0 cl = "configure" /\
         Exists (fun c => cb_key c = ARGP_KEY_ARGS) calls)
    | p_exit status => status = EXIT_FAILURE
    | p_undefined => False
    end.
Proof.
  revert ctx l. induction calls as [|c rest IH]; intros ctx l Hb.
  - exists []. cbn. rewrite app_nil_r. split; [reflexivity|].
    split; [constructor|]. split; [constructor|]. split; [exact Hb|].
    split; [tauto|]. split; [intros H; now apply Exists_nil in H|].
    intros H1 H2. contradiction.
  - cbn [argp_parse]. unfold bind.
    destruct (main_parser_inv cl (cb_key c) (cb_arg c) (cb_arg_num c) ctx l Hb)
      as (evs & Hlog & Hq & Hres).
    destruct (main_parser lib cl (cb_key c) (cb_arg c) (cb_arg_num c) ctx l)
      as [[r1 ctx1|status|] l1]; cbn [fst snd] in Hlog, Hres; subst l1.
    + destruct Hres as (Hx & Hb1 & Hcmd & Hend).
      destruct (IH ctx1 (l ++ evs) Hb1) as (evs' & Hlog' & Hq' & Hres').
      exists (evs ++ evs'). rewrite Hlog', app_assoc.
      split; [reflexivity|]. split; [now apply Forall_app|].
      destruct (argp_parse (main_parser lib cl) rest ctx1 (l ++ evs)).1
        as [r' ctx'|status|]; try exact Hres'.
      destruct Hres' as (Hx' & Hb' & Hkeep & Hend' & Hfrom).
      split; [now apply Forall_app|]. split; [exact Hb'|].
      assert (command_ ctx <> None -> command_ ctx1 <> None) as Hkeep1.
      { intros Hc. destruct Hcmd as [Heq|(_ & _ & Hne)]; congruence. }
      split; [tauto|]. split.
      * intros Hex. apply Exists_cons in Hex as [Hc|Hr]; [|tauto].
        apply Hkeep. now apply Hend.
      * intros Hnone Hsome. destruct Hcmd as [Heq|(Hk & Hname & _)].
        -- destruct Hfrom as [Hname Hargs]; [congruence | exact Hsome |].
           split; [exact Hname | now apply Exists_cons_tl].
        -- split; [exact Hname | now apply Exists_cons_hd].
    + exists evs. now repeat split.
    + contradiction.
Qed.

Lemma workflow_trace_status (ctx : context) (wlog : list event) (rv : Z) :
  workflow_trace ctx wlog rv -> rv = EXIT_SUCCESS \/ rv = EXIT_FAILURE.
Proof.
  destruct 1 as [| | | | |nvc cfg r cnt drv dev evs rv Hr Hm]; try now right.
  destruct Hm; first [now left | now right].
Qed.

(** The events of the option parsers are no warnings, no failed calls and
    no mounts. *)
Lemma parser_events_quiet (evs : list event) :
  Forall (fun e => is_workflow_event e = false) evs ->
  warnings evs = [] /\ after_failure evs = None /\ mount_calls evs = [].
Proof.
  unfold warnings, mount_calls.
  induction 1 as [|e evs He _ (IH1 & IH2 & IH3)]; [now repeat split|].
  destruct e; try discriminate He; cbn; now repeat split.
Qed.

(** A run of the workflow that returns [EXIT_SUCCESS]. *)
Lemma workflow_trace_success (ctx : context) (wlog : list event) :
  workflow_trace ctx wlog EXIT_SUCCESS ->
  warnings wlog = [] /\ after_failure wlog = None /\
  Forall (fun e => is_exit_event e = false) wlog /\
  exists nvc cnt w,
    last (mount_calls wlog) = Some (ev_nvc_ldcache_update nvc cnt w) /\ 0 <= w.
Proof.
  intros H. remember EXIT_SUCCESS as rv eqn:Hrv.
  destruct H as [| | | | |nvc cfg r cnt drv dev evs rv Hr Hm];
    try discriminate Hrv.
  pose proof (mounts_trace_events _ _ _ _ _ _ _ Hm) as Hph.
  destruct Hm as [evs Hq|evs rv selected err Hq Hs Hrv'
                 |evs rv selected err v m Hq Hs Hrv' Hv
                 |evs rv selected err v mevs Hq Hs Hrv' Hv Hm
                 |evs rv selected err v mevs w m Hq Hs Hrv' Hv Hm Hw
                 |evs rv selected err v mevs w Hq Hs Hrv' Hv Hm Hw];
    try discriminate Hrv.
  apply reqs_trace_reading in Hq as (Hq0 & Hq1 & Hq2).
  apply mount_trace_reading in Hm as (Hm0 & Hm1 & Hm2 & _).
  apply Z.ltb_ge in Hr, Hv. pose proof Hw as Hw'. apply Z.ltb_ge in Hw'.
  split; [|split; [|split]].
  - rewrite !warnings_app, Hq1.
    change (warnings (ev_nvc_driver_mount nvc cnt drv v :: mevs ++
                      [ev_nvc_ldcache_update nvc cnt w]))
      with (warnings (mevs ++ [ev_nvc_ldcache_update nvc cnt w])).
    now rewrite warnings_app, Hm1.
  - unfold acquisitions. cbn [app after_failure failed]. rewrite Hr.
    rewrite !after_failure_app, Hq2. cbn [after_failure failed]. rewrite Hv.
    rewrite after_failure_app, Hm2. cbn [after_failure failed]. now rewrite Hw'.
  - apply Forall_app. split; [repeat constructor|].
    apply Forall_app. split; [|repeat constructor].
    eapply Forall_impl; [exact Hph|].
    intros e He. destruct e; try discriminate He; reflexivity.
  - exists nvc, cnt, w. split; [|exact Hw].
    rewrite !mount_calls_app, Hq0.
    change (mount_calls (acquisitions ctx nvc cfg cnt drv dev r))
      with (@nil event).
    change (mount_calls (cleanup (Some nvc) (Some cnt) (Some dev) (Some drv)
                           (Some cfg))) with (@nil event).
    change (mount_calls (ev_nvc_driver_mount nvc cnt drv v :: mevs ++
                         [ev_nvc_ldcache_update nvc cnt w]))
      with (ev_nvc_driver_mount nvc cnt drv v ::
            mount_calls (mevs ++ [ev_nvc_ldcache_update nvc cnt w])).
    rewrite mount_calls_app, app_nil_r. cbn [app].
    change (mount_calls [ev_nvc_ldcache_update nvc cnt w])
      with [ev_nvc_ldcache_update nvc cnt w].
    rewrite app_comm_cons. apply last_snoc.
Qed.

(** When [argp_parse] delivers the end of the options, [main] neither
    calls through a NULL command nor writes outside the requirement
    array: it ends with [EXIT_SUCCESS] or [EXIT_FAILURE]. *)
Theorem main_returns_a_status (cl : command_line)
    (Hend : Exists (fun c => cb_key c = ARGP_KEY_END) (main_calls cl)) :
  (run (main lib cl)).1 = Some EXIT_SUCCESS \/
  (run (main lib cl)).1 = Some EXIT_FAILURE.
Proof.
  unfold run, main, bind.
  destruct (argp_parse_main_inv cl (main_calls cl) context_zero [])
    as (evs & Hlog & Hq & Hres).
  { split; [reflexivity | unfold nitems_reqs; cbn; lia]. }
  destruct (argp_parse (main_parser lib cl) (main_calls cl) context_zero [])
    as [[r ctx|status|] l1]; cbn [fst snd app] in Hlog, Hres; subst l1.
  - destruct Hres as (_ & _ & _ & Hcmd & _). specialize (Hcmd Hend).
    destruct (command_ ctx) as [[]|]; [|contradiction].
    cbn [command_func]. unfold ret.
    destruct (configure_command_from lib evs ctx) as (wlog & _ & Htr).
    apply workflow_trace_status in Htr.
    destruct (configure_command lib ctx evs) as [rv l2]. cbn [fst] in *.
    destruct Htr as [->| ->]; [now left | now right].
  - subst status. now right.
  - contradiction.
Qed.

End main_facts.

Lemma main_returns_a_status_witness :
  (run (main (example.lib 0 None)
          (example.configure_line "0" ["cuda>=9.0"]))).1 = Some EXIT_SUCCESS \/
  (run (main (example.lib 0 None)
          (example.configure_line "0" ["cuda>=9.0"]))).1 = Some EXIT_FAILURE.
Proof.
  apply (main_returns_a_status (example.lib 0 None)
           (example.configure_line "0" ["cuda>=9.0"])).
  apply Exists_cons_tl, Exists_cons_hd. reflexivity.
Defined.

(** ** main, with the exits glibc makes by itself *)

Section glibc_facts.
Variable lib : library.

Lemma argp_parse_glibc_returns
    (parser : Z -> option string -> nat -> context -> M parse_result)
    (calls : list callback) (ctx : context) (l : log) :
  argp_parse_glibc parser calls argp_returns ctx l =
    argp_parse parser calls ctx l.
Proof.
  unfold argp_parse_glibc, bind.
  destruct (argp_parse parser calls ctx l) as [[r ctx'|status|] l1];
    reflexivity.
Qed.

Lemma main_parser_glibc_other (inv : invocation) (k : Z)
    (arg : option string) (n : nat) (ctx : context) (l : log) :
  k <> ARGP_KEY_ARGS ->
  main_parser_glibc lib inv k arg n ctx l =
    main_parser lib (cmdline inv) k arg n ctx l.
Proof.
  intros Hk. unfold main_parser_glibc, main_parser.
  destruct (k =? key "d"); [reflexivity|].
  destruct (k =? key "k"); [reflexivity|].
  destruct (Z.eqb_spec k ARGP_KEY_ARGS); [contradiction | reflexivity].
Qed.

(** When glibc lets both parses return, [main_glibc] is [main]. *)
Lemma main_glibc_returns (cl : command_line) (l : log) :
  main_glibc lib
    {| cmdline := cl; main_end := argp_returns; command_end := argp_returns |}
    l = main lib cl l.
Proof.
  set (inv := {| cmdline := cl; main_end := argp_returns;
                 command_end := argp_returns |}).
  assert (forall k arg n ctx h,
             main_parser_glibc lib inv k arg n ctx h =
               main_parser lib cl k arg n ctx h) as Hstep.
  { intros k arg n ctx h.
    destruct (Z.eqb_spec k ARGP_KEY_ARGS) as [->|Hk];
      [|now apply main_parser_glibc_other].
    unfold main_parser_glibc, main_parser, commands, inv.
    change (ARGP_KEY_ARGS =? key "d") with false.
    change (ARGP_KEY_ARGS =? key "k") with false.
    change (ARGP_KEY_ARGS =? ARGP_KEY_ARGS) with true.
    cbv iota.
    cbn [parse_command_glibc parse_command cmdline command_end].
    destruct (String.eqb (argv0 cl) (command_name cmd_configure));
      [|reflexivity].
    unfold bind. now rewrite argp_parse_glibc_returns. }
  assert (forall calls ctx h,
             argp_parse (main_parser_glibc lib inv) calls ctx h =
               argp_parse (main_parser lib cl) calls ctx h) as Hparse.
  { induction calls as [|c rest IH]; intros ctx h; [reflexivity|].
    cbn [argp_parse]. unfold bind. rewrite Hstep.
    destruct (main_parser lib cl (cb_key c) (cb_arg c) (cb_arg_num c) ctx h)
      as [[r ctx'|status|] h1]; [apply IH | reflexivity | reflexivity]. }
  subst inv. unfold main_glibc, main, bind. cbn [cmdline main_end].
  cbv beta. now rewrite argp_parse_glibc_returns, Hparse.
Qed.

(** A call of [main_parser]: what it logs, what it does to the command,
    and when it ends the process with 0. *)
Lemma main_parser_glibc_inv (inv : invocation) (k : Z) (arg : option string)
    (n : nat) (ctx : context) (l : log) :
  reqs_bounded ctx ->
  exists evs : list event,
    (main_parser_glibc lib inv k arg n ctx l).2 = l ++ evs /\
    Forall (fun e => is_workflow_event e = false) evs /\
    match (main_parser_glibc lib inv k arg n ctx l).1 with
    | p_return _ ctx' =>
        Forall (fun e => is_exit_event e = false) evs /\
        reqs_bounded ctx' /\
        ((command_ ctx' = command_ ctx /\ k <> ARGP_KEY_ARGS) \/
         (k = ARGP_KEY_ARGS /\ argv0 (cmdline inv) = "configure" /\
          command_end inv = argp_returns /\ command_ ctx' <> None)) /\
        (k = ARGP_KEY_END -> command_ ctx' <> None)
    | p_exit status =>
        status = EXIT_FAILURE \/
        (status = EXIT_SUCCESS /\ k = ARGP_KEY_ARGS /\
         argv0 (cmdline inv) = "configure" /\
         command_end inv = argp_exits_ok)
    | p_undefined => False
    end.
Proof.
  intros Hb. destruct (Z.eqb_spec k ARGP_KEY_ARGS) as [->|Hk].
  - unfold main_parser_glibc.
    change (ARGP_KEY_ARGS =? key "d") with false.
    change (ARGP_KEY_ARGS =? key "k") with false.
    change (ARGP_KEY_ARGS =? ARGP_KEY_ARGS) with true.
    cbv iota. unfold commands. cbn [parse_command_glibc command_parser].
    destruct (String.eqb_spec (argv0 (cmdline inv)) (command_name cmd_configure))
      as [Hname|Hname].
    + unfold argp_parse_glibc, bind.
      destruct (argp_parse_configure_inv lib (command_calls (cmdline inv))
                  ctx l Hb) as (evs & Hlog & Hres).
      destruct (argp_parse (configure_parser lib) (command_calls (cmdline inv))
                  ctx l) as [[r ctx'|status|] l1];
        cbn [fst snd] in Hlog, Hres.
      * destruct Hres as (-> & Hb' & Hc).
        destruct (command_end inv) eqn:He; cbn [ret fst snd];
          exists []; (split; [exact Hlog|]); (split; [constructor|]).
        -- split; [constructor|]. split; [exact Hb'|].
           split; [|intros H; discriminate H].
           right. split; [reflexivity|]. split; [exact Hname|].
           split; [reflexivity | discriminate].
        -- right. now repeat split.
        -- now left.
      * destruct Hres as (-> & e & -> & He).
        exists [e]. destruct (command_end inv); cbn [ret fst snd];
          (split; [exact Hlog|]);
          (split; [constructor; [now apply exit_event_not_workflow
                                |constructor]|]); now left.
      * contradiction.
    + unfold argp_usage, bind, emit, ret. cbn [fst snd].
      eexists [_]. split; [reflexivity|]. split; [repeat constructor|].
      now left.
  - rewrite main_parser_glibc_other by exact Hk.
    destruct (main_parser_inv lib (cmdline inv) k arg n ctx l Hb)
      as (evs & Hlog & Hq & Hres).
    exists evs. split; [exact Hlog|]. split; [exact Hq|].
    destruct (main_parser lib (cmdline inv) k arg n ctx l).1
      as [r ctx'|status|]; [|now left|exact Hres].
    destruct Hres as (Hx & Hb' & Hcmd & Hend).
    split; [exact Hx|]. split; [exact Hb'|]. split; [|exact Hend].
    left. destruct Hcmd as [Hc|(Hc & _)]; [now split | contradiction].
Qed.

(** The calls to [main_parser] of a whole parse. *)
Lemma argp_parse_main_glibc_inv (inv : invocation) (calls : list callback)
    (ctx : context) (l : log) :
  reqs_bounded ctx ->
  exists evs : list event,
    (argp_parse (main_parser_glibc lib inv) calls ctx l).2 = l ++ evs /\
    Forall (fun e => is_workflow_event e = false) evs /\
    match (argp_parse (main_parser_glibc lib inv) calls ctx l).1 with
    | p_return _ ctx' =>
        Forall (fun e => is_exit_event e = false) evs /\
        reqs_bounded ctx' /\
        (command_ ctx <> None -> command_ ctx' <> None) /\
        (command_ ctx = None -> command_ ctx' <> None ->
         argv0 (cmdline inv) = "configure" /\
         command_end inv = argp_returns /\
         Exists (fun c => cb_key c = ARGP_KEY_ARGS) calls) /\
        (command_ ctx = None -> command_ ctx' = None ->
         Forall (fun c => cb_key c <> ARGP_KEY_ARGS /\
                          cb_key c <> ARGP_KEY_END) calls)
    | p_exit status =>
        status = EXIT_FAILURE \/
        (status = EXIT_SUCCESS /\
         argv0 (cmdline inv) = "configure" /\
         command_end inv = argp_exits_ok /\
         Exists (fun c => cb_key c = ARGP_KEY_ARGS) calls)
    | p_undefined => False
    end.
Proof.
  revert ctx l. induction calls as [|c rest IH]; intros ctx l Hb.
  - exists []. cbn. rewrite app_nil_r. split; [reflexivity|].
    split; [constructor|]. split; [constructor|]. split; [exact Hb|].
    split; [tauto|]. split; [intros H1 H2; contradiction|].
    intros _ _. constructor.
  - cbn [argp_parse]. unfold bind.
    destruct (main_parser_glibc_inv inv (cb_key c) (cb_arg c) (cb_arg_num c)
                ctx l Hb) as (evs & Hlog & Hq & Hres).
    destruct (main_parser_glibc lib inv (cb_key c) (cb_arg c) (cb_arg_num c)
                ctx l) as [[r1 ctx1|status|] l1];
      cbn [fst snd] in Hlog, Hres; subst l1.
    + destruct Hres as (Hx & Hb1 & Hcmd & Hend).
      destruct (IH ctx1 (l ++ evs) Hb1) as (evs' & Hlog' & Hq' & Hres').
      exists (evs ++ evs'). rewrite Hlog', app_assoc.
      split; [reflexivity|]. split; [now apply Forall_app|].
      destruct (argp_parse (main_parser_glibc lib inv) rest ctx1 (l ++ evs)).1
        as [r' ctx'|status|].
      * destruct Hres' as (Hx' & Hb' & Hkeep & Hfrom & Hstay).
        split; [now apply Forall_app|]. split; [exact Hb'|].
        assert (command_ ctx <> None -> command_ ctx1 <> None) as Hkeep1.
        { intros Hc. destruct Hcmd as [[Heq _]|(_ & _ & _ & Hne)]; congruence. }
        split; [tauto|]. split.
        -- intros Hnone Hsome.
           destruct Hcmd as [[Heq Hk]|(Hk & Hname & He & _)].
           ++ destruct Hfrom as (Hname & He & Hargs);
                [congruence | exact Hsome |].
              split; [exact Hname|]. split; [exact He|].
              now apply Exists_cons_tl.
           ++ split; [exact Hname|]. split; [exact He|].
              now apply Exists_cons_hd.
        -- intros Hnone Hnone'.
           destruct Hcmd as [[Heq Hk]|(_ & _ & _ & Hne)].
           ++ constructor.
              ** split; [exact Hk|]. intros Hk'. apply (Hend Hk'). congruence.
              ** apply Hstay; [congruence | exact Hnone'].
           ++ exfalso. now apply (Hkeep Hne).
      * destruct Hres' as [Hs|(Hs & Hname & He & Hargs)]; [now left|].
        right. split; [exact Hs|]. split; [exact Hname|].
        split; [exact He | now apply Exists_cons_tl].
      * contradiction.
    + exists evs. split; [reflexivity|]. split; [exact Hq|].
      destruct Hres as [Hs|(Hs & Hk & Hname & He)]; [now left|].
      right. split; [exact Hs|]. split; [exact Hname|].
      split; [exact He | now apply Exists_cons_hd].
    + contradiction.
Qed.

Lemma no_command_delivered (calls : list callback) :
  Exists (fun c => cb_key c = ARGP_KEY_ARGS \/ cb_key c = ARGP_KEY_END) calls ->
  Forall (fun c => cb_key c <> ARGP_KEY_ARGS /\ cb_key c <> ARGP_KEY_END) calls ->
  False.
Proof.
  intros Hex Hall. apply Exists_exists in Hex as (c & Hin & Hc).
  rewrite Forall_forall in Hall. destruct (Hall c Hin) as [Ha He].
  destruct Hc; contradiction.
Qed.

(** Without a command argument, or with a command name other than
    "configure", the workflow does not start. [main] then ends with
    status 0 only when glibc itself ends the parse (on "--help",
    "--usage" or "--version"), and once [ARGP_KEY_ARGS] or [ARGP_KEY_END]
    is delivered to [main_parser] it ends with [EXIT_FAILURE]. *)
Theorem no_command_no_workflow (inv : invocation)
    (Hno : argv0 (cmdline inv) <> "configure" \/
           Forall (fun c => cb_key c <> ARGP_KEY_ARGS)
             (main_calls (cmdline inv))) :
  Forall (fun e => is_workflow_event e = false) (run (main_glibc lib inv)).2 /\
  ((run (main_glibc lib inv)).1 = Some EXIT_SUCCESS ->
   main_end inv = argp_exits_ok) /\
  (Exists (fun c => cb_key c = ARGP_KEY_ARGS \/ cb_key c = ARGP_KEY_END)
     (main_calls (cmdline inv)) ->
   (run (main_glibc lib inv)).1 = Some EXIT_FAILURE).
Proof.
  assert (Exists (fun c => cb_key c = ARGP_KEY_ARGS) (main_calls (cmdline inv)) ->
          argv0 (cmdline inv) = "configure" -> False) as Hnot.
  { intros Hargs Hname. destruct Hno as [Hno|Hno]; [contradiction|].
    apply Exists_exists in Hargs as (c & Hin & Hc).
    rewrite Forall_forall in Hno. now apply (Hno c). }
  unfold run, main_glibc, argp_parse_glibc, bind.
  destruct (argp_parse_main_glibc_inv inv (main_calls (cmdline inv))
              context_zero []) as (evs & Hlog & Hq & Hres).
  { split; [reflexivity | unfold nitems_reqs; cbn; lia]. }
  destruct (argp_parse (main_parser_glibc lib inv) (main_calls (cmdline inv))
              context_zero []) as [[r ctx|status|] l1];
    cbn [fst snd app] in Hlog, Hres; subst l1.
  - destruct Hres as (_ & _ & _ & Hfrom & Hstay).
    assert (command_ ctx = None) as Hc.
    { destruct (command_ ctx) as [c|] eqn:E; [|reflexivity]. exfalso.
      destruct Hfrom as (Hname & _ & Hargs); [reflexivity | discriminate |].
      now apply Hnot. }
    specialize (Hstay eq_refl Hc).
    destruct (main_end inv) eqn:He; cbn [ret fst snd]; rewrite ?Hc;
      cbn [ret fst snd]; (split; [exact Hq|]).
    + split; [discriminate|]. intros Hex. exfalso.
      now apply (no_command_delivered _ Hex).
    + split; [reflexivity|]. intros Hex. exfalso.
      now apply (no_command_delivered _ Hex).
    + split; [|reflexivity]. intros H. discriminate H.
  - cbn [ret fst snd]. split; [exact Hq|].
    destruct Hres as [->|(_ & Hname & _ & Hargs)].
    + split; [|reflexivity]. intros H. discriminate H.
    + exfalso. now apply Hnot.
  - contradiction.
Qed.

(** [main] ends with status 0 in two ways only. Either glibc itself
    ended a parse on "--help", "--usage" or "--version", and the workflow
    did not start; or glibc let both parses return and the workflow ran
    to its end for the command "configure": no option ended the process,
    no call failed, no diagnostic was written, and the last mount call is
    a refresh of the cache that succeeded. *)
Theorem main_succeeds_only_after_the_workflow (inv : invocation)
    (Hok : (run (main_glibc lib inv)).1 = Some EXIT_SUCCESS) :
  let log := (run (main_glibc lib inv)).2 in
  ((main_end inv = argp_exits_ok \/ command_end inv = argp_exits_ok) /\
   Forall (fun e => is_workflow_event e = false) log) \/
  (main_end inv = argp_returns /\ command_end inv = argp_returns /\
   argv0 (cmdline inv) = "configure" /\
   Forall (fun e => is_exit_event e = false) log /\
   warnings log = [] /\ after_failure log = None /\
   exists nvc cnt w,
     last (mount_calls log) = Some (ev_nvc_ldcache_update nvc cnt w) /\
     0 <= w).
Proof.
  cbv zeta. revert Hok. unfold run, main_glibc, argp_parse_glibc, bind.
  destruct (argp_parse_main_glibc_inv inv (main_calls (cmdline inv))
              context_zero []) as (evs & Hlog & Hq & Hres).
  { split; [reflexivity | unfold nitems_reqs; cbn; lia]. }
  destruct (argp_parse (main_parser_glibc lib inv) (main_calls (cmdline inv))
              context_zero []) as [[r ctx|status|] l1];
    cbn [fst snd app] in Hlog, Hres; subst l1.
  - destruct Hres as (Hx & _ & _ & Hfrom & _).
    destruct (main_end inv) eqn:He; cbn [ret fst snd].
    + destruct (command_ ctx) as [[]|] eqn:Hc; [|discriminate].
      destruct Hfrom as (Hname & Hce & _); [reflexivity | discriminate |].
      cbn [command_func]. unfold ret.
      destruct (configure_command_from lib evs ctx) as (wlog & Hwlog & Htr).
      destruct (configure_command lib ctx evs) as [rv l2].
      cbn [fst snd] in *. subst l2. intros [= ->].
      apply workflow_trace_success in Htr
        as (Hw & Ha & Hev & nvc & cnt & w & Hl & Hpos).
      apply parser_events_quiet in Hq as (Qw & Qa & Qm).
      right. split; [reflexivity|]. split; [exact Hce|].
      split; [exact Hname|]. split; [now apply Forall_app|].
      rewrite warnings_app, after_failure_app, mount_calls_app, Qw, Qa, Qm, Hw.
      split; [reflexivity|]. split; [exact Ha|]. now exists nvc, cnt, w.
    + intros _. left. split; [now left | exact Hq].
    + intros H. discriminate H.
  - cbn [ret fst snd]. intros [= ->].
    destruct Hres as [Hs|(_ & _ & He & _)].
    + symmetry in Hs. now apply exit_codes_differ in Hs.
    + left. split; [now right | exact Hq].
  - contradiction.
Qed.

End glibc_facts.

Lemma no_command_no_workflow_witness :
  (run (main_glibc (example.lib 0 None) example.unknown_command)).1 =
    Some EXIT_FAILURE /\
  Forall (fun e => is_workflow_event e = false)
    (run (main_glibc (example.lib 0 None) example.unknown_command)).2.
Proof.
  destruct (no_command_no_workflow (example.lib 0 None) example.unknown_command)
    as (Hq & _ & Hfail); [left; discriminate|].
  split; [|exact Hq]. apply Hfail. apply Exists_cons_hd. now left.
Defined.

Lemma main_succeeds_only_after_the_workflow_witness :
  (run (main_glibc (example.lib 0 None) example.configure_help)) =
    (Some EXIT_SUCCESS, []) /\
  command_end example.configure_help = argp_exits_ok /\
  warnings
    (run (main_glibc (example.lib 0 None)
            (example.returning (example.configure_line "0" ["cuda>=9.0"])))).2
    = [].
Proof.
  split; [reflexivity|]. split; [reflexivity|].
  destruct (main_succeeds_only_after_the_workflow (example.lib 0 None)
              (example.returning (example.configure_line "0" ["cuda>=9.0"])))
    as [[[H|H] _]|(_ & _ & _ & _ & Hw & _)];
    [vm_compute; reflexivity | discriminate H | discriminate H | exact Hw].
Defined.
